(** * Bogue: entities, combat resolution and mob AI

    A shallow embedding of [entities.py] (classes [Entity], [CombatEntity],
    [Player], [Mob], [Spider], [Skeleton]) and of [MessageBox.add_msg] from
    [gui.py], followed by the properties of the specification that concern
    them.

    Python objects live in a heap indexed by references; the game handler
    (the class attribute [handler] shared by every entity) is the state that
    all methods thread.  Exceptions leave the mutations made so far in
    place, as in Python. *)

From Stdlib Require Import ZArith Lia SpecFloat.
From stdpp Require Import base option list gmap strings pretty.

Local Open Scope Z_scope.

(** ** Python floats

    [math.sqrt] and [0.4 * max_hp] compute on IEEE 754 binary64 values.
    [SpecFloat] is the executable specification of that format. *)
Module PyFloat.

Definition prec : Z := 53.
Definition emax : Z := 1024.

Definition float : Type := spec_float.

(** Conversion of a Python integer, rounding to nearest even;
    [None] stands for [OverflowError]. *)
Definition of_int (z : Z) : option float :=
  match binary_normalize prec emax z 0 false with
  | S754_infinity _ => None
  | f => Some f
  end.

Definition mul (a b : float) : float := SFmul prec emax a b.
Definition sqrt (a : float) : float := SFsqrt prec emax a.
Definition ltb (a b : float) : bool := SFltb a b.

(** The literal [0.4], that is 0x3FD999999999999A. *)
Definition c0_4 : float := S754_finite false 7205759403792794 (-54).

(** [n >= f] for an integer [n]: Python compares the exact values. *)
Definition int_ge (n : Z) (f : float) : bool :=
  match f with
  | S754_zero _ => 0 <=? n
  | S754_infinity s => s
  | S754_nan => false
  | S754_finite s m e =>
      let v := if s then Z.neg m else Z.pos m in
      if 0 <=? e then v * 2 ^ e <=? n else v <=? n * 2 ^ (- e)
  end.

End PyFloat.

(** ** Module [data] *)
Module data.

(** Modelled from the spec: module [data] is not among the sources.  The
    mob states index the transition table: "States: HOLD (index 0),
    CHASE (1), RUN (2), DEAD (terminal, outside the transition table)".
    [DEAD] is a parameter of the development, see [Env]. *)
Definition HOLD : Z := 0.
Definition CHASE : Z := 1.
Definition RUN : Z := 2.

(** Modelled from the spec: the table [data.COLOURS] is missing; a
    colour is represented by the key it is looked up with. *)
Inductive colour : Type := COLOURS (key : string).

#[global] Instance colour_eq_dec : EqDecision colour.
Proof. solve_decision. Defined.

End data.

(** ** Objects and the handler *)

(** References to Python objects. *)
Definition ref : Type := nat.

(** The class of an object.  [Spider] and [Skeleton] only preset the
    arguments of [Mob.__init__] and override nothing, so their instances
    are tagged [cMob]. *)
Inductive class : Type := cEntity | cCombatEntity | cPlayer | cMob.

#[global] Instance class_eq_dec : EqDecision class.
Proof. solve_decision. Defined.

(** isinstance(o, CombatEntity), isinstance(o, Mob) *)
Definition is_CombatEntity (c : class) : bool :=
  match c with cEntity => false | _ => true end.
Definition is_Mob (c : class) : bool :=
  match c with cMob => true | _ => false end.

(** The attributes of an object.  [hp], [max_hp] and [atk] exist on
    instances of [CombatEntity] only and [morale], [state] on instances of
    [Mob] only: reads go through [getattr], which checks the class; the
    fields of the other instances are never read. *)
Module Obj.
Record t : Type := mk {
  cls : class;
  x : Z;
  y : Z;
  name : string;
  char : string;
  colour : data.colour;
  solid : bool;
  hp : Z;
  max_hp : Z;
  atk : Z;
  morale : Z;
  state : Z
}.

Definition set_x (v : Z) (o : t) : t :=
  mk (cls o) v (y o) (name o) (char o) (colour o) (solid o)
     (hp o) (max_hp o) (atk o) (morale o) (state o).
Definition set_y (v : Z) (o : t) : t :=
  mk (cls o) (x o) v (name o) (char o) (colour o) (solid o)
     (hp o) (max_hp o) (atk o) (morale o) (state o).
Definition set_name (v : string) (o : t) : t :=
  mk (cls o) (x o) (y o) v (char o) (colour o) (solid o)
     (hp o) (max_hp o) (atk o) (morale o) (state o).
Definition set_char (v : string) (o : t) : t :=
  mk (cls o) (x o) (y o) (name o) v (colour o) (solid o)
     (hp o) (max_hp o) (atk o) (morale o) (state o).
Definition set_solid (v : bool) (o : t) : t :=
  mk (cls o) (x o) (y o) (name o) (char o) (colour o) v
     (hp o) (max_hp o) (atk o) (morale o) (state o).
Definition set_hp (v : Z) (o : t) : t :=
  mk (cls o) (x o) (y o) (name o) (char o) (colour o) (solid o)
     v (max_hp o) (atk o) (morale o) (state o).
Definition set_state (v : Z) (o : t) : t :=
  mk (cls o) (x o) (y o) (name o) (char o) (colour o) (solid o)
     (hp o) (max_hp o) (atk o) (morale o) v.
End Obj.

(** The game handler, together with the state of module [random].
    [mobs] is [map_objects['mobs']], [messages] is
    [message_box.messages]; [draws] is the sequence of raw values the
    generator will produce and [drawn] counts those consumed. *)
Record handler : Type := mkHandler {
  heap : gmap ref Obj.t;
  player : ref;
  mobs : list ref;
  game_state : Z;
  fov_refresh : bool;
  fov_map : Z → Z → bool;
  messages : list (string * data.colour);
  draws : nat → Z;
  drawn : nat
}.

Definition set_heap (v : gmap ref Obj.t) (h : handler) : handler :=
  mkHandler v (player h) (mobs h) (game_state h) (fov_refresh h)
            (fov_map h) (messages h) (draws h) (drawn h).
Definition set_mobs (v : list ref) (h : handler) : handler :=
  mkHandler (heap h) (player h) v (game_state h) (fov_refresh h)
            (fov_map h) (messages h) (draws h) (drawn h).
Definition set_game_state (v : Z) (h : handler) : handler :=
  mkHandler (heap h) (player h) (mobs h) v (fov_refresh h)
            (fov_map h) (messages h) (draws h) (drawn h).
Definition set_fov_refresh (v : bool) (h : handler) : handler :=
  mkHandler (heap h) (player h) (mobs h) (game_state h) v
            (fov_map h) (messages h) (draws h) (drawn h).
Definition set_messages (v : list (string * data.colour)) (h : handler)
  : handler :=
  mkHandler (heap h) (player h) (mobs h) (game_state h) (fov_refresh h)
            (fov_map h) v (draws h) (drawn h).
Definition set_drawn (v : nat) (h : handler) : handler :=
  mkHandler (heap h) (player h) (mobs h) (game_state h) (fov_refresh h)
            (fov_map h) (messages h) (draws h) v.

(** ** Collaborators outside the sources

    - [DEAD] is [data.DEAD], the value shared by the terminal mob state
      and the game-over game state;
    - [is_solid h x y] is [handler.world.is_solid(x, y)]; the world may
      consult anything reachable from the handler;
    - [wrap msg] is [textwrap.wrap(msg, config.MSG_WIDTH -
      config.BORDER_WIDTH*2)];
    - [max_messages] is [config.MSG_HEIGHT - config.BORDER_WIDTH]. *)
Class Env : Type := mkEnv {
  DEAD : Z;
  is_solid : handler → Z → Z → bool;
  wrap : string → list string;
  max_messages : Z
}.

(** libt.map_is_in_fov *)
Definition map_is_in_fov (m : Z → Z → bool) (x y : Z) : bool := m x y.

(** ** Computations: state and exceptions *)

Inductive exn : Type :=
  | ValueError | IndexError | AttributeError | OverflowError
  | Unfinished.

Inductive result (A : Type) : Type :=
  | Return (a : A)
  | Raise (e : exn).
Arguments Return {A} a.
Arguments Raise {A} e.

Definition M (A : Type) : Type := handler → handler * result A.

#[global] Instance M_ret : MRet M := λ A a h, (h, Return a).
#[global] Instance M_bind : MBind M := λ A B f m h,
  match m h with
  | (h', Return a) => f a h'
  | (h', Raise e) => (h', Raise e)
  end.

Definition raise {A : Type} (e : exn) : M A := λ h, (h, Raise e).
Definition get : M handler := λ h, (h, Return h).
Definition modify (f : handler → handler) : M unit := λ h, (f h, Return tt).

(** The state and the result of a run. *)
Definition exec {A : Type} (m : M A) (h : handler) : handler := fst (m h).
Definition eval {A : Type} (m : M A) (h : handler) : result A := snd (m h).

(** Attribute access.  A reference outside the heap cannot arise in
    Python; the model answers [AttributeError]. *)
Definition get_obj (r : ref) : M Obj.t := λ h,
  match heap h !! r with
  | Some o => (h, Return o)
  | None => (h, Raise AttributeError)
  end.

Definition getattr {A : Type} (has : class → bool) (f : Obj.t → A)
    (r : ref) : M A :=
  o ← get_obj r;
  if has (Obj.cls o) then mret (f o) else raise AttributeError.

Definition setattr (f : Obj.t → Obj.t) (r : ref) : M unit :=
  o ← get_obj r;
  modify (λ h, set_heap (<[r := f o]> (heap h)) h).

Definition any_class (c : class) : bool := true.

(** hasattr(target, "hp") *)
Definition hasattr_hp (target : ref) : M bool :=
  o ← get_obj target; mret (is_CombatEntity (Obj.cls o)).

(** random.randrange(n) *)
Definition randrange (n : Z) : M Z := λ h,
  if n <=? 0 then (h, Raise ValueError)
  else (set_drawn (S (drawn h)) h, Return (draws h (drawn h) `mod` n)).

(** Python's [l[i]]: negative indices count from the end. *)
Definition getitem {A : Type} (l : list A) (i : Z) : M A :=
  let n := Z.of_nat (length l) in
  let j := if i <? 0 then i + n else i in
  if (0 <=? j) && (j <? n) then
    match l !! Z.to_nat j with
    | Some a => mret a
    | None => raise IndexError
    end
  else raise IndexError.

(** [list.remove(v)] deletes the first occurrence of [v]; [None] stands
    for [ValueError]. *)
Fixpoint remove_first (v : ref) (l : list ref) : option (list ref) :=
  match l with
  | [] => None
  | a :: l' =>
      if decide (a = v) then Some l' else cons a <$> remove_first v l'
  end.

(** Truth value of the result of [deal_damage]: [None] and [0] are false. *)
Definition truthy (dmg : option Z) : bool :=
  match dmg with
  | Some d => negb (d =? 0)
  | None => false
  end.

(** The integer under [%d]; [None] is never formatted. *)
Definition fmt_d (dmg : option Z) : string :=
  match dmg with
  | Some d => pretty d
  | None => ""
  end.

Section WithEnv.

Context {env : Env}.

(** ** gui.py: [MessageBox.add_msg] *)

Definition append_line (line : string) (colour : data.colour) : M unit :=
  h ← get;
  (if Z.of_nat (length (messages h)) =? max_messages then
     match messages h with
     | [] => raise IndexError
     | _ :: ms => modify (set_messages ms)
     end
   else mret tt);;
  modify (λ h, set_messages (messages h ++ [(line, colour)]) h).

Fixpoint add_lines (wrapped : list string) (colour : data.colour) : M unit :=
  match wrapped with
  | [] => mret tt
  | line :: rest => append_line line colour;; add_lines rest colour
  end.

Definition add_msg (msg : string) (colour : data.colour) : M unit :=
  add_lines (wrap msg) colour.

(** ** class Entity *)

Definition Entity_init (x y : Z) (name char : string)
    (colour : data.colour) (solid : bool) : Obj.t :=
  Obj.mk cEntity x y name char colour solid 0 0 0 0 0.

Definition move (self : ref) (dx dy : Z) : M unit :=
  sx ← getattr any_class Obj.x self;
  sy ← getattr any_class Obj.y self;
  h ← get;
  if negb (is_solid h (sx + dx) (sy + dy)) then
    (x0 ← getattr any_class Obj.x self; setattr (Obj.set_x (x0 + dx)) self);;
    (y0 ← getattr any_class Obj.y self; setattr (Obj.set_y (y0 + dy)) self)
  else mret tt.

(** ** class CombatEntity *)

Definition CombatEntity_init (x y : Z) (name char : string)
    (colour : data.colour) (hp atk : Z) : Obj.t :=
  Obj.mk cCombatEntity x y name char colour true hp hp atk 0 0.

(** The placeholder [CombatEntity.die]. *)
Definition CombatEntity_die (self : ref) : M unit := mret tt.

Section Methods.

(** [self.die()] is resolved on the class of the receiver: the method
    found there is a parameter of the inherited methods. *)
Variable die : ref → M unit.

Definition take_damage (self : ref) (damage : Z) : M unit :=
  hp ← getattr is_CombatEntity Obj.hp self;
  if hp - damage <=? 0 then
    setattr (Obj.set_hp 0) self;;
    die self
  else
    hp0 ← getattr is_CombatEntity Obj.hp self;
    setattr (Obj.set_hp (hp0 - damage)) self.

Definition deal_damage (self target : ref) : M (option Z) :=
  has ← hasattr_hp target;
  if (has : bool) then
    atk ← getattr is_CombatEntity Obj.atk self;
    dmg ← randrange (atk + 1);
    take_damage target dmg;;
    mret (Some dmg)
  else mret None.

End Methods.

(** ** class Player: death *)

Definition Player_init (x y : Z) (name : string) : Obj.t :=
  Obj.mk cPlayer x y name "@" (data.COLOURS "player") true 300 300 30 0 0.

Definition Player_die (self : ref) : M unit :=
  h ← get;
  if negb (game_state h =? DEAD) then
    modify (set_game_state DEAD);;
    setattr (Obj.set_char "%") self
  else mret tt.

(** ** class Mob: death *)

Definition send_to_back (self : ref) : M unit :=
  h ← get;
  match remove_first self (mobs h) with
  | None => raise ValueError
  | Some l => modify (set_mobs l)
  end;;
  modify (λ h, set_mobs (self :: mobs h) h).

Definition Mob_die (self : ref) : M unit :=
  setattr (Obj.set_char "X") self;;
  setattr (Obj.set_solid false) self;;
  setattr (Obj.set_state DEAD) self;;
  send_to_back self.

(** Method resolution for [die]. *)
Definition die (self : ref) : M unit :=
  o ← get_obj self;
  match Obj.cls o with
  | cPlayer => Player_die self
  | cMob => Mob_die self
  | cCombatEntity => CombatEntity_die self
  | cEntity => raise AttributeError
  end.

(** ** class Player: turn resolution *)

(** [for mob in self.handler.map_objects['mobs']]: the list iterator
    reads index [i] of the list as it is at that moment and stops at its
    end.  The body never changes the length of the list, so [length
    (mobs h)] steps suffice; [Unfinished] marks a run cut short by the
    bound (see [move_or_attack_finishes]). *)
Fixpoint for_mobs (bound : nat) (i : nat) (body : ref → M unit) : M unit :=
  h ← get;
  match mobs h !! i with
  | None => mret tt
  | Some mob =>
      match bound with
      | O => raise Unfinished
      | S n => body mob;; for_mobs n (S i) body
      end
  end.

Definition move_or_attack_body (self : ref) (dx dy : Z) (mob : ref)
  : M unit :=
  mx ← getattr any_class Obj.x mob;
  sx ← getattr any_class Obj.x self;
  c ← (if mx =? sx + dx then
         my ← getattr any_class Obj.y mob;
         sy ← getattr any_class Obj.y self;
         if my =? sy + dy then getattr any_class Obj.solid mob
         else mret false
       else mret false);
  if (c : bool) then
    dmg ← deal_damage die self mob;
    (if truthy dmg then
       nm ← getattr any_class Obj.name mob;
       add_msg ("You attack " +:+ nm +:+ " for " +:+ fmt_d dmg +:+ " damage!")
               (data.COLOURS "player_atk_text")
     else add_msg "You missed!" (data.COLOURS "player_atk_text"));;
    st ← getattr is_Mob Obj.state mob;
    if st =? DEAD then
      nm ← getattr any_class Obj.name mob;
      add_msg ("You killed " +:+ nm +:+ "!") (data.COLOURS "player_kill_text");;
      nm0 ← getattr any_class Obj.name mob;
      setattr (Obj.set_name (nm0 +:+ "'s remains")) mob
    else mret tt
  else mret tt.

Definition move_or_attack (self : ref) (dx dy : Z) : M unit :=
  h ← get;
  for_mobs (length (mobs h)) 0 (move_or_attack_body self dx dy);;
  (* the else clause of a for loop that has no break *)
  modify (set_fov_refresh true);;
  move self dx dy.

(** ** class Mob: behaviour *)

Definition Mob_init (x y : Z) (name char : string) (hp atk morale : Z)
    (state : Z) : Obj.t :=
  Obj.mk cMob x y name char (data.COLOURS "mob") true hp hp atk morale state.

(** Behavioural checks to switch between states. *)
Definition in_sight (self : ref) : M bool :=
  sx ← getattr any_class Obj.x self;
  sy ← getattr any_class Obj.y self;
  h ← get;
  mret (map_is_in_fov (fov_map h) sx sy).

Definition not_in_sight (self : ref) : M bool :=
  b ← in_sight self; mret (negb b).

Definition healthy (self : ref) : M bool :=
  hp ← getattr is_CombatEntity Obj.hp self;
  mhp ← getattr is_CombatEntity Obj.max_hp self;
  match PyFloat.of_int mhp with
  | None => raise OverflowError
  | Some f => mret (PyFloat.int_ge hp (PyFloat.mul PyFloat.c0_4 f))
  end.

Definition in_sight_and_healthy (self : ref) : M bool :=
  b ← in_sight self;
  if (b : bool) then healthy self else mret false.

Definition in_sight_and_not_healthy (self : ref) : M bool :=
  roll ← randrange 101;
  morale ← getattr is_Mob Obj.morale self;
  if morale <? roll then
    b ← in_sight self;
    if (b : bool) then hb ← healthy self; mret (negb hb) else mret false
  else mret false.

(** The table built by [Mob.__init__]: row = current state, column =
    candidate state, cells are bound methods or [None]. *)
Definition state_chart (self : ref) : list (list (option (M bool))) :=
  [ [None; Some (in_sight_and_healthy self);
     Some (in_sight_and_not_healthy self)];
    [Some (not_in_sight self); None; Some (in_sight_and_not_healthy self)];
    [Some (not_in_sight self); Some (in_sight_and_healthy self); None] ].

(** lambda x1, x2, y1, y2: math.sqrt((x1 - x2)**2 + (y1 - y2)**2) *)
Definition linear_dist (x1 x2 y1 y2 : Z) : M PyFloat.float :=
  match PyFloat.of_int ((x1 - x2) ^ 2 + (y1 - y2) ^ 2) with
  | None => raise OverflowError
  | Some f => mret (PyFloat.sqrt f)
  end.

Definition possible_posn : list (Z * Z) := [(1, 0); (-1, 0); (0, 1); (0, -1)].

(** The condition of the first branch of the loop of [chase]: the
    neighbour at offset [posn] is the tile of the player and the game is
    not over. *)
Definition chase_condition (self : ref) (posn : Z * Z) : M bool :=
  sx ← getattr any_class Obj.x self;
  h ← get;
  px ← getattr any_class Obj.x (player h);
  if sx + posn.1 =? px then
    sy ← getattr any_class Obj.y self;
    h0 ← get;
    py ← getattr any_class Obj.y (player h0);
    if sy + posn.2 =? py then
      h1 ← get; mret (negb (game_state h1 =? DEAD))
    else mret false
  else mret false.

(** The body of that branch: the mob attacks the player. *)
Definition chase_attack (self : ref) : M unit :=
  h ← get;
  dmg ← deal_damage die self (player h);
  (if truthy dmg then
     nm ← getattr any_class Obj.name self;
     add_msg (nm +:+ " attacks you for " +:+ fmt_d dmg +:+ " damage!")
             (data.COLOURS "mob_atk_text")
   else
     nm ← getattr any_class Obj.name self;
     add_msg (nm +:+ " missed!") (data.COLOURS "mob_atk_text"));;
  h0 ← get;
  if game_state h0 =? DEAD then
    nm ← getattr any_class Obj.name self;
    add_msg (nm +:+ " killed you!") (data.COLOURS "player_die_text")
  else mret tt.

(** The loop of [chase], threading [min_dist_to_target] and
    [move_to_make]. *)
Fixpoint chase_loop (self target : ref) (posns : list (Z * Z))
    (min_dist_to_target : PyFloat.float) (move_to_make : option (Z * Z))
  : M (PyFloat.float * option (Z * Z)) :=
  match posns with
  | [] => mret (min_dist_to_target, move_to_make)
  | posn :: rest =>
      c ← chase_condition self posn;
      if (c : bool) then
        chase_attack self;;
        chase_loop self target rest min_dist_to_target move_to_make
      else
        sx0 ← getattr any_class Obj.x self;
        sy0 ← getattr any_class Obj.y self;
        h ← get;
        if negb (is_solid h (sx0 + posn.1) (sy0 + posn.2)) then
          sx1 ← getattr any_class Obj.x self;
          tx ← getattr any_class Obj.x target;
          sy1 ← getattr any_class Obj.y self;
          ty ← getattr any_class Obj.y target;
          new_dist ← linear_dist (sx1 + posn.1) tx (sy1 + posn.2) ty;
          if PyFloat.ltb new_dist min_dist_to_target then
            chase_loop self target rest new_dist (Some posn)
          else chase_loop self target rest min_dist_to_target move_to_make
        else chase_loop self target rest min_dist_to_target move_to_make
  end.

Definition chase (self target : ref) : M unit :=
  sx ← getattr any_class Obj.x self;
  tx ← getattr any_class Obj.x target;
  sy ← getattr any_class Obj.y self;
  ty ← getattr any_class Obj.y target;
  min_dist_to_target ← linear_dist sx tx sy ty;
  r ← chase_loop self target possible_posn min_dist_to_target None;
  match r.2 with
  | Some move_to_make => move self move_to_make.1 move_to_make.2
  | None => mret tt
  end.

Fixpoint run_loop (self target : ref) (posns : list (Z * Z))
    (max_dist_to_target : PyFloat.float) (move_to_make : option (Z * Z))
  : M (PyFloat.float * option (Z * Z)) :=
  match posns with
  | [] => mret (max_dist_to_target, move_to_make)
  | posn :: rest =>
      sx0 ← getattr any_class Obj.x self;
      sy0 ← getattr any_class Obj.y self;
      h ← get;
      if negb (is_solid h (sx0 + posn.1) (sy0 + posn.2)) then
        sx1 ← getattr any_class Obj.x self;
        tx ← getattr any_class Obj.x target;
        sy1 ← getattr any_class Obj.y self;
        ty ← getattr any_class Obj.y target;
        new_dist ← linear_dist (sx1 + posn.1) tx (sy1 + posn.2) ty;
        if PyFloat.ltb max_dist_to_target new_dist then
          run_loop self target rest new_dist (Some posn)
        else run_loop self target rest max_dist_to_target move_to_make
      else run_loop self target rest max_dist_to_target move_to_make
  end.

Definition run (self target : ref) : M unit :=
  sx ← getattr any_class Obj.x self;
  tx ← getattr any_class Obj.x target;
  sy ← getattr any_class Obj.y self;
  ty ← getattr any_class Obj.y target;
  max_dist_to_target ← linear_dist sx tx sy ty;
  r ← run_loop self target possible_posn max_dist_to_target None;
  match r.2 with
  | Some move_to_make => move self move_to_make.1 move_to_make.2
  | None => mret tt
  end.

(** The assignment [self.state = x] of [action_handler] and the message
    that goes with it. *)
Definition enter_state (self : ref) (x : Z) : M unit :=
  setattr (Obj.set_state x) self;;
  st ← getattr is_Mob Obj.state self;
  if st =? data.CHASE then
    nm ← getattr any_class Obj.name self;
    add_msg (nm +:+ " sees you!") (data.COLOURS "mob_behaviour_text")
  else
    st0 ← getattr is_Mob Obj.state self;
    if st0 =? data.RUN then
      nm ← getattr any_class Obj.name self;
      add_msg (nm +:+ " runs away!") (data.COLOURS "mob_behaviour_text")
    else mret tt.

(** The loop of [action_handler] over the row of the current state;
    [x] is the column counter. *)
Fixpoint transitions (self : ref) (row : list (option (M bool))) (x : Z)
  : M unit :=
  match row with
  | [] => mret tt
  | None :: rest => transitions self rest (x + 1)
  | Some check :: rest =>
      b ← check;
      (if (b : bool) then enter_state self x else mret tt);;
      transitions self rest (x + 1)
  end.

Definition action_handler (self : ref) : M unit :=
  st ← getattr is_Mob Obj.state self;
  if st =? DEAD then mret tt
  else
    st0 ← getattr is_Mob Obj.state self;
    row ← getitem (state_chart self) st0;
    transitions self row 0;;
    st1 ← getattr is_Mob Obj.state self;
    if st1 =? data.HOLD then mret tt
    else
      st2 ← getattr is_Mob Obj.state self;
      if st2 =? data.CHASE then
        h ← get; chase self (player h)
      else
        st3 ← getattr is_Mob Obj.state self;
        if st3 =? data.RUN then
          h ← get; run self (player h)
        else mret tt.

(** ** Concrete mob kinds *)

Definition Spider (x y : Z) : Obj.t :=
  Mob_init x y "Spider" "s" 200 15 50 data.HOLD.

Definition Skeleton (x y : Z) : Obj.t :=
  Mob_init x y "Skeleton" "S" 235 20 100 data.HOLD.

End WithEnv.

(** ** gui.py: the selection cursor of [SelectMenu] *)

Module SelectMenu.

(** The attributes that the arrow keys and [draw] work with. *)
Record t : Type := mk {
  options : list string;
  max_options : Z;
  max_selection : Z;
  slice_head : Z;
  slice_tail : Z;
  selection_index : Z
}.

(** What [SelectMenu.__init__] assigns to them. *)
Definition init (options : list string) (max_options : Z) : t :=
  let max_selection := Z.of_nat (length options) - 1 in
  mk options max_options max_selection
     0 (Z.min max_options (max_selection + 1)) 0.

(** The branch of [select] for [libt.KEY_UP]. *)
Definition key_up (m : t) : t :=
  if slice_head m <? selection_index m then
    mk (options m) (max_options m) (max_selection m)
       (slice_head m) (slice_tail m) (selection_index m - 1)
  else if 0 <? slice_head m then
    mk (options m) (max_options m) (max_selection m)
       (slice_head m - 1) (slice_tail m - 1) (selection_index m - 1)
  else m.

(** The branch of [select] for [libt.KEY_DOWN]. *)
Definition key_down (m : t) : t :=
  if selection_index m <? slice_tail m - 1 then
    mk (options m) (max_options m) (max_selection m)
       (slice_head m) (slice_tail m) (selection_index m + 1)
  else if slice_tail m <? max_selection m + 1 then
    mk (options m) (max_options m) (max_selection m)
       (slice_head m + 1) (slice_tail m + 1) (selection_index m + 1)
  else m.

(** Python's [l[a:b]]: negative bounds count from the end, and bounds
    beyond the list are cut off. *)
Definition slice {A : Type} (l : list A) (a b : Z) : list A :=
  let n := Z.of_nat (length l) in
  let bound i := Z.max 0 (Z.min n (if i <? 0 then i + n else i)) in
  take (Z.to_nat (bound b - bound a)) (drop (Z.to_nat (bound a)) l).

(** The options that [draw] prints, top row first, and the row that it
    prints in the colour of the selection. *)
Definition drawn_options (m : t) : list string :=
  slice (options m) (slice_head m) (slice_tail m).

Definition highlighted_row (m : t) : Z := selection_index m - slice_head m.

End SelectMenu.

(** * Specification vocabulary *)

(** ** Invariants

    [preserves I E m]: started in a state satisfying [I], the computation
    [m] ends in a state satisfying [I], whether it returns or raises, and
    raises only exceptions in [E]. *)
Definition preserves {A : Type} (I : handler → Prop) (E : exn → Prop)
    (m : M A) : Prop :=
  ∀ h, I h → I (m h).1 ∧ ∀ e, (m h).2 = Raise e → E e.

(** ** Facts about one object

    [obj_inv self F h]: the object behind [self] exists and satisfies
    [F]. *)
Definition obj_inv (self : ref) (F : Obj.t → Prop) (h : handler) : Prop :=
  ∃ o, heap h !! self = Some o ∧ F o.

(** What an invariant [I] must tolerate for the methods to preserve it:
    a write of attribute [f] on [r], a change of the message log, of the
    generator, of the game-state flag, a move to the front of the
    registry, and the writes of a death. *)
Definition stable_setattr (I : handler → Prop) (r : ref)
    (f : Obj.t → Obj.t) : Prop :=
  ∀ h o, I h → heap h !! r = Some o → I (set_heap (<[r := f o]> (heap h)) h).

Definition stable_log (I : handler → Prop) : Prop :=
  ∀ h v, I h → I (set_messages v h).

Definition stable_rng (I : handler → Prop) : Prop :=
  ∀ h v, I h → I (set_drawn v h).

Definition stable_flag (I : handler → Prop) : Prop :=
  ∀ h v, I h → I (set_game_state v h).

Definition stable_front (I : handler → Prop) : Prop :=
  ∀ h r l, I h → remove_first r (mobs h) = Some l → I (set_mobs (r :: l) h).

Definition stable_death (I : handler → Prop) (r : ref) : Prop :=
  (∀ v, stable_setattr I r (Obj.set_char v)) ∧
  (∀ v, stable_setattr I r (Obj.set_solid v)) ∧
  (∀ v, stable_setattr I r (Obj.set_state v)).

(** Every exception of Python is allowed by [E]. *)
Definition python_exn (E : exn → Prop) : Prop :=
  E ValueError ∧ E IndexError ∧ E AttributeError ∧ E OverflowError.

(** The registry holds [n] references. *)
Definition registry_size (n : nat) (h : handler) : Prop :=
  length (mobs h) = n.

(** The exceptions of Python, as opposed to the marker [Unfinished]. *)
Definition finished (e : exn) : Prop := e ≠ Unfinished.

(** [returns I Q m]: started in a state satisfying [I], a value returned
    by [m] satisfies [Q]. *)
Definition returns {A : Type} (I : handler → Prop) (Q : A → Prop)
    (m : M A) : Prop :=
  ∀ h h' a, I h → m h = (h', Return a) → Q a.

(** The answer of [healthy] for an object, as a function of its
    attributes. *)
Definition healthy_value (o : Obj.t) : result bool :=
  if is_CombatEntity (Obj.cls o) then
    match PyFloat.of_int (Obj.max_hp o) with
    | None => Raise OverflowError
    | Some f => Return (PyFloat.int_ge (Obj.hp o) (PyFloat.mul PyFloat.c0_4 f))
    end
  else Raise AttributeError.

(** The predicates of the transition table, the bound methods they stand
    for, and their answers as functions of the visibility map [m], of the
    attributes of the mob and of the morale roll. *)
Inductive predicate : Type :=
  | Not_in_sight
  | In_sight_and_healthy
  | In_sight_and_not_healthy.

Definition method `{Env} (p : predicate) (self : ref) : M bool :=
  match p with
  | Not_in_sight => not_in_sight self
  | In_sight_and_healthy => in_sight_and_healthy self
  | In_sight_and_not_healthy => in_sight_and_not_healthy self
  end.

Definition answer (p : predicate) (m : Z → Z → bool) (o : Obj.t) (roll : Z)
  : result bool :=
  match p with
  | Not_in_sight => Return (negb (map_is_in_fov m (Obj.x o) (Obj.y o)))
  | In_sight_and_healthy =>
      if map_is_in_fov m (Obj.x o) (Obj.y o) then healthy_value o
      else Return false
  | In_sight_and_not_healthy =>
      if is_Mob (Obj.cls o) then
        if Obj.morale o <? roll then
          if map_is_in_fov m (Obj.x o) (Obj.y o) then
            match healthy_value o with
            | Return hb => Return (negb hb)
            | Raise e => Raise e
            end
          else Return false
        else Return false
      else Raise AttributeError
  end.

(** The transition table, by predicate. *)
Definition chart : list (list (option predicate)) :=
  [ [None; Some In_sight_and_healthy; Some In_sight_and_not_healthy];
    [Some Not_in_sight; None; Some In_sight_and_not_healthy];
    [Some Not_in_sight; Some In_sight_and_healthy; None] ].

(** The cells of a row that hold a predicate, with their columns. *)
Fixpoint cells {A : Type} (x : Z) (row : list (option A)) : list (Z * A) :=
  match row with
  | [] => []
  | None :: rest => cells (x + 1) rest
  | Some a :: rest => (x, a) :: cells (x + 1) rest
  end.

(** The roll that the next call of [randrange(101)] answers. *)
Definition next_roll (h : handler) : Z := draws h (drawn h) `mod` 101.

(** The mob [self] is not the player and satisfies [F], which may
    mention the field of view. *)
Definition mob_inv (self : ref) (F : (Z → Z → bool) → Obj.t → Prop)
    (h : handler) : Prop :=
  player h ≠ self ∧ obj_inv self (F (fov_map h)) h.

(** The mob is in state [s]. *)
Definition in_state (s : Z) (o : Obj.t) : Prop :=
  Obj.cls o = cMob ∧ Obj.state o = s.

(** Hit points within bounds, for an instance of [CombatEntity] created
    with [m] hit points. *)
Definition hp_bounded (m : Z) (o : Obj.t) : Prop :=
  is_CombatEntity (Obj.cls o) = true ∧ 0 ≤ Obj.hp o ≤ Obj.max_hp o ∧
  Obj.max_hp o = m.

(** The state after a series of [take_damage] calls on [self]; a caller
    may catch what a call raises and go on. *)
Definition take_damages `{Env} (self : ref) (ds : list Z) (h : handler)
  : handler :=
  fold_left (λ h d, exec (take_damage die self d) h) ds h.

(** Calls that a mob may receive once it is dead. *)
Inductive call : Type :=
  | Call_action_handler
  | Call_take_damage (amount : Z).

Definition nonneg_call (c : call) : Prop :=
  match c with
  | Call_action_handler => True
  | Call_take_damage amount => 0 ≤ amount
  end.

Definition do_call `{Env} (self : ref) (c : call) : M unit :=
  match c with
  | Call_action_handler => action_handler self
  | Call_take_damage amount => take_damage die self amount
  end.

Fixpoint do_calls `{Env} (self : ref) (cs : list call) : M unit :=
  match cs with
  | [] => mret tt
  | c :: cs' => do_call self c;; do_calls self cs'
  end.

(** What the claim on dead entities asks of [take_damage]: the outcome
    does not depend on the [die] method, which is then not invoked. *)
Definition die_not_invoked (self : ref) (amount : Z) (h : handler) : Prop :=
  ∀ hook : ref → M unit,
    take_damage hook self amount h = take_damage CombatEntity_die self amount h.

(** A dead mob at ([x0], [y0]) that is still in the registry. *)
Definition dead_mob (self : ref) (x0 y0 : Z) (DEAD : Z) (h : handler) : Prop :=
  ∃ o, heap h !! self = Some o ∧ Obj.cls o = cMob ∧ Obj.state o = DEAD ∧
       Obj.hp o = 0 ∧ Obj.x o = x0 ∧ Obj.y o = y0 ∧ self ∈ mobs h.

(** A mob in state [s] that is healthy. *)
Definition healthy_in_state (s : Z) (m : Z → Z → bool) (o : Obj.t) : Prop :=
  in_state s o ∧ healthy_value o = Return true.

(** A mob in state [s] that stands at ([x0], [y0]), out of sight. *)
Definition unseen_in_state (s x0 y0 : Z) (m : Z → Z → bool) (o : Obj.t)
  : Prop :=
  in_state s o ∧ Obj.x o = x0 ∧ Obj.y o = y0 ∧ map_is_in_fov m x0 y0 = false.

(** The visibility map is [m] and the object behind [self] has the
    attributes of [o], its state apart. *)
Definition facts_inv (self : ref) (m : Z → Z → bool) (o : Obj.t)
    (h : handler) : Prop :=
  fov_map h = m ∧
  obj_inv self (λ o', Obj.set_state 0 o' = Obj.set_state 0 o) h.

(** The row of [state_chart self] that a row of [chart] stands for. *)
Definition bound_row `{Env} (self : ref) (row : list (option predicate))
  : list (option (M bool)) :=
  map (λ cell, match cell with
               | Some p => Some (method p self)
               | None => None
               end) row.

(** What [enter_state] does after the assignment: nothing, one message,
    or an exception. *)
Inductive announcement `{Env} : M unit → Prop :=
  | announce_nothing : announcement (mret tt)
  | announce_message text colour : announcement (add_msg text colour)
  | announce_raise e : announcement (raise e).

(** ** Vocabulary of [chase] and [run] *)

(** The square of the Euclidean distance between two tiles. *)
Definition dist2 (x1 y1 x2 y2 : Z) : Z := (x1 - x2) ^ 2 + (y1 - y2) ^ 2.

(** The double that [linear_dist] computes for a squared distance. *)
Definition sqrt_double (n : Z) : option PyFloat.float :=
  PyFloat.sqrt <$> PyFloat.of_int n.

(** On [a] and [b] the doubles compare as the distances do. *)
Definition exact_pair (a b : Z) : bool :=
  match sqrt_double a, sqrt_double b with
  | Some fa, Some fb => Bool.eqb (PyFloat.ltb fa fb) (a <? b)
  | _, _ => false
  end.

(** The doubles of the squared distances [ns] are finite and compare as
    the distances do: rounding merges no two of them. *)
Definition doubles_exact (ns : list Z) : bool :=
  forallb (λ a, forallb (exact_pair a) ns) ns.

(** The neighbour at offset [p] of ([sx], [sy]) is not blocked. *)
Definition unblocked `{Env} (h : handler) (sx sy : Z) (p : Z * Z) : Prop :=
  is_solid h (sx + p.1) (sy + p.2) = false.

#[global] Instance unblocked_dec `{Env} h sx sy p :
  Decision (unblocked h sx sy p).
Proof. unfold unblocked. apply _. Defined.

(** Some neighbour of the mob [so] is the tile of the player [po] while
    the game is not over: [chase] attacks. *)
Definition player_in_reach `{Env} (h : handler) (so po : Obj.t) : bool :=
  existsb (λ p : Z * Z,
             (Obj.x so + p.1 =? Obj.x po) && (Obj.y so + p.2 =? Obj.y po)
             && negb (game_state h =? DEAD))
          possible_posn.

(** The choice the spec describes for [chase]: among the offers, one
    strictly closer than the current distance [D], at the least distance,
    and the first of those in the order of the offers.  For [run]:
    strictly farther, at the greatest distance, the first of those. *)
Definition closest (offers : list (Z * Z)) (dist : Z * Z → Z) (D : Z)
    (p : Z * Z) : Prop :=
  ∃ before after,
    offers = before ++ (p :: after) ∧ dist p < D ∧
    (∀ q, q ∈ before → dist p < dist q) ∧
    (∀ q, q ∈ after → dist p ≤ dist q).

Definition farthest (offers : list (Z * Z)) (dist : Z * Z → Z) (D : Z)
    (p : Z * Z) : Prop :=
  ∃ before after,
    offers = before ++ (p :: after) ∧ D < dist p ∧
    (∀ q, q ∈ before → dist q < dist p) ∧
    (∀ q, q ∈ after → dist q ≤ dist p).

(** The loop of [chase] on exact keys: keep the first strict minimum. *)
Fixpoint scan (key : Z * Z → Z) (offers : list (Z * Z)) (k : Z)
    (mv : option (Z * Z)) : Z * option (Z * Z) :=
  match offers with
  | [] => (k, mv)
  | p :: rest =>
      if key p <? k then scan key rest (key p) (Some p)
      else scan key rest k mv
  end.

(** The handler after the mob [o] behind [self] has stepped by [p]. *)
Definition step_to (self : ref) (o : Obj.t) (p : Z * Z) (h : handler)
  : handler :=
  set_heap (<[self := Obj.set_y (Obj.y o + p.2)
                        (Obj.set_x (Obj.x o + p.1) o)]> (heap h)) h.

Definition step_or_stay (self : ref) (o : Obj.t) (mv : option (Z * Z))
    (h : handler) : handler :=
  match mv with
  | Some p => step_to self o p h
  | None => h
  end.

(** ** Vocabulary of the message log *)

(** The last [n] elements of a list. *)
Definition keep_last {A : Type} (n : nat) (l : list A) : list A :=
  drop (length l - n) l.

(** The entries that [add_msg] appends for the wrapped lines of a
    message. *)
Definition log_lines (lines : list string) (colour : data.colour)
  : list (string * data.colour) :=
  map (λ line, (line, colour)) lines.

(** ** Vocabulary of the scan of the registry *)

(** A loop over a list that nothing changes. *)
Fixpoint for_each (l : list ref) (body : ref → M unit) : M unit :=
  match l with
  | [] => mret tt
  | r :: rest => body r;; for_each rest body
  end.

(** While the body runs on the mob read at index [i]: the registry has
    [n] entries, those after index [i] are [t], and the mob occurs at
    index [i] or before. *)
Definition scan_inv (i : nat) (t : list ref) (n : nat) (mob : ref)
    (h : handler) : Prop :=
  drop (S i) (mobs h) = t ∧ length (mobs h) = n ∧
  ∃ j, (j ≤ i)%nat ∧ mobs h !! j = Some mob.

(** The invariant tolerates that [r] moves to the front of the
    registry. *)
Definition stable_front_of (I : handler → Prop) (r : ref) : Prop :=
  ∀ h l, I h → remove_first r (mobs h) = Some l → I (set_mobs (r :: l) h).

(** The mob [mob] stands on the tile ([x], [y]) and is solid. *)
Definition blocks (h : handler) (x y : Z) (mob : ref) : bool :=
  match heap h !! mob with
  | Some o => (Obj.x o =? x) && (Obj.y o =? y) && Obj.solid o
  | None => false
  end.

(** ** Vocabulary of [healthy] *)

(** The least number of hit points that [healthy] accepts for [m]
    maximal hit points, read off the double [0.4 * m]: the least integer
    that is not below the double. *)
Definition healthy_threshold (m : Z) : option Z :=
  match PyFloat.of_int m with
  | Some f =>
      match PyFloat.mul PyFloat.c0_4 f with
      | S754_zero _ => Some 0
      | S754_finite false mm e =>
          Some (if 0 <=? e then Z.pos mm * 2 ^ e
                else (Z.pos mm + 2 ^ (- e) - 1) / 2 ^ (- e))
      | _ => None
      end
  | None => None
  end.

(** The threshold is the one of exact arithmetic, the least integer
    that is not below two fifths of [m]. *)
Definition threshold_exact (m : Z) : bool :=
  match healthy_threshold m with
  | Some t => t =? (2 * m + 4) / 5
  | None => false
  end.

(** [threshold_exact] holds from [lo] on, for [n] values. *)
Fixpoint thresholds_exact (n : nat) (lo : Z) : bool :=
  match n with
  | O => true
  | S n' => threshold_exact lo && thresholds_exact n' (lo + 1)
  end.

(** ** Vocabulary of the distances of [chase] and [run] *)

(** Exponent and mantissa of a positive finite double; on canonical
    doubles their lexicographic order is the order of the values. *)
Definition rank (f : PyFloat.float) : option (Z * positive) :=
  match f with
  | S754_finite false m e => Some (e, m)
  | _ => None
  end.

Definition rank_lt (a b : Z * positive) : bool :=
  (a.1 <? b.1) || ((a.1 =? b.1) && (a.2 <? b.2)%positive).

(** The doubles of [lo + 1], ..., [lo + n] are positive, finite and
    strictly increasing, [r] being the rank of the double of [lo]. *)
Fixpoint ranks_increase (n : nat) (lo : Z) (r : Z * positive) : bool :=
  match n with
  | O => true
  | S n' =>
      match sqrt_double (lo + 1) ≫= rank with
      | Some r' => rank_lt r r' && ranks_increase n' (lo + 1) r'
      | None => false
      end
  end.

(** The doubles of [lo], ..., [lo + n] are positive, finite and strictly
    increasing. *)
Definition doubles_increase (n : nat) (lo : Z) : bool :=
  match sqrt_double lo ≫= rank with
  | Some r => ranks_increase n lo r
  | None => false
  end.

(** ** Vocabulary of the state machine *)

(** The state in which [action_handler] leaves a live mob found in state
    [s]: [seen] is the visibility of its tile, [fit] the answer of
    [healthy], and [wavers] tells that the morale roll exceeds the
    morale. *)
Definition next_state (s : Z) (seen fit wavers : bool) : Z :=
  if s =? data.HOLD then
    if seen && fit then data.CHASE
    else if wavers && seen && negb fit then data.RUN else data.HOLD
  else if s =? data.CHASE then
    if negb seen then data.HOLD
    else if wavers && negb fit then data.RUN else data.CHASE
  else
    if negb seen then data.HOLD
    else if fit then data.CHASE else data.RUN.

(** The attributes of an object, its state and its position apart. *)
Definition at_rest (o : Obj.t) : Obj.t :=
  Obj.set_state 0 (Obj.set_y 0 (Obj.set_x 0 o)).

(** The mob is in state [s] and is [o] up to its state and position. *)
Definition moved_in_state (s : Z) (o : Obj.t) (m : Z → Z → bool)
    (o' : Obj.t) : Prop :=
  Obj.state o' = s ∧ at_rest o' = at_rest o.

(** The mob is [o] in state [s], on a tile out of sight. *)
Definition unseen_as (s : Z) (o : Obj.t) (m : Z → Z → bool) (o' : Obj.t)
  : Prop :=
  o' = Obj.set_state s o ∧ map_is_in_fov m (Obj.x o) (Obj.y o) = false.

(** What [action_handler] does once the loop over the row is over. *)
Definition behave `{Env} (self : ref) : M unit :=
  st1 ← getattr is_Mob Obj.state self;
  if st1 =? data.HOLD then mret tt
  else
    st2 ← getattr is_Mob Obj.state self;
    if st2 =? data.CHASE then h ← get; chase self (player h)
    else
      st3 ← getattr is_Mob Obj.state self;
      if st3 =? data.RUN then h ← get; run self (player h)
      else mret tt.

(** ** Vocabulary of the end of the game *)

(** The game is over, and nothing but the mob [self], the message log
    and the generator differs from [h0]. *)
Definition game_over_since `{Env} (self : ref) (h0 h : handler) : Prop :=
  game_state h = DEAD ∧ player h = player h0 ∧ mobs h = mobs h0 ∧
  fov_map h = fov_map h0 ∧ fov_refresh h = fov_refresh h0 ∧
  ∀ r, r ≠ self → heap h !! r = heap h0 !! r.

(** ** Vocabulary of the menus *)

Inductive arrow : Type := KEY_UP | KEY_DOWN.

Definition press (m : SelectMenu.t) (k : arrow) : SelectMenu.t :=
  match k with
  | KEY_UP => SelectMenu.key_up m
  | KEY_DOWN => SelectMenu.key_down m
  end.

(** The window of the menu shows [min max_options n] of the [n] options
    and the selection is inside the window. *)
Definition window_ok (m : SelectMenu.t) : Prop :=
  SelectMenu.max_selection m =
    Z.of_nat (length (SelectMenu.options m)) - 1 ∧
  0 ≤ SelectMenu.slice_head m ≤ SelectMenu.selection_index m ∧
  SelectMenu.selection_index m < SelectMenu.slice_tail m ∧
  SelectMenu.slice_tail m ≤ Z.of_nat (length (SelectMenu.options m)) ∧
  SelectMenu.slice_tail m - SelectMenu.slice_head m =
    Z.min (SelectMenu.max_options m) (Z.of_nat (length (SelectMenu.options m))).

(** ** Vocabulary of an attack of a mob *)

(** The player is [pr]; the mob and the player stand on ([sx], [sy])
    and ([px], [py]). *)
Definition standing (self pr : ref) (sx sy px py : Z) (h : handler) : Prop :=
  player h = pr ∧
  obj_inv self (λ o, Obj.x o = sx ∧ Obj.y o = sy) h ∧
  obj_inv pr (λ o, Obj.x o = px ∧ Obj.y o = py) h.

(** The double of the distance between neighbours. *)
Definition one_tile : PyFloat.float := S754_finite false 4503599627370496 (-52).

(** ** Vocabulary of a turn *)

(** The attributes that no method assigns once an object is created. *)
Definition kind (o : Obj.t) : class * data.colour * Z * Z * Z :=
  (Obj.cls o, Obj.colour o, Obj.max_hp o, Obj.atk o, Obj.morale o).

(** [f] assigns none of them. *)
Definition keeps_kind (f : Obj.t → Obj.t) : Prop :=
  ∀ o, kind (f o) = kind o.

(** From [h0] to [h]: the same player and field of view, the same
    objects with their kinds, and the registry in another order. *)
Definition same_entities (h0 h : handler) : Prop :=
  player h = player h0 ∧ fov_map h = fov_map h0 ∧ mobs h ≡ₚ mobs h0 ∧
  ∀ r, kind <$> heap h !! r = kind <$> heap h0 !! r.

(** ** Sample worlds *)

(** A world whose tiles are all floor and that ignores entities. *)
Definition open_floor : handler → Z → Z → bool := λ _ _ _, false.

(** A world whose tiles are all floor and where solid entities block. *)
Definition solid_entities (h : handler) (x y : Z) : bool :=
  existsb (λ r, match heap h !! r with
                | Some o => Obj.solid o && (Obj.x o =? x) && (Obj.y o =? y)
                | None => false
                end) (player h :: mobs h).

Definition sample_env : Env :=
  mkEnv 3 solid_entities (λ msg, [msg]) 20.

Definition floor_env : Env :=
  mkEnv 3 open_floor (λ msg, [msg]) 20.

(** The player (reference 0) at (5, 5), a mob (reference 1) and a
    skeleton (reference 2) at (9, 9), registered in the order skeleton,
    mob; the game state 0 is not [DEAD]; the generator answers 7, 8, 9
    and so on. *)
Definition sample_with (mob : Obj.t) (fov : Z → Z → bool) : handler :=
  mkHandler
    (<[0%nat := Player_init 5 5 "Hero"]>
       (<[1%nat := mob]> (<[2%nat := Skeleton 9 9]> ∅)))
    0%nat [2%nat; 1%nat] 0 false fov [] (λ n, 7 + Z.of_nat n) 0.

(** A spider next to the player, every tile in the field of view. *)
Definition sample_handler : handler := sample_with (Spider 6 5) (λ _ _, true).

(** The same with a spider that has 5 hit points left. *)
Definition wounded_handler : handler :=
  sample_with (Obj.set_hp 5 (Spider 6 5)) (λ _ _, true).

(** A spider three tiles east of the player. *)
Definition far_handler : handler := sample_with (Spider 8 5) (λ _ _, true).

(** A spider in state CHASE, no tile in the field of view. *)
Definition hidden_handler : handler :=
  sample_with (Obj.set_state data.CHASE (Spider 8 5)) (λ _ _, false).

(** The spider has been killed, then the skeleton. *)
Definition grave_handler : handler :=
  exec (take_damage (die (env := sample_env)) 2%nat 300)
    (exec (take_damage (die (env := sample_env)) 1%nat 250) sample_handler).

Definition dead_spider : Obj.t :=
  Obj.mk cMob 6 5 "Spider" "X" (data.COLOURS "mob") false 0 200 15 50 3.

(** The sample world with a message log of [n] lines. *)
Definition log_env (n : Z) : Env :=
  mkEnv 3 solid_entities (λ msg, [msg]) n.

(** The spider is missing from the registry. *)
Definition stray_handler : handler := set_mobs [2%nat] sample_handler.

(** A mob with a negative attack strength next to the player. *)
Definition imp_handler : handler :=
  sample_with (Mob_init 6 5 "Imp" "i" 10 (-1) 50 data.HOLD) (λ _ _, true).

(** A spider whose state is no state of the table. *)
Definition lost_handler : handler :=
  sample_with (Obj.set_state 7 (Spider 6 5)) (λ _ _, true).

(** The game is over. *)
Definition over_handler : handler := set_game_state 3 sample_handler.

(** * Properties *)

Section Properties.

Context {env : Env}.

(** ** Running computations *)

Lemma bind_Return {A B : Type} (m : M A) (f : A → M B) h h' a :
  m h = (h', Return a) → (m ≫= f) h = f a h'.
Proof. intros Hm. unfold mbind, M_bind. by rewrite Hm. Qed.

Lemma bind_Raise {A B : Type} (m : M A) (f : A → M B) h h' e :
  m h = (h', Raise e) → (m ≫= f) h = (h', Raise e).
Proof. intros Hm. unfold mbind, M_bind. by rewrite Hm. Qed.

Lemma bind_assoc {A B C : Type} (m : M A) (f : A → M B) (g : B → M C) h :
  ((m ≫= f) ≫= g) h = (m ≫= λ a, f a ≫= g) h.
Proof.
  unfold mbind, M_bind. destruct (m h) as [h1 [a|e]]; [| done].
  by destruct (f a h1) as [h2 [b|e]].
Qed.

Lemma get_obj_Return r h o :
  heap h !! r = Some o → get_obj r h = (h, Return o).
Proof. intros Ho. unfold get_obj. by rewrite Ho. Qed.

Lemma getattr_Return {A : Type} (has : class → bool) (f : Obj.t → A) r h o :
  heap h !! r = Some o → has (Obj.cls o) = true →
  getattr has f r h = (h, Return (f o)).
Proof.
  intros Ho Hc. unfold getattr.
  rewrite (bind_Return _ _ _ _ _ (get_obj_Return _ _ _ Ho)).
  by rewrite Hc.
Qed.

Lemma setattr_Return (f : Obj.t → Obj.t) r h o :
  heap h !! r = Some o →
  setattr f r h = (set_heap (<[r := f o]> (heap h)) h, Return tt).
Proof.
  intros Ho. unfold setattr.
  by rewrite (bind_Return _ _ _ _ _ (get_obj_Return _ _ _ Ho)).
Qed.

Lemma get_Return h : get h = (h, Return h).
Proof. reflexivity. Qed.

Lemma modify_Return f h : modify f h = (f h, Return tt).
Proof. reflexivity. Qed.

(** An attribute written with the value it already has. *)
Lemma set_heap_id h : set_heap (heap h) h = h.
Proof. by destruct h. Qed.

Lemma set_hp_id o : Obj.set_hp (Obj.hp o) o = o.
Proof. by destruct o. Qed.


(** ** Invariants *)

Section Preserves.

Context (I : handler → Prop) (E : exn → Prop).

Lemma pres_ret {A : Type} (a : A) : preserves I E (mret a).
Proof. intros h Ih. split; [done | intros e He; discriminate He]. Qed.

Lemma pres_raise {A : Type} (e : exn) : E e → preserves I E (@raise A e).
Proof. intros Ee h Ih. split; [done | intros e' He; simpl in He; by simplify_eq]. Qed.

Lemma pres_bind {A B : Type} (m : M A) (f : A → M B) :
  preserves I E m → (∀ a, preserves I E (f a)) → preserves I E (m ≫= f).
Proof.
  intros Hm Hf h Ih. destruct (Hm h Ih) as [I1 E1].
  unfold mbind, M_bind. destruct (m h) as [h1 [a|e]]; simpl in *.
  - by apply Hf.
  - split; [done | intros e' He; simplify_eq; by apply E1].
Qed.

Lemma pres_get_bind {B : Type} (f : handler → M B) :
  (∀ h0, I h0 → preserves I E (f h0)) → preserves I E (get ≫= f).
Proof. intros Hf h Ih. by apply (Hf h Ih). Qed.

Lemma pres_get : preserves I E get.
Proof. intros h Ih. split; [done | intros e He; discriminate He]. Qed.

Lemma pres_modify (f : handler → handler) :
  (∀ h, I h → I (f h)) → preserves I E (modify f).
Proof. intros Hf h Ih. split; [by apply Hf | intros e He; discriminate He]. Qed.

Lemma pres_get_obj r : E AttributeError → preserves I E (get_obj r).
Proof.
  intros Ee h Ih. unfold get_obj. destruct (heap h !! r); simpl.
  - split; [done | intros e He; discriminate He].
  - split; [done | intros e He; simpl in He; by simplify_eq].
Qed.

Lemma pres_getattr {A : Type} has (f : Obj.t → A) r :
  E AttributeError → preserves I E (getattr has f r).
Proof.
  intros Ee. unfold getattr. apply pres_bind; [by apply pres_get_obj |].
  intros o. destruct (has (Obj.cls o)); [apply pres_ret | by apply pres_raise].
Qed.

Lemma pres_hasattr_hp r : E AttributeError → preserves I E (hasattr_hp r).
Proof.
  intros Ee. unfold hasattr_hp. apply pres_bind; [by apply pres_get_obj |].
  intros o. apply pres_ret.
Qed.

Lemma pres_setattr (f : Obj.t → Obj.t) r :
  E AttributeError →
  (∀ h o, I h → heap h !! r = Some o →
          I (set_heap (<[r := f o]> (heap h)) h)) →
  preserves I E (setattr f r).
Proof.
  intros Ee Hf h Ih. unfold setattr, mbind, M_bind, get_obj.
  destruct (heap h !! r) as [o|] eqn:Ho; simpl.
  - split; [by apply Hf | intros e He; discriminate He].
  - split; [done | intros e He; simpl in He; by simplify_eq].
Qed.

Lemma pres_randrange n :
  E ValueError → (∀ h, I h → I (set_drawn (S (drawn h)) h)) →
  preserves I E (randrange n).
Proof.
  intros Ee Hf h Ih. unfold randrange. destruct (n <=? 0); simpl.
  - split; [done | intros e He; simpl in He; by simplify_eq].
  - split; [by apply Hf | intros e He; discriminate He].
Qed.

Lemma pres_getitem {A : Type} (l : list A) i :
  E IndexError → preserves I E (getitem l i).
Proof.
  intros Ee. unfold getitem.
  destruct (_ && _); [| by apply pres_raise].
  destruct (l !! _); [apply pres_ret | by apply pres_raise].
Qed.

End Preserves.

(** ** Death

    [Player.die], [Mob.send_to_back] and [Mob.die] computed on a live
    reference. *)

Lemma Player_die_first self h o :
  heap h !! self = Some o → game_state h ≠ DEAD →
  Player_die self h =
    (set_heap (<[self := Obj.set_char "%" o]> (heap h))
              (set_game_state DEAD h), Return tt).
Proof.
  intros Ho Hg. unfold Player_die.
  rewrite (bind_Return _ _ _ _ _ (get_Return h)).
  apply Z.eqb_neq in Hg. rewrite Hg. simpl.
  rewrite (bind_Return _ _ _ _ _ (modify_Return _ h)).
  by rewrite (setattr_Return _ self _ o).
Qed.

Lemma Player_die_again self h :
  game_state h = DEAD → Player_die self h = (h, Return tt).
Proof.
  intros Hg. unfold Player_die.
  rewrite (bind_Return _ _ _ _ _ (get_Return h)).
  apply Z.eqb_eq in Hg. by rewrite Hg.
Qed.

Lemma remove_first_split v l :
  v ∈ l →
  ∃ before after, l = before ++ (v :: after) ∧ (v ∉ before) ∧
                  remove_first v l = Some (before ++ after).
Proof.
  induction l as [|a l IH]; intros Hin.
  - by apply elem_of_nil in Hin.
  - simpl. destruct (decide (a = v)) as [->|Hne].
    + exists [], l. split_and!; [done | apply not_elem_of_nil | done].
    + apply elem_of_cons in Hin as [->|Hin]; [done|].
      destruct (IH Hin) as (before & after & -> & Hnb & Hr).
      exists (a :: before), after. rewrite Hr. split_and!; [done | | done].
      intros [->|?]%elem_of_cons; done.
Qed.

Lemma remove_first_None v l : v ∉ l → remove_first v l = None.
Proof.
  induction l as [|a l IH]; intros Hin; simpl; [done|].
  apply not_elem_of_cons in Hin as [Hne Hin].
  destruct (decide (a = v)); [done|]. by rewrite IH.
Qed.

Lemma send_to_back_Return self h before after :
  mobs h = before ++ (self :: after) → self ∉ before →
  send_to_back self h = (set_mobs (self :: before ++ after) h, Return tt).
Proof.
  intros Hm Hnb. unfold send_to_back.
  rewrite (bind_Return _ _ _ _ _ (get_Return h)).
  destruct (remove_first_split self (mobs h)) as (b & a & Hm' & Hnb' & Hr).
  { rewrite Hm. apply elem_of_app. right. apply elem_of_cons. by left. }
  assert (b = before ∧ a = after) as [-> ->].
  { rewrite Hm in Hm'. clear -Hm' Hnb Hnb'.
    revert b Hm' Hnb'. induction before as [|c before IH]; intros b Hm' Hnb'.
    - destruct b as [|c b]; simpl in *; [by simplify_eq|].
      simplify_eq. exfalso. apply Hnb'. apply elem_of_cons. by left.
    - destruct b as [|c' b]; simpl in *; simplify_eq.
      + exfalso. apply Hnb. apply elem_of_cons. by left.
      + destruct (IH (λ Hin, Hnb (proj2 (elem_of_cons _ _ _) (or_intror Hin))) b)
          as [-> ->];
          [done | intros Hin; apply Hnb'; apply elem_of_cons; by right | done]. }
  rewrite Hr. reflexivity.
Qed.

Lemma Mob_die_Return self h o before after :
  heap h !! self = Some o →
  mobs h = before ++ (self :: after) → self ∉ before →
  Mob_die self h =
    (set_mobs (self :: before ++ after)
       (set_heap (<[self := Obj.set_state DEAD
                     (Obj.set_solid false (Obj.set_char "X" o))]> (heap h)) h),
     Return tt).
Proof.
  intros Ho Hm Hnb. unfold Mob_die.
  rewrite (bind_Return _ _ _ _ _ (setattr_Return _ self h o Ho)).
  erewrite bind_Return; last first.
  { apply setattr_Return. simpl. apply lookup_insert_eq. }
  erewrite bind_Return; last first.
  { apply setattr_Return. simpl. apply lookup_insert_eq. }
  erewrite send_to_back_Return; [| simpl; exact Hm | done].
  simpl. by rewrite !insert_insert_eq.
Qed.

Lemma die_Player self h o :
  heap h !! self = Some o → Obj.cls o = cPlayer →
  die self h = Player_die self h.
Proof.
  intros Ho Hc. unfold die.
  rewrite (bind_Return _ _ _ _ _ (get_obj_Return _ _ _ Ho)). by rewrite Hc.
Qed.

Lemma die_Mob self h o :
  heap h !! self = Some o → Obj.cls o = cMob → die self h = Mob_die self h.
Proof.
  intros Ho Hc. unfold die.
  rewrite (bind_Return _ _ _ _ _ (get_obj_Return _ _ _ Ho)). by rewrite Hc.
Qed.

Lemma die_CombatEntity self h o :
  heap h !! self = Some o → Obj.cls o = cCombatEntity →
  die self h = (h, Return tt).
Proof.
  intros Ho Hc. unfold die.
  rewrite (bind_Return _ _ _ _ _ (get_obj_Return _ _ _ Ho)). by rewrite Hc.
Qed.

(** ** Damage *)

Lemma take_damage_lethal hook self d h o :
  heap h !! self = Some o → is_CombatEntity (Obj.cls o) = true →
  Obj.hp o ≤ d →
  take_damage hook self d h =
    hook self (set_heap (<[self := Obj.set_hp 0 o]> (heap h)) h).
Proof.
  intros Ho Hc Hd. unfold take_damage.
  rewrite (bind_Return _ _ _ _ _ (getattr_Return _ _ _ _ _ Ho Hc)).
  assert ((Obj.hp o - d <=? 0) = true) as -> by (apply Z.leb_le; lia).
  by rewrite (bind_Return _ _ _ _ _ (setattr_Return _ _ _ _ Ho)).
Qed.

Lemma take_damage_wound hook self d h o :
  heap h !! self = Some o → is_CombatEntity (Obj.cls o) = true →
  d < Obj.hp o →
  take_damage hook self d h =
    (set_heap (<[self := Obj.set_hp (Obj.hp o - d) o]> (heap h)) h, Return tt).
Proof.
  intros Ho Hc Hd. unfold take_damage.
  rewrite (bind_Return _ _ _ _ _ (getattr_Return _ _ _ _ _ Ho Hc)).
  assert ((Obj.hp o - d <=? 0) = false) as -> by (apply Z.leb_gt; lia).
  rewrite (bind_Return _ _ _ _ _ (getattr_Return _ _ _ _ _ Ho Hc)).
  by rewrite (setattr_Return _ _ _ _ Ho).
Qed.


(** ** Facts about one object *)

Lemma obj_inv_setattr self F f r h o :
  obj_inv self F h → heap h !! r = Some o →
  (r = self → F o → F (f o)) →
  obj_inv self F (set_heap (<[r := f o]> (heap h)) h).
Proof.
  intros (o' & Ho' & HF) Ho Hf. destruct (decide (r = self)) as [->|Hne].
  - exists (f o). simpl. rewrite lookup_insert_eq. split; [done|].
    apply Hf; [done|]. by simplify_eq.
  - exists o'. simpl. by rewrite lookup_insert_ne.
Qed.

Lemma obj_inv_same_heap self F h h' :
  heap h' = heap h → obj_inv self F h → obj_inv self F h'.
Proof. intros Hh (o & Ho & HF). exists o. by rewrite Hh. Qed.

Lemma remove_first_length v l l' :
  remove_first v l = Some l' → length l = S (length l').
Proof.
  revert l'. induction l as [|a l IH]; intros l' Hr; simpl in *; [done|].
  destruct (decide (a = v)); [by simplify_eq |].
  destruct (remove_first v l) as [l0|]; simpl in *; [| done].
  simplify_eq. simpl. by rewrite (IH l0).
Qed.

(** ** Stability of invariants under the methods *)

Section Stable.

Context (I : handler → Prop) (E : exn → Prop).
Hypothesis HE : python_exn E.

Lemma pres_send_to_back r :
  stable_front I → preserves I E (send_to_back r).
Proof.
  intros Hfront h Ih. unfold send_to_back.
  rewrite (bind_Return _ _ _ _ _ (get_Return h)).
  destruct (remove_first r (mobs h)) as [l|] eqn:Hr.
  - rewrite (bind_Return _ _ _ _ _ (modify_Return _ h)). simpl.
    split; [| intros e He; discriminate He].
    apply (Hfront h r l Ih Hr).
  - rewrite (bind_Raise _ _ _ _ _ (eq_refl : raise ValueError h = _)).
    split; [done | intros e He; simpl in He; simplify_eq; apply HE].
Qed.

Lemma pres_add_msg msg colour :
  stable_log I → preserves I E (add_msg msg colour).
Proof.
  intros Hlog. unfold add_msg.
  induction (wrap msg) as [|line rest IH]; simpl; [apply pres_ret|].
  apply pres_bind; [| by intros _].
  unfold append_line. apply pres_get_bind. intros h0 _.
  apply pres_bind.
  - destruct (_ =? _); [| apply pres_ret].
    destruct (messages h0); [apply pres_raise, HE |].
    apply pres_modify. intros h Ih. by apply Hlog.
  - intros _. apply pres_modify. intros h Ih. by apply Hlog.
Qed.

Lemma pres_move self dx dy :
  (∀ v, stable_setattr I self (Obj.set_x v)) →
  (∀ v, stable_setattr I self (Obj.set_y v)) →
  preserves I E (move self dx dy).
Proof.
  intros Hx Hy. unfold move.
  apply pres_bind; [apply pres_getattr, HE |]. intros sx.
  apply pres_bind; [apply pres_getattr, HE |]. intros sy.
  apply pres_get_bind. intros h0 _.
  destruct (negb _); [| apply pres_ret].
  apply pres_bind.
  - apply pres_bind; [apply pres_getattr, HE |]. intros x0.
    apply pres_setattr; [apply HE | apply Hx].
  - intros _. apply pres_bind; [apply pres_getattr, HE |]. intros y0.
    apply pres_setattr; [apply HE | apply Hy].
Qed.

Lemma pres_Player_die r :
  stable_flag I → (∀ v, stable_setattr I r (Obj.set_char v)) →
  preserves I E (Player_die r).
Proof.
  intros Hflag Hchar. unfold Player_die.
  apply pres_get_bind. intros h0 _.
  destruct (negb _); [| apply pres_ret].
  apply pres_bind; [apply pres_modify; intros h Ih; by apply Hflag |].
  intros _. apply pres_setattr; [apply HE | apply Hchar].
Qed.

Lemma pres_Mob_die r :
  stable_front I → stable_death I r → preserves I E (Mob_die r).
Proof.
  intros Hfront (Hchar & Hsolid & Hstate). unfold Mob_die.
  apply pres_bind; [apply pres_setattr; [apply HE | apply Hchar] |].
  intros _.
  apply pres_bind; [apply pres_setattr; [apply HE | apply Hsolid] |].
  intros _.
  apply pres_bind; [apply pres_setattr; [apply HE | apply Hstate] |].
  intros _. by apply pres_send_to_back.
Qed.

(** [die] leaves alone what the flag, the order of the registry, the
    glyph, the solidity and the state do not touch. *)
Lemma pres_die r :
  stable_flag I → stable_front I → stable_death I r →
  preserves I E (die r).
Proof.
  intros Hflag Hfront Hdeath. unfold die.
  apply pres_bind; [apply pres_get_obj, HE |]. intros o.
  destruct (Obj.cls o).
  - apply pres_raise, HE.
  - apply pres_ret.
  - apply pres_Player_die; [done | apply Hdeath].
  - by apply pres_Mob_die.
Qed.

Lemma pres_take_damage r d :
  stable_flag I → stable_front I → stable_death I r →
  (∀ v, stable_setattr I r (Obj.set_hp v)) →
  preserves I E (take_damage die r d).
Proof.
  intros Hflag Hfront Hdeath Hhp. unfold take_damage.
  apply pres_bind; [apply pres_getattr, HE |]. intros hp.
  destruct (_ <=? _).
  - apply pres_bind; [apply pres_setattr; [apply HE | apply Hhp] |].
    intros _. by apply pres_die.
  - apply pres_bind; [apply pres_getattr, HE |]. intros hp0.
    apply pres_setattr; [apply HE | apply Hhp].
Qed.

Lemma pres_deal_damage self target :
  stable_rng I → stable_flag I → stable_front I → stable_death I target →
  (∀ v, stable_setattr I target (Obj.set_hp v)) →
  preserves I E (deal_damage die self target).
Proof.
  intros Hrng Hflag Hfront Hdeath Hhp. unfold deal_damage.
  apply pres_bind; [apply pres_hasattr_hp, HE |]. intros has.
  destruct has; [| apply pres_ret].
  apply pres_bind; [apply pres_getattr, HE |]. intros atk.
  apply pres_bind.
  { apply pres_randrange; [apply HE | intros h Ih; by apply Hrng]. }
  intros dmg. apply pres_bind; [by apply pres_take_damage |].
  intros _. apply pres_ret.
Qed.

End Stable.

(** Invariants on one object are stable under what leaves its heap cell
    alone. *)
Lemma obj_inv_stable_log self F : stable_log (obj_inv self F).
Proof. intros h v Ih. by eapply obj_inv_same_heap. Qed.
Lemma obj_inv_stable_rng self F : stable_rng (obj_inv self F).
Proof. intros h v Ih. by eapply obj_inv_same_heap. Qed.
Lemma obj_inv_stable_flag self F : stable_flag (obj_inv self F).
Proof. intros h v Ih. by eapply obj_inv_same_heap. Qed.
Lemma obj_inv_stable_front self F : stable_front (obj_inv self F).
Proof. intros h r l Ih _. by eapply obj_inv_same_heap. Qed.

Lemma obj_inv_stable_setattr self F r f :
  (r = self → ∀ o, F o → F (f o)) → stable_setattr (obj_inv self F) r f.
Proof. intros Hf h o Ih Ho. apply obj_inv_setattr; auto. Qed.

Lemma obj_inv_stable_death self F r :
  (∀ o v, F o → F (Obj.set_char v o)) →
  (∀ o v, F o → F (Obj.set_solid v o)) →
  (∀ o v, F o → F (Obj.set_state v o)) →
  stable_death (obj_inv self F) r.
Proof.
  intros Hc Hs Ht. split_and!; intros v; apply obj_inv_stable_setattr; auto.
Qed.

Lemma python_exn_True : python_exn (λ _, True).
Proof. done. Qed.

Lemma pres_die_obj self F r :
  (∀ o v, F o → F (Obj.set_char v o)) →
  (∀ o v, F o → F (Obj.set_solid v o)) →
  (∀ o v, F o → F (Obj.set_state v o)) →
  preserves (obj_inv self F) (λ _, True) (die r).
Proof.
  intros Hc Hs Ht. apply pres_die.
  - apply python_exn_True.
  - apply obj_inv_stable_flag.
  - apply obj_inv_stable_front.
  - by apply obj_inv_stable_death.
Qed.

(** ** Claims on death *)

(** C9: [Player.die] is idempotent.  Called while the game-state flag is
    not [DEAD] it sets the flag to [DEAD] and the glyph to the death
    marker; in every case the flag is [DEAD] afterwards, and a call made
    while the flag is [DEAD] changes nothing at all. *)
Theorem C9_Player_die_idempotent self h o :
  heap h !! self = Some o →
  (game_state h ≠ DEAD →
     Player_die self h =
       (set_heap (<[self := Obj.set_char "%" o]> (heap h))
                 (set_game_state DEAD h), Return tt)) ∧
  (game_state h = DEAD → Player_die self h = (h, Return tt)) ∧
  game_state (exec (Player_die self) h) = DEAD ∧
  Player_die self (exec (Player_die self) h) =
    (exec (Player_die self) h, Return tt).
Proof.
  intros Ho.
  assert (game_state (exec (Player_die self) h) = DEAD) as Hflag.
  { unfold exec. destruct (decide (game_state h = DEAD)) as [Hd|Hd].
    - by rewrite Player_die_again.
    - by rewrite (Player_die_first _ _ o). }
  split_and!.
  - intros Hd. by apply Player_die_first.
  - apply Player_die_again.
  - done.
  - by apply Player_die_again.
Qed.

(** C8: [Mob.die] sets the glyph to the death marker, clears [solid],
    sets the state to [DEAD] and moves the mob to index 0 of the registry,
    the other mobs keeping their order.  A spider that takes 250 damage
    in one call ends with 0 hit points, dead, with a new glyph, not solid
    and first in the registry, whatever the size of the registry. *)
Theorem C8_Mob_die_moves_to_front self h o :
  heap h !! self = Some o → self ∈ mobs h →
  ∃ before after,
    mobs h = before ++ (self :: after) ∧ (self ∉ before) ∧
    Mob_die self h =
      (set_mobs (self :: before ++ after)
         (set_heap (<[self := Obj.set_state DEAD
                       (Obj.set_solid false (Obj.set_char "X" o))]>
                      (heap h)) h),
       Return tt) ∧
    (∀ x y, o = Spider x y →
       ∃ o', take_damage die self 250 h =
               (set_mobs (self :: before ++ after)
                         (set_heap (<[self := o']> (heap h)) h), Return tt) ∧
             Obj.hp o' = 0 ∧ Obj.state o' = DEAD ∧
             Obj.char o' = "X" ∧ Obj.char o' ≠ Obj.char o ∧
             Obj.solid o' = false).
Proof.
  intros Ho Hin.
  destruct (remove_first_split self (mobs h) Hin) as (before & after & Hm & Hnb & _).
  exists before, after. split_and!; [done | done | by apply Mob_die_Return |].
  intros x y ->.
  exists (Obj.set_state DEAD
            (Obj.set_solid false (Obj.set_char "X" (Obj.set_hp 0 (Spider x y))))).
  split_and!; try done.
  rewrite (take_damage_lethal _ _ _ _ _ Ho); [| done | simpl; lia].
  erewrite die_Mob; [| simpl; apply lookup_insert_eq | done].
  erewrite Mob_die_Return; [| simpl; apply lookup_insert_eq | exact Hm | done].
  simpl. by rewrite insert_insert_eq.
Qed.

(** ** Claims on damage *)

Lemma hp_bounded_set_char m o v : hp_bounded m o → hp_bounded m (Obj.set_char v o).
Proof. done. Qed.
Lemma hp_bounded_set_solid m o v : hp_bounded m o → hp_bounded m (Obj.set_solid v o).
Proof. done. Qed.
Lemma hp_bounded_set_state m o v : hp_bounded m o → hp_bounded m (Obj.set_state v o).
Proof. done. Qed.

Lemma take_damage_hp_bounded m self d h :
  0 ≤ d → obj_inv self (hp_bounded m) h →
  obj_inv self (hp_bounded m) (exec (take_damage die self d) h).
Proof.
  intros Hd (o & Ho & Hc & Hhp & Hm). unfold exec.
  destruct (decide (Obj.hp o ≤ d)) as [Hle|Hgt].
  - rewrite (take_damage_lethal _ _ _ _ _ Ho Hc Hle).
    apply (pres_die_obj self (hp_bounded m) self (hp_bounded_set_char m)
             (hp_bounded_set_solid m) (hp_bounded_set_state m)).
    exists (Obj.set_hp 0 o). simpl. rewrite lookup_insert_eq.
    split; [done|]. split_and!; simpl; [done | lia | lia | done].
  - rewrite (take_damage_wound _ _ _ _ _ Ho Hc); [| lia].
    exists (Obj.set_hp (Obj.hp o - d) o). simpl. rewrite lookup_insert_eq.
    split; [done|]. split_and!; simpl; [done | lia | lia | done].
Qed.

Lemma take_damages_hp_bounded m self ds h :
  Forall (λ d, 0 ≤ d) ds → obj_inv self (hp_bounded m) h →
  obj_inv self (hp_bounded m) (take_damages self ds h).
Proof.
  intros Hds. revert h. induction Hds as [|d ds Hd _ IH]; intros h Ih.
  - done.
  - apply IH. by apply take_damage_hp_bounded.
Qed.

(** C3: an instance of [CombatEntity] created with [hp = max_hp] that
    only receives [take_damage] calls with non-negative amounts keeps
    [0 ≤ hp ≤ max_hp] after every call.  One call with [d ≥ hp] sets [hp]
    to 0 and then runs the [die] method of the object once, on the state
    in which [hp] is already 0 (whatever that method is); with [d < hp]
    it subtracts [d] from [hp] and runs no [die] method. *)
Theorem C3_take_damage_hp_bounds self h o :
  heap h !! self = Some o → is_CombatEntity (Obj.cls o) = true →
  (Obj.hp o = Obj.max_hp o → 0 ≤ Obj.max_hp o →
   ∀ ds, Forall (λ d, 0 ≤ d) ds →
     ∃ o', heap (take_damages self ds h) !! self = Some o' ∧
           0 ≤ Obj.hp o' ≤ Obj.max_hp o' ∧ Obj.max_hp o' = Obj.max_hp o) ∧
  (∀ hook d, Obj.hp o ≤ d →
     take_damage hook self d h =
       hook self (set_heap (<[self := Obj.set_hp 0 o]> (heap h)) h)) ∧
  (∀ d, 0 ≤ Obj.hp o ≤ Obj.max_hp o → Obj.hp o ≤ d →
     ∃ o', heap (exec (take_damage die self d) h) !! self = Some o' ∧
           Obj.hp o' = 0) ∧
  (∀ hook d, d < Obj.hp o →
     take_damage hook self d h =
       (set_heap (<[self := Obj.set_hp (Obj.hp o - d) o]> (heap h)) h,
        Return tt)).
Proof.
  intros Ho Hc. split_and!.
  - intros Hnew Hmax ds Hds.
    destruct (take_damages_hp_bounded (Obj.max_hp o) self ds h Hds)
      as (o' & Ho' & _ & Hhp & Hm).
    { exists o. split; [done|]. split_and!; [done | lia | lia | done]. }
    by exists o'.
  - intros hook d Hd. by apply take_damage_lethal.
  - intros d Hhp Hd. unfold exec.
    rewrite (take_damage_lethal _ _ _ _ _ Ho Hc Hd).
    destruct (pres_die_obj self (λ o', Obj.hp o' = 0) self) with
      (h := set_heap (<[self := Obj.set_hp 0 o]> (heap h)) h)
      as [(o' & Ho' & Hz) _]; try done.
    + exists (Obj.set_hp 0 o). simpl. by rewrite lookup_insert_eq.
    + by exists o'.
  - intros hook d Hd. by apply take_damage_wound.
Qed.

(** C2, as amended: [take_damage] with a non-negative amount on an
    entity whose [hp] is already 0 leaves [hp] at 0, never negative, and
    runs the [die] method of the object again, once, on the unchanged
    state. *)
Theorem C2_take_damage_on_dead_reinvokes_die self h o d :
  heap h !! self = Some o → is_CombatEntity (Obj.cls o) = true →
  Obj.hp o = 0 → 0 ≤ d →
  (∀ hook, take_damage hook self d h = hook self h) ∧
  ∃ o', heap (exec (take_damage die self d) h) !! self = Some o' ∧
        Obj.hp o' = 0.
Proof.
  intros Ho Hc Hhp Hd.
  assert (set_heap (<[self := Obj.set_hp 0 o]> (heap h)) h = h) as Hid.
  { rewrite <- Hhp, set_hp_id, insert_id by done. apply set_heap_id. }
  split.
  - intros hook. rewrite (take_damage_lethal _ _ _ _ _ Ho Hc); [| lia].
    by rewrite Hid.
  - unfold exec. rewrite (take_damage_lethal _ _ _ _ _ Ho Hc); [| lia].
    rewrite Hid.
    destruct (pres_die_obj self (λ o', Obj.hp o' = 0) self) with (h := h)
      as [(o' & Ho' & Hz) _]; try done.
    + by exists o.
    + by exists o'.
Qed.

(** ** Dead mobs *)

Lemma action_handler_dead self h o :
  heap h !! self = Some o → Obj.cls o = cMob → Obj.state o = DEAD →
  action_handler self h = (h, Return tt).
Proof.
  intros Ho Hc Hs. unfold action_handler.
  rewrite (bind_Return _ _ _ _ _ (getattr_Return is_Mob Obj.state _ _ _ Ho
             ltac:(by rewrite Hc))).
  rewrite Hs, Z.eqb_refl. reflexivity.
Qed.

Lemma do_call_dead self x0 y0 c h :
  dead_mob self x0 y0 DEAD h → nonneg_call c →
  ∃ h', do_call self c h = (h', Return tt) ∧ dead_mob self x0 y0 DEAD h'.
Proof.
  intros (o & Ho & Hc & Hs & Hhp & Hx & Hy & Hin) Hc'.
  destruct c as [|d]; simpl in *.
  - exists h. split; [by eapply action_handler_dead |].
    by exists o.
  - destruct (remove_first_split self (mobs h) Hin)
      as (before & after & Hm & Hnb & _).
    rewrite (take_damage_lethal _ _ _ _ _ Ho); [| by rewrite Hc | lia].
    erewrite die_Mob; [| simpl; apply lookup_insert_eq | done].
    erewrite Mob_die_Return; [| simpl; apply lookup_insert_eq | exact Hm | done].
    eexists. split; [reflexivity|].
    eexists. simpl. rewrite lookup_insert_eq. split; [done|].
    split_and!; try done. apply elem_of_cons. by left.
Qed.

Lemma do_calls_dead self x0 y0 cs h :
  dead_mob self x0 y0 DEAD h → Forall nonneg_call cs →
  ∃ h', do_calls self cs h = (h', Return tt) ∧ dead_mob self x0 y0 DEAD h'.
Proof.
  intros Hd Hcs. revert h Hd.
  induction Hcs as [|c cs Hc _ IH]; intros h Hd; simpl.
  - by exists h.
  - destruct (do_call_dead self x0 y0 c h Hd Hc) as (h1 & Hr & Hd1).
    destruct (IH h1 Hd1) as (h2 & Hr2 & Hd2).
    exists h2. split; [| done].
    by rewrite (bind_Return _ _ _ _ _ Hr).
Qed.

(** C4: a dead mob (state [DEAD], 0 hit points, in the registry) keeps
    its position, its hit points and its state through any series of
    [action_handler] calls and [take_damage] calls with non-negative
    amounts, and none of these calls raises: [action_handler] returns at
    once, leaving the whole handler as it is. *)
Theorem C4_dead_mob_stays_dead self h o cs :
  heap h !! self = Some o → Obj.cls o = cMob →
  Obj.state o = DEAD → Obj.hp o = 0 → self ∈ mobs h →
  Forall nonneg_call cs →
  action_handler self h = (h, Return tt) ∧
  ∃ h' o', do_calls self cs h = (h', Return tt) ∧
           heap h' !! self = Some o' ∧
           Obj.x o' = Obj.x o ∧ Obj.y o' = Obj.y o ∧
           Obj.hp o' = 0 ∧ Obj.state o' = DEAD.
Proof.
  intros Ho Hc Hs Hhp Hin Hcs. split; [by eapply action_handler_dead |].
  destruct (do_calls_dead self (Obj.x o) (Obj.y o) cs h) as
    (h' & Hr & o' & Ho' & _ & Hs' & Hhp' & Hx' & Hy' & _); [| done |].
  { by exists o. }
  by exists h', o'.
Qed.

Lemma hasattr_hp_Return target h o :
  heap h !! target = Some o →
  hasattr_hp target h = (h, Return (is_CombatEntity (Obj.cls o))).
Proof.
  intros Ho. unfold hasattr_hp.
  by rewrite (bind_Return _ _ _ _ _ (get_obj_Return _ _ _ Ho)).
Qed.

Lemma randrange_Return n h :
  0 < n →
  randrange n h = (set_drawn (S (drawn h)) h, Return (draws h (drawn h) `mod` n)).
Proof.
  intros Hn. unfold randrange.
  assert ((n <=? 0) = false) as -> by (apply Z.leb_gt; lia). done.
Qed.


(** ** The scan of [move_or_attack] comes to its end *)

Lemma python_exn_finished : python_exn finished.
Proof. done. Qed.

Lemma registry_size_stable_setattr n r f :
  stable_setattr (registry_size n) r f.
Proof. by intros h o Ih Ho. Qed.

Lemma registry_size_stable_log n : stable_log (registry_size n).
Proof. by intros h v Ih. Qed.
Lemma registry_size_stable_rng n : stable_rng (registry_size n).
Proof. by intros h v Ih. Qed.
Lemma registry_size_stable_flag n : stable_flag (registry_size n).
Proof. by intros h v Ih. Qed.

Lemma registry_size_stable_front n : stable_front (registry_size n).
Proof.
  intros h r l Ih Hr. unfold registry_size in *. simpl.
  by rewrite <- (remove_first_length _ _ _ Hr).
Qed.

Lemma registry_size_stable_death n r : stable_death (registry_size n) r.
Proof. split_and!; intros v; apply registry_size_stable_setattr. Qed.

Lemma pres_move_or_attack_body n self dx dy mob :
  preserves (registry_size n) finished (move_or_attack_body self dx dy mob).
Proof.
  pose proof python_exn_finished as HE.
  pose proof (registry_size_stable_log n) as Hlog.
  unfold move_or_attack_body.
  apply pres_bind; [apply pres_getattr, HE |]. intros mx.
  apply pres_bind; [apply pres_getattr, HE |]. intros sx.
  apply pres_bind.
  { destruct (_ =? _); [| apply pres_ret].
    apply pres_bind; [apply pres_getattr, HE |]. intros my.
    apply pres_bind; [apply pres_getattr, HE |]. intros sy.
    destruct (_ =? _); [apply pres_getattr, HE | apply pres_ret]. }
  intros c. destruct c; [| apply pres_ret].
  apply pres_bind.
  { apply pres_deal_damage; [done | | | | |].
    - apply registry_size_stable_rng.
    - apply registry_size_stable_flag.
    - apply registry_size_stable_front.
    - apply registry_size_stable_death.
    - intros v. apply registry_size_stable_setattr. }
  intros dmg. apply pres_bind.
  { destruct (truthy dmg).
    - apply pres_bind; [apply pres_getattr, HE |]. intros nm.
      by apply pres_add_msg.
    - by apply pres_add_msg. }
  intros _. apply pres_bind; [apply pres_getattr, HE |]. intros st.
  destruct (_ =? _); [| apply pres_ret].
  apply pres_bind; [apply pres_getattr, HE |]. intros nm.
  apply pres_bind; [by apply pres_add_msg |]. intros _.
  apply pres_bind; [apply pres_getattr, HE |]. intros nm0.
  apply pres_setattr; [apply HE | apply registry_size_stable_setattr].
Qed.

Lemma pres_for_mobs n bound i body :
  (∀ mob, preserves (registry_size n) finished (body mob)) →
  (n ≤ bound + i)%nat →
  preserves (registry_size n) finished (for_mobs bound i body).
Proof.
  intros Hbody. revert i. induction bound as [|bound IH]; intros i Hn; simpl.
  - apply pres_get_bind. intros h0 Ih0.
    destruct (mobs h0 !! i) as [mob|] eqn:Hi; [| apply pres_ret].
    apply lookup_lt_Some in Hi. unfold registry_size in Ih0. lia.
  - apply pres_get_bind. intros h0 Ih0.
    destruct (mobs h0 !! i) as [mob|] eqn:Hi; [| apply pres_ret].
    apply pres_bind; [apply Hbody |]. intros _. apply IH. lia.
Qed.

(** The bound of [for_mobs] is never hit: [move_or_attack] returns or
    raises an exception of Python. *)
Lemma move_or_attack_finishes self dx dy h :
  eval (move_or_attack self dx dy) h ≠ Raise Unfinished.
Proof.
  assert (preserves (registry_size (length (mobs h))) finished
            (move_or_attack self dx dy)) as Hp.
  { unfold move_or_attack. apply pres_get_bind. intros h0 Ih0.
    apply pres_bind.
    { rewrite Ih0. apply pres_for_mobs; [| lia].
      intros mob. apply pres_move_or_attack_body. }
    intros _. apply pres_bind; [by apply pres_modify |]. intros _.
    apply pres_move; [apply python_exn_finished | |];
      intros v; apply registry_size_stable_setattr. }
  destruct (Hp h eq_refl) as [_ He]. intros Hr. by apply (He Unfinished).
Qed.

(** ** Values read back *)

Lemma pres_bind_returns {A B : Type} I E (Q : A → Prop) (m : M A)
    (f : A → M B) :
  returns I Q m → preserves I E m → (∀ a, Q a → preserves I E (f a)) →
  preserves I E (m ≫= f).
Proof.
  intros Hq Hm Hf h Ih. destruct (Hm h Ih) as [I1 E1].
  unfold mbind, M_bind. destruct (m h) as [h1 [a|e]] eqn:Hmh; simpl in *.
  - apply Hf; [| done]. exact (Hq h h1 a Ih Hmh).
  - split; [done | intros e' He; simplify_eq; by apply E1].
Qed.

Lemma returns_getattr {A : Type} I (Q : A → Prop) has (f : Obj.t → A) r :
  (∀ h o, I h → heap h !! r = Some o → Q (f o)) →
  returns I Q (getattr has f r).
Proof.
  intros HQ h h' a Ih. unfold getattr, mbind, M_bind, get_obj.
  destruct (heap h !! r) as [o|] eqn:Ho; simpl; [| done].
  destruct (has (Obj.cls o)); simpl; [| done].
  intros [= <- <-]. by eapply HQ.
Qed.

Lemma in_sight_Return self h o :
  heap h !! self = Some o →
  in_sight self h = (h, Return (map_is_in_fov (fov_map h) (Obj.x o) (Obj.y o))).
Proof.
  intros Ho. unfold in_sight.
  rewrite (bind_Return _ _ _ _ _ (getattr_Return _ _ _ _ _ Ho eq_refl)).
  rewrite (bind_Return _ _ _ _ _ (getattr_Return _ _ _ _ _ Ho eq_refl)).
  by rewrite (bind_Return _ _ _ _ _ (get_Return h)).
Qed.

Lemma not_in_sight_Return self h o :
  heap h !! self = Some o →
  not_in_sight self h =
    (h, Return (negb (map_is_in_fov (fov_map h) (Obj.x o) (Obj.y o)))).
Proof.
  intros Ho. unfold not_in_sight.
  by rewrite (bind_Return _ _ _ _ _ (in_sight_Return _ _ _ Ho)).
Qed.

Lemma healthy_run self h o :
  heap h !! self = Some o → healthy self h = (h, healthy_value o).
Proof.
  intros Ho.
  unfold healthy, healthy_value, getattr, mbind, M_bind, get_obj, mret,
    M_ret, raise.
  destruct (is_CombatEntity (Obj.cls o)) eqn:Hc;
    repeat (rewrite ?Ho, ?Hc; cbv beta iota); [| done].
  by destruct (PyFloat.of_int (Obj.max_hp o)).
Qed.

Lemma in_sight_and_healthy_run self h o :
  heap h !! self = Some o →
  in_sight_and_healthy self h =
    (h, answer In_sight_and_healthy (fov_map h) o (next_roll h)).
Proof.
  intros Ho. unfold in_sight_and_healthy, answer.
  rewrite (bind_Return _ _ _ _ _ (in_sight_Return _ _ _ Ho)).
  destruct (map_is_in_fov _ _ _); [by apply healthy_run | done].
Qed.

(** The morale check: what it answers once the roll is made. *)
Lemma in_sight_and_not_healthy_run self h o :
  heap h !! self = Some o →
  in_sight_and_not_healthy self h =
    (set_drawn (S (drawn h)) h,
     answer In_sight_and_not_healthy (fov_map h) o (next_roll h)).
Proof.
  intros Ho. unfold in_sight_and_not_healthy, answer, next_roll.
  rewrite (bind_Return _ _ _ _ _ (randrange_Return 101 h ltac:(lia))).
  unfold getattr at 1. rewrite (bind_assoc (get_obj self)).
  erewrite bind_Return; last first.
  { by apply (get_obj_Return self _ o). }
  destruct (is_Mob (Obj.cls o)); [| done].
  erewrite bind_Return; last first.
  { reflexivity. }
  destruct (_ <? _); [| done].
  erewrite bind_Return; last first.
  { by apply (in_sight_Return self _ o). }
  simpl. destruct (map_is_in_fov _ _ _); [| done].
  unfold mbind, M_bind. rewrite (healthy_run self _ o); [| done].
  by destruct (healthy_value o).
Qed.

(** ** The mob keeps its state while it chases or runs *)

Lemma mob_inv_stable_log self F : stable_log (mob_inv self F).
Proof. by intros h v [Hp Ih]. Qed.
Lemma mob_inv_stable_rng self F : stable_rng (mob_inv self F).
Proof. by intros h v [Hp Ih]. Qed.
Lemma mob_inv_stable_flag self F : stable_flag (mob_inv self F).
Proof. by intros h v [Hp Ih]. Qed.
Lemma mob_inv_stable_front self F : stable_front (mob_inv self F).
Proof. by intros h r l [Hp Ih] _. Qed.

Lemma mob_inv_stable_setattr self F r f :
  (r = self → ∀ m o, F m o → F m (f o)) →
  stable_setattr (mob_inv self F) r f.
Proof.
  intros Hf h o [Hp Ih] Ho. split; [done |]. simpl.
  apply (obj_inv_setattr self (F (fov_map h)) f r h o); auto.
Qed.

Lemma mob_inv_stable_death self F r :
  r ≠ self → stable_death (mob_inv self F) r.
Proof.
  intros Hne. split_and!; intros v; by apply mob_inv_stable_setattr.
Qed.

Lemma pres_linear_dist I E x1 x2 y1 y2 :
  python_exn E → preserves I E (linear_dist x1 x2 y1 y2).
Proof.
  intros HE. unfold linear_dist.
  destruct (PyFloat.of_int _); [apply pres_ret | apply pres_raise, HE].
Qed.

Ltac pres_step HE :=
  lazymatch goal with
  | |- preserves _ _ (mret _) => apply pres_ret
  | |- preserves _ _ (raise _) => apply pres_raise; apply HE
  | |- preserves _ _ (getattr _ _ _) => apply pres_getattr; apply HE
  | |- preserves _ _ (hasattr_hp _) => apply pres_hasattr_hp; apply HE
  | |- preserves _ _ (getitem _ _) => apply pres_getitem; apply HE
  | |- preserves _ _ (linear_dist _ _ _ _) => apply pres_linear_dist; apply HE
  | |- preserves _ _ (mbind _ get) => apply pres_get_bind; intros ? ?
  | |- preserves _ _ (mbind _ _) => apply pres_bind; [| intros ?]
  | |- preserves _ _ (if ?b then _ else _) => destruct b
  | |- preserves _ _ (match ?x with _ => _ end) => destruct x
  end.

Section KeepsState.

Context (self : ref) (F : (Z → Z → bool) → Obj.t → Prop).
Hypothesis F_x : ∀ m o v, F m o → F m (Obj.set_x v o).
Hypothesis F_y : ∀ m o v, F m o → F m (Obj.set_y v o).

Let I := mob_inv self F.
Let E : exn → Prop := λ _, True.

Lemma pres_add_msg_mob msg colour : preserves I E (add_msg msg colour).
Proof. apply pres_add_msg; [done | apply mob_inv_stable_log]. Qed.

Lemma pres_move_mob dx dy : preserves I E (move self dx dy).
Proof.
  apply pres_move; [done | |]; intros v; apply mob_inv_stable_setattr; auto.
Qed.

Lemma pres_attack_player h0 :
  I h0 → preserves I E (deal_damage die self (player h0)).
Proof.
  intros [Hp _]. apply pres_deal_damage; [done | | | | |].
  - apply mob_inv_stable_rng.
  - apply mob_inv_stable_flag.
  - apply mob_inv_stable_front.
  - by apply mob_inv_stable_death.
  - intros v. by apply mob_inv_stable_setattr.
Qed.

Lemma pres_chase_condition posn : preserves I E (chase_condition self posn).
Proof.
  assert (python_exn E) as HE by done.
  unfold chase_condition. repeat pres_step HE.
Qed.

Lemma pres_chase_attack : preserves I E (chase_attack self).
Proof.
  assert (python_exn E) as HE by done.
  unfold chase_attack. apply pres_get_bind. intros h2 Ih2.
  apply pres_bind; [by apply pres_attack_player |]. intros dmg.
  apply pres_bind.
  { destruct (truthy dmg);
      (apply pres_bind; [pres_step HE | intros nm; apply pres_add_msg_mob]). }
  intros _. apply pres_get_bind. intros h3 Ih3.
  destruct (_ =? _); [| apply pres_ret].
  apply pres_bind; [pres_step HE | intros nm; apply pres_add_msg_mob].
Qed.

Lemma pres_chase_loop target posns d mv :
  preserves I E (chase_loop self target posns d mv).
Proof.
  assert (python_exn E) as HE by done.
  revert d mv. induction posns as [|posn rest IH]; intros d mv; simpl.
  { apply pres_ret. }
  apply pres_bind; [apply pres_chase_condition |]. intros c.
  destruct c.
  - apply pres_bind; [apply pres_chase_attack |]. intros _. apply IH.
  - apply pres_bind; [pres_step HE |]. intros sx0.
    apply pres_bind; [pres_step HE |]. intros sy0.
    apply pres_get_bind. intros h4 Ih4.
    destruct (negb _); [| apply IH].
    apply pres_bind; [pres_step HE |]. intros sx1.
    apply pres_bind; [pres_step HE |]. intros tx.
    apply pres_bind; [pres_step HE |]. intros sy1.
    apply pres_bind; [pres_step HE |]. intros ty.
    apply pres_bind; [pres_step HE |]. intros new_dist.
    destruct (PyFloat.ltb _ _); apply IH.
Qed.

Lemma pres_chase target : preserves I E (chase self target).
Proof.
  assert (python_exn E) as HE by done.
  unfold chase.
  apply pres_bind; [pres_step HE |]. intros sx.
  apply pres_bind; [pres_step HE |]. intros tx.
  apply pres_bind; [pres_step HE |]. intros sy.
  apply pres_bind; [pres_step HE |]. intros ty.
  apply pres_bind; [pres_step HE |]. intros d.
  apply pres_bind; [apply pres_chase_loop |]. intros r.
  destruct (r.2); [apply pres_move_mob | apply pres_ret].
Qed.

Lemma pres_run_loop target posns d mv :
  preserves I E (run_loop self target posns d mv).
Proof.
  assert (python_exn E) as HE by done.
  revert d mv. induction posns as [|posn rest IH]; intros d mv; simpl.
  { apply pres_ret. }
  apply pres_bind; [pres_step HE |]. intros sx0.
  apply pres_bind; [pres_step HE |]. intros sy0.
  apply pres_get_bind. intros h4 Ih4.
  destruct (negb _); [| apply IH].
  apply pres_bind; [pres_step HE |]. intros sx1.
  apply pres_bind; [pres_step HE |]. intros tx.
  apply pres_bind; [pres_step HE |]. intros sy1.
  apply pres_bind; [pres_step HE |]. intros ty.
  apply pres_bind; [pres_step HE |]. intros new_dist.
  destruct (PyFloat.ltb _ _); apply IH.
Qed.

Lemma pres_run target : preserves I E (run self target).
Proof.
  assert (python_exn E) as HE by done.
  unfold run.
  apply pres_bind; [pres_step HE |]. intros sx.
  apply pres_bind; [pres_step HE |]. intros tx.
  apply pres_bind; [pres_step HE |]. intros sy.
  apply pres_bind; [pres_step HE |]. intros ty.
  apply pres_bind; [pres_step HE |]. intros d.
  apply pres_bind; [apply pres_run_loop |]. intros r.
  destruct (r.2); [apply pres_move_mob | apply pres_ret].
Qed.

End KeepsState.

(** ** The transition table *)

Section Checks.

Context (I : handler → Prop) (E : exn → Prop).
Hypothesis HE : python_exn E.

Lemma pres_in_sight self : preserves I E (in_sight self).
Proof. unfold in_sight. repeat pres_step HE. Qed.

Lemma pres_not_in_sight self : preserves I E (not_in_sight self).
Proof.
  unfold not_in_sight. apply pres_bind; [apply pres_in_sight |].
  intros b. apply pres_ret.
Qed.

Lemma pres_healthy self : preserves I E (healthy self).
Proof. unfold healthy. repeat pres_step HE. Qed.

Lemma pres_in_sight_and_healthy self :
  preserves I E (in_sight_and_healthy self).
Proof.
  unfold in_sight_and_healthy. apply pres_bind; [apply pres_in_sight |].
  intros b. destruct b; [apply pres_healthy | apply pres_ret].
Qed.

Lemma pres_in_sight_and_not_healthy self :
  stable_rng I → preserves I E (in_sight_and_not_healthy self).
Proof.
  intros Hrng. unfold in_sight_and_not_healthy.
  apply pres_bind.
  { apply pres_randrange; [apply HE | intros h Ih; by apply Hrng]. }
  intros roll. apply pres_bind; [pres_step HE |]. intros morale.
  destruct (_ <? _); [| apply pres_ret].
  apply pres_bind; [apply pres_in_sight |]. intros b.
  destruct b; [| apply pres_ret].
  apply pres_bind; [apply pres_healthy |]. intros hb. apply pres_ret.
Qed.

Lemma pres_enter_state self x :
  stable_log I → stable_setattr I self (Obj.set_state x) →
  preserves I E (enter_state self x).
Proof.
  intros Hlog Hstate. unfold enter_state.
  apply pres_bind; [apply pres_setattr; [apply HE | done] |]. intros _.
  apply pres_bind; [pres_step HE |]. intros st.
  destruct (_ =? _).
  - apply pres_bind; [pres_step HE |]. intros nm. by apply pres_add_msg.
  - apply pres_bind; [pres_step HE |]. intros st0.
    destruct (_ =? _); [| apply pres_ret].
    apply pres_bind; [pres_step HE |]. intros nm. by apply pres_add_msg.
Qed.

End Checks.

(** Under [mob_inv self F] the morale check answers false when [F]
    excludes "in sight and not healthy". *)
Lemma returns_in_sight_and_not_healthy self F :
  (∀ m o, F m o →
     Obj.cls o = cMob ∧
     (map_is_in_fov m (Obj.x o) (Obj.y o) = false ∨
      healthy_value o = Return true)) →
  returns (mob_inv self F) (λ b, b = false) (in_sight_and_not_healthy self).
Proof.
  intros HF h h' b [_ (o & Ho & Fo)] Hrun.
  destruct (HF _ _ Fo) as [Hc Hfacts].
  rewrite (in_sight_and_not_healthy_run self h o Ho) in Hrun.
  unfold answer in Hrun. rewrite Hc in Hrun. cbn [is_Mob] in Hrun.
  destruct (_ <? _); [| by simplify_eq].
  destruct Hfacts as [Hs | Hh].
  - rewrite Hs in Hrun. by simplify_eq.
  - rewrite Hh in Hrun. destruct (map_is_in_fov _ _ _); by simplify_eq.
Qed.

(** What remains of [action_handler] once the state has been assigned:
    the message, the checks of the columns to the right and the
    behaviour of the state. *)
Lemma pres_dispatch self F :
  (∀ m o v, F m o → F m (Obj.set_x v o)) →
  (∀ m o v, F m o → F m (Obj.set_y v o)) →
  preserves (mob_inv self F) (λ _, True)
    (st1 ← getattr is_Mob Obj.state self;
     if st1 =? data.HOLD then mret tt
     else
       st2 ← getattr is_Mob Obj.state self;
       if st2 =? data.CHASE then h ← get; chase self (player h)
       else
         st3 ← getattr is_Mob Obj.state self;
         if st3 =? data.RUN then h ← get; run self (player h)
         else mret tt).
Proof.
  intros Fx Fy. assert (python_exn (λ _ : exn, True)) as HE by done.
  apply pres_bind; [pres_step HE |]. intros st1.
  destruct (_ =? _); [apply pres_ret |].
  apply pres_bind; [pres_step HE |]. intros st2.
  destruct (_ =? _).
  { apply pres_get_bind. intros h0 _. by apply pres_chase. }
  apply pres_bind; [pres_step HE |]. intros st3.
  destruct (_ =? _); [| apply pres_ret].
  apply pres_get_bind. intros h0 _. by apply pres_run.
Qed.

Lemma getitem_0 {A : Type} (a : A) l h : getitem (a :: l) 0 h = (h, Return a).
Proof.
  unfold getitem. cbn [length].
  assert ((0 <? 0) = false) as -> by done.
  assert ((0 <=? 0) && (0 <? Z.of_nat (S (length l))) = true) as ->.
  { apply andb_true_iff. split; [done | apply Z.ltb_lt; lia]. }
  reflexivity.
Qed.

Lemma getitem_1 {A : Type} (a b : A) l h :
  getitem (a :: b :: l) 1 h = (h, Return b).
Proof.
  unfold getitem. cbn [length].
  assert ((1 <? 0) = false) as -> by done.
  assert ((0 <=? 1) && (1 <? Z.of_nat (S (S (length l)))) = true) as ->.
  { apply andb_true_iff. split; [done | apply Z.ltb_lt; lia]. }
  reflexivity.
Qed.

Lemma getitem_2 {A : Type} (a b c : A) l h :
  getitem (a :: b :: c :: l) 2 h = (h, Return c).
Proof.
  unfold getitem. cbn [length].
  assert ((2 <? 0) = false) as -> by done.
  assert ((0 <=? 2) && (2 <? Z.of_nat (S (S (S (length l))))) = true) as ->.
  { apply andb_true_iff. split; [done | apply Z.ltb_lt; lia]. }
  reflexivity.
Qed.

Lemma preserves_exec {A : Type} I E (m : M A) h :
  preserves I E m → I h → I (exec m h).
Proof. intros Hm Ih. by destruct (Hm h Ih). Qed.

Lemma exec_bind_inv {A B : Type} (I : handler → Prop) E (m : M A)
    (f : A → M B) h :
  I (exec m h) → (∀ a, preserves I E (f a)) → I (exec (m ≫= f) h).
Proof.
  unfold exec, mbind, M_bind. intros Im Hf.
  destruct (m h) as [h1 [a|e]]; simpl in *; [| done].
  by apply Hf.
Qed.

(** [enter_state] on a mob: the state is the one assigned, whatever
    becomes of the message. *)
Lemma enter_state_establishes self x F h o :
  heap h !! self = Some o → player h ≠ self →
  F (fov_map h) (Obj.set_state x o) →
  mob_inv self F (exec (enter_state self x) h).
Proof.
  intros Ho Hp HF. unfold exec, enter_state.
  rewrite (bind_Return _ _ _ _ _ (setattr_Return _ _ _ _ Ho)).
  assert (python_exn (λ _ : exn, True)) as HE by done.
  apply (preserves_exec (mob_inv self F) (λ _, True)).
  - apply pres_bind; [pres_step HE |]. intros st.
    destruct (_ =? _).
    + apply pres_bind; [pres_step HE |]. intros nm.
      apply pres_add_msg; [done | apply mob_inv_stable_log].
    + apply pres_bind; [pres_step HE |]. intros st0.
      destruct (_ =? _); [| apply pres_ret].
      apply pres_bind; [pres_step HE |]. intros nm.
      apply pres_add_msg; [done | apply mob_inv_stable_log].
  - split; [done |]. exists (Obj.set_state x o). simpl.
    by rewrite lookup_insert_eq.
Qed.

(** The check of the last column and the end of the loop, when the
    invariant makes that check answer false. *)
Lemma pres_last_column self F x :
  (∀ m o, F m o →
     Obj.cls o = cMob ∧
     (map_is_in_fov m (Obj.x o) (Obj.y o) = false ∨
      healthy_value o = Return true)) →
  preserves (mob_inv self F) (λ _, True)
    (transitions self [Some (in_sight_and_not_healthy self)] x).
Proof.
  intros HF. assert (python_exn (λ _ : exn, True)) as HE by done.
  cbn [transitions].
  apply pres_bind_returns with (Q := λ b, b = false).
  - by apply returns_in_sight_and_not_healthy.
  - apply pres_in_sight_and_not_healthy; [done | apply mob_inv_stable_rng].
  - intros b ->. apply pres_bind; [apply pres_ret | intros _; apply pres_ret].
Qed.

Lemma transitions_None self rest x :
  transitions self (None :: rest) x = transitions self rest (x + 1).
Proof. reflexivity. Qed.

Lemma transitions_Some self check rest x :
  transitions self (Some check :: rest) x =
    (b ← check;
     (if (b : bool) then enter_state self x else mret tt);;
     transitions self rest (x + 1)).
Proof. reflexivity. Qed.

Lemma healthy_in_state_x s m o v :
  healthy_in_state s m o → healthy_in_state s m (Obj.set_x v o).
Proof. done. Qed.

Lemma healthy_in_state_y s m o v :
  healthy_in_state s m o → healthy_in_state s m (Obj.set_y v o).
Proof. done. Qed.

(** C7: for a live mob, [action_handler] called in state HOLD with
    [in_sight()] and [healthy()] true leaves the mob in state CHASE, and
    called in state CHASE with [not_in_sight()] true leaves it in state
    HOLD; this holds whether the call returns or raises. *)
Theorem C7_action_handler_transitions self h o :
  heap h !! self = Some o → Obj.cls o = cMob → Obj.state o ≠ DEAD →
  player h ≠ self →
  (Obj.state o = data.HOLD →
   eval (in_sight self) h = Return true →
   eval (healthy self) h = Return true →
   ∃ o', heap (exec (action_handler self) h) !! self = Some o' ∧
         Obj.state o' = data.CHASE) ∧
  (Obj.state o = data.CHASE →
   eval (not_in_sight self) h = Return true →
   ∃ o', heap (exec (action_handler self) h) !! self = Some o' ∧
         Obj.state o' = data.HOLD).
Proof.
  intros Ho Hc Hlive Hp.
  assert (is_Mob (Obj.cls o) = true) as HM by (by rewrite Hc).
  assert (is_CombatEntity (Obj.cls o) = true) as HC by (by rewrite Hc).
  assert ((Obj.state o =? DEAD) = false) as Hlive' by (by apply Z.eqb_neq).
  assert (python_exn (λ _ : exn, True)) as HE by done.
  split.
  - intros Hs Hsight Hhealthy.
    unfold eval in Hsight, Hhealthy.
    rewrite (in_sight_Return _ _ _ Ho) in Hsight.
    rewrite (healthy_run _ _ _ Ho) in Hhealthy.
    cbn [snd] in Hsight, Hhealthy. injection Hsight as Hsight.
    assert (mob_inv self (healthy_in_state data.CHASE)
              (exec (action_handler self) h)) as [_ (o' & Ho' & [_ Hst] & _)];
      [| by exists o'].
    unfold exec, action_handler.
    rewrite (bind_Return _ _ _ _ _ (getattr_Return _ _ _ _ _ Ho HM)), Hlive'.
    rewrite (bind_Return _ _ _ _ _ (getattr_Return _ _ _ _ _ Ho HM)).
    rewrite Hs. unfold state_chart, data.HOLD.
    rewrite (bind_Return _ _ _ _ _ (getitem_0 _ _ h)).
    rewrite transitions_None, transitions_Some, bind_assoc.
    erewrite bind_Return; last first.
    { rewrite (in_sight_and_healthy_run _ _ _ Ho). unfold answer.
      rewrite Hsight, Hhealthy. reflexivity. }
    rewrite bind_assoc.
    apply (exec_bind_inv _ (λ _, True)).
    + by apply (enter_state_establishes self _ _ h o).
    + intros _. apply pres_bind.
      * apply pres_last_column. intros m o1 [[Hc1 _] Hh1]. auto.
      * intros _. apply pres_dispatch.
        -- apply healthy_in_state_x.
        -- apply healthy_in_state_y.
  - intros Hs Hunseen.
    unfold eval in Hunseen.
    rewrite (not_in_sight_Return _ _ _ Ho) in Hunseen.
    cbn [snd] in Hunseen. injection Hunseen as Hunseen.
    apply negb_true_iff in Hunseen.
    assert (mob_inv self (unseen_in_state data.HOLD (Obj.x o) (Obj.y o))
              (exec (action_handler self) h))
      as [_ (o' & Ho' & [_ Hst] & _)]; [| by exists o'].
    unfold exec, action_handler.
    rewrite (bind_Return _ _ _ _ _ (getattr_Return _ _ _ _ _ Ho HM)), Hlive'.
    rewrite (bind_Return _ _ _ _ _ (getattr_Return _ _ _ _ _ Ho HM)).
    rewrite Hs. unfold state_chart, data.CHASE.
    rewrite (bind_Return _ _ _ _ _ (getitem_1 _ _ _ h)).
    rewrite transitions_Some, bind_assoc.
    erewrite bind_Return; last first.
    { rewrite (not_in_sight_Return _ _ _ Ho), Hunseen. reflexivity. }
    rewrite bind_assoc.
    apply (exec_bind_inv _ (λ _, True)).
    + by apply (enter_state_establishes self _ _ h o).
    + intros _. apply pres_bind.
      * rewrite transitions_None. apply pres_last_column.
        intros m o1 ([Hc1 _] & Hx1 & Hy1 & Hm1). split; [done |].
        left. by rewrite Hx1, Hy1.
      * intros _.
        apply pres_bind_returns with (Q := λ st, st = data.HOLD).
        -- apply returns_getattr.
           intros h1 o1 [_ (o2 & Ho2 & [_ Hst2] & _)] Ho1. by simplify_eq.
        -- pres_step HE.
        -- intros st ->. apply pres_ret.
Qed.

(** ** The predicates of the table and their answers *)

Lemma method_run p self h o :
  heap h !! self = Some o →
  method p self h =
    (match p with
     | In_sight_and_not_healthy => set_drawn (S (drawn h)) h
     | _ => h
     end, answer p (fov_map h) o (next_roll h)).
Proof.
  intros Ho. destruct p; simpl method.
  - by apply not_in_sight_Return.
  - by apply in_sight_and_healthy_run.
  - by apply in_sight_and_not_healthy_run.
Qed.

Lemma in_sight_dangling self h :
  heap h !! self = None → in_sight self h = (h, Raise AttributeError).
Proof.
  intros Ho. unfold in_sight, getattr, mbind, M_bind, get_obj.
  by rewrite Ho.
Qed.

Lemma method_dangling p self h :
  heap h !! self = None → ∃ h', method p self h = (h', Raise AttributeError).
Proof.
  intros Ho. destruct p; simpl method.
  - exists h. unfold not_in_sight.
    by rewrite (bind_Raise _ _ _ _ _ (in_sight_dangling _ _ Ho)).
  - exists h. unfold in_sight_and_healthy.
    by rewrite (bind_Raise _ _ _ _ _ (in_sight_dangling _ _ Ho)).
  - exists (set_drawn (S (drawn h)) h). unfold in_sight_and_not_healthy.
    rewrite (bind_Return _ _ _ _ _ (randrange_Return 101 h ltac:(lia))).
    unfold getattr, get_obj, mbind, M_bind. simpl heap. by rewrite Ho.
Qed.

(** A predicate that returns has read the object behind [self] and has
    left the heap and the visibility map as they were. *)
Lemma method_Return_inv p self h h1 b :
  method p self h = (h1, Return b) →
  ∃ o, heap h !! self = Some o ∧
       answer p (fov_map h) o (next_roll h) = Return b ∧
       heap h1 = heap h ∧ fov_map h1 = fov_map h.
Proof.
  intros Hrun. destruct (heap h !! self) as [o|] eqn:Ho.
  - rewrite (method_run p self h o Ho) in Hrun. exists o.
    injection Hrun as <- Hb. split_and!; [done | done | |]; by destruct p.
  - destruct (method_dangling p self h Ho) as [h' Hr]. congruence.
Qed.

(** The answers do not depend on the state of the mob. *)
Lemma answer_set_state p m o s r :
  answer p m (Obj.set_state s o) r = answer p m o r.
Proof. by destruct p. Qed.

Lemma answer_same_facts p m o o' r :
  Obj.set_state 0 o' = Obj.set_state 0 o → answer p m o' r = answer p m o r.
Proof.
  intros Heq. rewrite <- (answer_set_state p m o' 0 r), Heq.
  apply answer_set_state.
Qed.

(** In a row of the table the two predicates exclude each other, for
    any visibility map, attributes of the mob and morale rolls. *)
Lemma answer_exclusive i row x1 p1 x2 p2 m o r1 r2 :
  chart !! i = Some row → cells 0 row = [(x1, p1); (x2, p2)] →
  answer p1 m o r1 = Return true → answer p2 m o r2 = Return true → False.
Proof.
  intros Hrow Hcells.
  destruct i as [|[|[|i]]]; simpl in Hrow; simplify_eq;
    simpl in Hcells; simplify_eq; unfold answer; intros H1 H2;
    destruct (map_is_in_fov m (Obj.x o) (Obj.y o));
    destruct (healthy_value o) as [[|]|];
    repeat case_match; simplify_eq.
Qed.

(** ** One transition per call *)

Lemma state_chart_bound self i row :
  chart !! i = Some row → state_chart self !! i = Some (bound_row self row).
Proof.
  intros Hrow. destruct i as [|[|[|i]]]; simpl in Hrow; by simplify_eq.
Qed.

Lemma transitions_two self i row x1 p1 x2 p2 h :
  chart !! i = Some row → cells 0 row = [(x1, p1); (x2, p2)] →
  transitions self (bound_row self row) 0 h =
    (b1 ← method p1 self;
     (if (b1 : bool) then enter_state self x1 else mret tt);;
     b2 ← method p2 self;
     (if (b2 : bool) then enter_state self x2 else mret tt);;
     mret tt) h.
Proof.
  intros Hrow Hcells.
  destruct i as [|[|[|i]]]; simpl in Hrow; simplify_eq;
    simpl in Hcells; simplify_eq; unfold bound_row; cbn [map];
    rewrite ?transitions_None, ?transitions_Some, ?transitions_None,
      ?transitions_Some, ?transitions_None; reflexivity.
Qed.

Lemma facts_inv_stable_log self m o : stable_log (facts_inv self m o).
Proof. by intros h v [Hm Ih]. Qed.

Lemma facts_inv_stable_state self m o x :
  stable_setattr (facts_inv self m o) self (Obj.set_state x).
Proof.
  intros h o1 [Hm Ih] Ho1. split; [done |].
  apply obj_inv_setattr; [done | done |]. intros _ Heq. by rewrite <- Heq.
Qed.

(** The checks of a row never both answer true in one run. *)
Lemma checks_exclusive_run self i row x1 p1 x2 p2 h h1 b1 h2 b2 :
  chart !! i = Some row → cells 0 row = [(x1, p1); (x2, p2)] →
  method p1 self h = (h1, Return b1) →
  method p2 self (exec (if b1 then enter_state self x1 else mret tt) h1)
    = (h2, Return b2) →
  b1 && b2 = false.
Proof.
  intros Hrow Hcells H1 H2.
  destruct b1; [| done]. destruct b2; [| done]. exfalso.
  destruct (method_Return_inv _ _ _ _ _ H1) as (o & Ho & Ha1 & Hheap & Hfov).
  assert (facts_inv self (fov_map h) o
            (exec (enter_state self x1) h1)) as [Hm (o' & Ho' & Heq)].
  { apply (preserves_exec _ (λ _, True)).
    - apply pres_enter_state; [done | apply facts_inv_stable_log |
                               apply facts_inv_stable_state].
    - split; [done |]. exists o. by rewrite Hheap. }
  destruct (method_Return_inv _ _ _ _ _ H2) as (o2 & Ho2 & Ha2 & _ & _).
  rewrite Ho' in Ho2. injection Ho2 as <-.
  rewrite Hm, (answer_same_facts _ _ _ _ _ Heq) in Ha2.
  by eapply (answer_exclusive i row x1 p1 x2 p2 (fov_map h) o).
Qed.

(** A run of the loop over a row is a run of its two checks with at most
    one [enter_state] in between or after. *)
Lemma transitions_at_most_once self i row x1 p1 x2 p2 h :
  chart !! i = Some row → cells 0 row = [(x1, p1); (x2, p2)] →
  transitions self (bound_row self row) 0 h =
    (method p1 self;; method p2 self;; mret tt) h ∨
  transitions self (bound_row self row) 0 h =
    (method p1 self;; enter_state self x1;; method p2 self;; mret tt) h ∨
  transitions self (bound_row self row) 0 h =
    (method p1 self;; method p2 self;; enter_state self x2) h.
Proof.
  intros Hrow Hcells.
  rewrite (transitions_two self i row x1 p1 x2 p2 h Hrow Hcells).
  pose proof (checks_exclusive_run self i row x1 p1 x2 p2 h) as Hex.
  unfold mbind, M_bind, mret, M_ret.
  destruct (method p1 self h) as [h1 [[|]|e1]] eqn:Hc1; cbv beta iota.
  - specialize (Hex h1 true). unfold exec in Hex.
    destruct (enter_state self x1 h1) as [h1' [[]|e]] eqn:He; cbv beta iota.
    + destruct (method p2 self h1') as [h2 [[|]|e2]] eqn:Hc2; cbv beta iota.
      * by specialize (Hex h2 true Hrow Hcells eq_refl Hc2).
      * right; by left.
      * right; by left.
    + right; by left.
  - destruct (method p2 self h1) as [h2 [[|]|e2]] eqn:Hc2; cbv beta iota.
    + right; right. by destruct (enter_state self x2 h2) as [h' [[]|e]].
    + by left.
    + by left.
  - by left.
Qed.

Lemma setattr_dangling f r h :
  heap h !! r = None → setattr f r h = (h, Raise AttributeError).
Proof. intros Ho. unfold setattr, mbind, M_bind, get_obj. by rewrite Ho. Qed.

Lemma getattr_no_attr {A : Type} has (f : Obj.t → A) r h o :
  heap h !! r = Some o → has (Obj.cls o) = false →
  getattr has f r h = (h, Raise AttributeError).
Proof.
  intros Ho Hc. unfold getattr, mbind, M_bind, get_obj. by rewrite Ho, Hc.
Qed.

(** [enter_state] is the assignment followed by at most one message. *)
Lemma enter_state_announces self x h :
  ∃ k, announcement k ∧
       enter_state self x h = (setattr (Obj.set_state x) self;; k) h.
Proof.
  unfold enter_state. destruct (heap h !! self) as [o|] eqn:Ho.
  - rewrite (bind_Return _ _ _ _ _ (setattr_Return _ _ _ _ Ho)).
    set (h1 := set_heap _ h).
    assert (heap h1 !! self = Some (Obj.set_state x o)) as Ho1.
    { subst h1. simpl. apply lookup_insert_eq. }
    assert (∀ k : M unit,
              (setattr (Obj.set_state x) self;; k) h = k h1) as Hk.
    { intros k. by rewrite (bind_Return _ _ _ _ _ (setattr_Return _ _ _ _ Ho)). }
    destruct (is_Mob (Obj.cls o)) eqn:Hc.
    + rewrite (bind_Return _ _ _ _ _ (getattr_Return is_Mob Obj.state _ _ _ Ho1 Hc)).
      change (Obj.state (Obj.set_state x o)) with x.
      destruct (x =? data.CHASE).
      * rewrite (bind_Return _ _ _ _ _
                   (getattr_Return any_class Obj.name _ _ _ Ho1 eq_refl)).
        eexists. split; [apply announce_message | by rewrite Hk].
      * rewrite (bind_Return _ _ _ _ _ (getattr_Return is_Mob Obj.state _ _ _ Ho1 Hc)).
        change (Obj.state (Obj.set_state x o)) with x.
        destruct (x =? data.RUN).
        -- rewrite (bind_Return _ _ _ _ _
                     (getattr_Return any_class Obj.name _ _ _ Ho1 eq_refl)).
           eexists. split; [apply announce_message | by rewrite Hk].
        -- eexists. split; [apply announce_nothing | by rewrite Hk].
    + rewrite (bind_Raise _ _ _ _ _ (getattr_no_attr is_Mob Obj.state _ _ _ Ho1 Hc)).
      exists (raise AttributeError). split; [apply announce_raise | by rewrite Hk].
  - rewrite (bind_Raise _ _ _ _ _ (setattr_dangling _ _ _ Ho)).
    exists (mret tt). split; [apply announce_nothing |].
    by rewrite (bind_Raise _ _ _ _ _ (setattr_dangling _ _ _ Ho)).
Qed.

(** C10: in every row of the transition table the two predicates exclude
    each other for any visibility map, attributes of the mob and morale
    rolls.  So in one call of [action_handler], although the loop runs
    every check of the row, the two checks never both answer true: the
    run of the loop is the run of the two checks with at most one
    [enter_state], which assigns the state once and emits at most one
    message. *)
Theorem C10_at_most_one_transition self i row :
  chart !! i = Some row →
  ∃ x1 p1 x2 p2,
    cells 0 row = [(x1, p1); (x2, p2)] ∧
    state_chart self !! i = Some (bound_row self row) ∧
    (∀ p h o, heap h !! self = Some o →
       eval (method p self) h = answer p (fov_map h) o (next_roll h)) ∧
    (∀ m o r1 r2,
       ¬ (answer p1 m o r1 = Return true ∧ answer p2 m o r2 = Return true)) ∧
    (∀ h h1 b1 h2 b2,
       method p1 self h = (h1, Return b1) →
       method p2 self
         (exec (if b1 then enter_state self x1 else mret tt) h1)
         = (h2, Return b2) →
       b1 && b2 = false) ∧
    (∀ h,
       transitions self (bound_row self row) 0 h =
         (method p1 self;; method p2 self;; mret tt) h ∨
       transitions self (bound_row self row) 0 h =
         (method p1 self;; enter_state self x1;; method p2 self;; mret tt) h ∨
       transitions self (bound_row self row) 0 h =
         (method p1 self;; method p2 self;; enter_state self x2) h) ∧
    (∀ x h, ∃ k, announcement k ∧
       enter_state self x h = (setattr (Obj.set_state x) self;; k) h).
Proof.
  intros Hrow.
  assert (∃ x1 p1 x2 p2, cells 0 row = [(x1, p1); (x2, p2)])
    as (x1 & p1 & x2 & p2 & Hcells).
  { destruct i as [|[|[|i]]]; simpl in Hrow; simplify_eq; simpl; eauto. }
  exists x1, p1, x2, p2. split_and!.
  - done.
  - by apply state_chart_bound.
  - intros p h o Ho. unfold eval. by rewrite (method_run p self h o Ho).
  - intros m o r1 r2 [H1 H2].
    by eapply (answer_exclusive i row x1 p1 x2 p2 m o r1 r2).
  - intros h h1 b1 h2 b2. by eapply checks_exclusive_run.
  - intros h. by eapply transitions_at_most_once.
  - intros x h. apply enter_state_announces.
Qed.

(** ** The choice of [chase] and [run] *)

Lemma scan_spec key offers k mv :
  (scan key offers k mv = (k, mv) ∧ ∀ q, q ∈ offers → k ≤ key q) ∨
  ∃ before p after,
    offers = before ++ (p :: after) ∧
    scan key offers k mv = (key p, Some p) ∧ key p < k ∧
    (∀ q, q ∈ before → key p < key q) ∧
    (∀ q, q ∈ after → key p ≤ key q).
Proof.
  revert k mv. induction offers as [|p rest IH]; intros k mv; simpl.
  - left. split; [done |]. intros q Hq. by apply elem_of_nil in Hq.
  - destruct (key p <? k) eqn:Hlt.
    + apply Z.ltb_lt in Hlt. right.
      destruct (IH (key p) (Some p)) as [[Hs Hmin] | Himp].
      * exists [], p, rest. split_and!; try done.
        intros q Hq. by apply elem_of_nil in Hq.
      * destruct Himp as (before & p' & after & -> & Hs & Hlt' & Hb & Ha).
        exists (p :: before), p', after. split_and!; try done; [lia |].
        intros q [-> | Hq]%elem_of_cons; [lia | by apply Hb].
    + apply Z.ltb_ge in Hlt.
      destruct (IH k mv) as [[Hs Hmin] | Himp].
      * left. split; [done |].
        intros q [-> | Hq]%elem_of_cons; [lia | by apply Hmin].
      * right.
        destruct Himp as (before & p' & after & -> & Hs & Hlt' & Hb & Ha).
        exists (p :: before), p', after. split_and!; try done.
        intros q [-> | Hq]%elem_of_cons; [lia | by apply Hb].
Qed.

Lemma doubles_exact_pair ns a b :
  doubles_exact ns = true → a ∈ ns → b ∈ ns →
  ∃ fa fb, sqrt_double a = Some fa ∧ sqrt_double b = Some fb ∧
           PyFloat.ltb fa fb = (a <? b).
Proof.
  intros Hex Ha Hb. unfold doubles_exact in Hex.
  rewrite forallb_forall in Hex.
  specialize (Hex a (proj1 (list_elem_of_In _ _) Ha)).
  rewrite forallb_forall in Hex.
  specialize (Hex b (proj1 (list_elem_of_In _ _) Hb)).
  unfold exact_pair in Hex.
  destruct (sqrt_double a) as [fa|]; [| done].
  destruct (sqrt_double b) as [fb|]; [| done].
  exists fa, fb. split_and!; [done | done |]. by apply Bool.eqb_prop.
Qed.

Lemma linear_dist_Return x1 x2 y1 y2 f h :
  sqrt_double (dist2 x1 y1 x2 y2) = Some f →
  linear_dist x1 x2 y1 y2 h = (h, Return f).
Proof.
  unfold sqrt_double, dist2, linear_dist. intros Hf.
  destruct (PyFloat.of_int _) as [f0|]; simpl in Hf; [| done].
  by simplify_eq.
Qed.

Lemma chase_condition_Return self so po h p :
  heap h !! self = Some so → heap h !! player h = Some po →
  chase_condition self p h =
    (h, Return ((Obj.x so + p.1 =? Obj.x po) && (Obj.y so + p.2 =? Obj.y po)
                && negb (game_state h =? DEAD))).
Proof.
  intros Hso Hpo. unfold chase_condition.
  rewrite (bind_Return _ _ _ _ _ (getattr_Return any_class _ _ _ _ Hso eq_refl)).
  rewrite (bind_Return _ _ _ _ _ (get_Return h)).
  rewrite (bind_Return _ _ _ _ _ (getattr_Return any_class _ _ _ _ Hpo eq_refl)).
  destruct (_ =? _); [| done].
  rewrite (bind_Return _ _ _ _ _ (getattr_Return any_class _ _ _ _ Hso eq_refl)).
  rewrite (bind_Return _ _ _ _ _ (get_Return h)).
  rewrite (bind_Return _ _ _ _ _ (getattr_Return any_class _ _ _ _ Hpo eq_refl)).
  destruct (_ =? _); [| done].
  by rewrite (bind_Return _ _ _ _ _ (get_Return h)).
Qed.

Section Choice.

Context (self target : ref) (h : handler) (so to : Obj.t).
Hypothesis Hso : heap h !! self = Some so.
Hypothesis Hto : heap h !! target = Some to.

Let dist (p : Z * Z) : Z :=
  dist2 (Obj.x so + p.1) (Obj.y so + p.2) (Obj.x to) (Obj.y to).
Let free := unblocked h (Obj.x so) (Obj.y so).

Context (ns : list Z).
Hypothesis Hexact : doubles_exact ns = true.

(** The loop of [chase], when it attacks nobody, is [scan] on the
    squared distances of the neighbours that are not blocked. *)
Lemma chase_loop_scan po posns k fk mv :
  heap h !! player h = Some po →
  (∀ p, p ∈ posns →
     (Obj.x so + p.1 =? Obj.x po) && (Obj.y so + p.2 =? Obj.y po)
     && negb (game_state h =? DEAD) = false) →
  k ∈ ns → (∀ p, p ∈ posns → dist p ∈ ns) → sqrt_double k = Some fk →
  ∃ fk',
    chase_loop self target posns fk mv h =
      (h, Return (fk', (scan dist (filter free posns) k mv).2)) ∧
    sqrt_double (scan dist (filter free posns) k mv).1 = Some fk'.
Proof.
  intros Hpo. revert k fk mv.
  induction posns as [|p rest IH]; intros k fk mv Hquiet Hk Hns Hfk.
  { exists fk. by split. }
  assert (∀ q, q ∈ rest →
            (Obj.x so + q.1 =? Obj.x po) && (Obj.y so + q.2 =? Obj.y po)
            && negb (game_state h =? DEAD) = false) as Hquiet'.
  { intros q Hq. apply Hquiet, elem_of_cons. by right. }
  assert (∀ q, q ∈ rest → dist q ∈ ns) as Hns'.
  { intros q Hq. apply Hns, elem_of_cons. by right. }
  cbn [chase_loop].
  rewrite (bind_Return _ _ _ _ _ (chase_condition_Return _ _ _ _ p Hso Hpo)).
  rewrite (Hquiet p) by (apply elem_of_cons; by left).
  rewrite (bind_Return _ _ _ _ _ (getattr_Return any_class _ _ _ _ Hso eq_refl)).
  rewrite (bind_Return _ _ _ _ _ (getattr_Return any_class _ _ _ _ Hso eq_refl)).
  rewrite (bind_Return _ _ _ _ _ (get_Return h)).
  destruct (is_solid h (Obj.x so + p.1) (Obj.y so + p.2)) eqn:Hsolid;
    cbn [negb].
  - rewrite filter_cons_False by (unfold free, unblocked; congruence).
    by apply IH.
  - rewrite filter_cons_True by done. cbn [scan].
    rewrite (bind_Return _ _ _ _ _ (getattr_Return any_class _ _ _ _ Hso eq_refl)).
    rewrite (bind_Return _ _ _ _ _ (getattr_Return any_class _ _ _ _ Hto eq_refl)).
    rewrite (bind_Return _ _ _ _ _ (getattr_Return any_class _ _ _ _ Hso eq_refl)).
    rewrite (bind_Return _ _ _ _ _ (getattr_Return any_class _ _ _ _ Hto eq_refl)).
    destruct (doubles_exact_pair ns (dist p) k Hexact)
      as (fa & fb & Hfa & Hfb & Hlt); [apply Hns, elem_of_cons; by left | done |].
    rewrite Hfk in Hfb. injection Hfb as <-.
    rewrite (bind_Return _ _ _ _ _ (linear_dist_Return _ _ _ _ fa h Hfa)).
    rewrite Hlt. destruct (dist p <? k).
    + apply IH; try done. apply Hns, elem_of_cons. by left.
    + by apply IH.
Qed.

(** The loop of [run] is [scan] on the opposites of the squared
    distances. *)
Lemma run_loop_scan posns k fk mv :
  k ∈ ns → (∀ p, p ∈ posns → dist p ∈ ns) → sqrt_double k = Some fk →
  ∃ fk',
    run_loop self target posns fk mv h =
      (h, Return (fk',
                  (scan (λ p, - dist p) (filter free posns) (- k) mv).2)) ∧
    sqrt_double (- (scan (λ p, - dist p) (filter free posns) (- k) mv).1)
      = Some fk'.
Proof.
  revert k fk mv.
  induction posns as [|p rest IH]; intros k fk mv Hk Hns Hfk.
  { exists fk. split; [done |]. simpl. by rewrite Z.opp_involutive. }
  assert (∀ q, q ∈ rest → dist q ∈ ns) as Hns'.
  { intros q Hq. apply Hns, elem_of_cons. by right. }
  cbn [run_loop].
  rewrite (bind_Return _ _ _ _ _ (getattr_Return any_class _ _ _ _ Hso eq_refl)).
  rewrite (bind_Return _ _ _ _ _ (getattr_Return any_class _ _ _ _ Hso eq_refl)).
  rewrite (bind_Return _ _ _ _ _ (get_Return h)).
  destruct (is_solid h (Obj.x so + p.1) (Obj.y so + p.2)) eqn:Hsolid;
    cbn [negb].
  - rewrite filter_cons_False by (unfold free, unblocked; congruence).
    by apply IH.
  - rewrite filter_cons_True by done. cbn [scan].
    rewrite (bind_Return _ _ _ _ _ (getattr_Return any_class _ _ _ _ Hso eq_refl)).
    rewrite (bind_Return _ _ _ _ _ (getattr_Return any_class _ _ _ _ Hto eq_refl)).
    rewrite (bind_Return _ _ _ _ _ (getattr_Return any_class _ _ _ _ Hso eq_refl)).
    rewrite (bind_Return _ _ _ _ _ (getattr_Return any_class _ _ _ _ Hto eq_refl)).
    destruct (doubles_exact_pair ns k (dist p) Hexact)
      as (fa & fb & Hfa & Hfb & Hlt); [done | apply Hns, elem_of_cons; by left |].
    rewrite Hfk in Hfa. injection Hfa as <-.
    rewrite (bind_Return _ _ _ _ _ (linear_dist_Return _ _ _ _ fb h Hfb)).
    rewrite Hlt.
    assert ((- dist p <? - k) = (k <? dist p)) as ->.
    { destruct (k <? dist p) eqn:Hc;
        [apply Z.ltb_lt in Hc; apply Z.ltb_lt; lia
        | apply Z.ltb_ge in Hc; apply Z.ltb_ge; lia]. }
    destruct (k <? dist p).
    + apply IH; try done. apply Hns, elem_of_cons. by left.
    + by apply IH.
Qed.

(** A step to a neighbour that is not blocked. *)
Lemma move_free p :
  free p → move self p.1 p.2 h = (step_to self so p h, Return tt).
Proof.
  intros Hfree. unfold move.
  rewrite (bind_Return _ _ _ _ _ (getattr_Return any_class _ _ _ _ Hso eq_refl)).
  rewrite (bind_Return _ _ _ _ _ (getattr_Return any_class _ _ _ _ Hso eq_refl)).
  rewrite (bind_Return _ _ _ _ _ (get_Return h)).
  unfold free, unblocked in Hfree. rewrite Hfree. cbn [negb].
  rewrite (bind_assoc (getattr any_class Obj.x self)).
  rewrite (bind_Return _ _ _ _ _ (getattr_Return any_class _ _ _ _ Hso eq_refl)).
  rewrite (bind_Return _ _ _ _ _ (setattr_Return _ _ _ _ Hso)).
  erewrite bind_Return; last first.
  { apply (getattr_Return any_class Obj.y); [| done].
    simpl. apply lookup_insert_eq. }
  erewrite setattr_Return; last first.
  { simpl. apply lookup_insert_eq. }
  unfold step_to. simpl. by rewrite insert_insert_eq.
Qed.

End Choice.

Lemma player_out_of_reach h so po p :
  player_in_reach h so po = false → p ∈ possible_posn →
  (Obj.x so + p.1 =? Obj.x po) && (Obj.y so + p.2 =? Obj.y po)
  && negb (game_state h =? DEAD) = false.
Proof.
  intros Hreach Hp. apply not_true_is_false. intros Hc.
  apply not_true_iff_false in Hreach. apply Hreach.
  apply existsb_exists. exists p. split; [by apply list_elem_of_In | done].
Qed.

(** C5: when [chase] attacks nobody (no neighbour of the mob is the tile
    of the player while the game is not over) it moves the mob to the
    neighbour, among (1,0), (-1,0), (0,1), (0,-1), that is not blocked,
    is strictly closer to the target than the mob is and is at the least
    Euclidean distance from the target, the first such neighbour in that
    order; it leaves the mob where it is when no neighbour that is not
    blocked is strictly closer.  [run] does the same with "strictly
    farther" and the greatest distance.  The distances are compared as
    doubles: the statement is for positions where rounding merges no two
    of the five distances, as [doubles_exact] checks. *)
Theorem C5_chase_and_run self target h so to :
  heap h !! self = Some so → heap h !! target = Some to →
  let dist := λ p : Z * Z,
    dist2 (Obj.x so + p.1) (Obj.y so + p.2) (Obj.x to) (Obj.y to) in
  let D := dist2 (Obj.x so) (Obj.y so) (Obj.x to) (Obj.y to) in
  let offers := filter (unblocked h (Obj.x so) (Obj.y so)) possible_posn in
  doubles_exact (D :: map dist possible_posn) = true →
  (∀ po, heap h !! player h = Some po → player_in_reach h so po = false →
     ∃ mv, chase self target h = (step_or_stay self so mv h, Return tt) ∧
           match mv with
           | Some p => closest offers dist D p
           | None => ∀ q, q ∈ offers → D ≤ dist q
           end) ∧
  (∃ mv, run self target h = (step_or_stay self so mv h, Return tt) ∧
         match mv with
         | Some p => farthest offers dist D p
         | None => ∀ q, q ∈ offers → dist q ≤ D
         end).
Proof.
  intros Hso Hto dist D offers Hexact.
  set (ns := D :: map dist possible_posn) in *.
  assert (D ∈ ns) as HD by (apply elem_of_cons; by left).
  assert (∀ p, p ∈ possible_posn → dist p ∈ ns) as Hns.
  { intros p Hp. apply elem_of_cons. right. by apply list_elem_of_fmap_2. }
  destruct (doubles_exact_pair ns D D Hexact HD HD) as (fD & _ & HfD & _ & _).
  assert (∀ p, p ∈ offers → unblocked h (Obj.x so) (Obj.y so) p) as Hfree.
  { intros p Hp. by apply list_elem_of_filter in Hp as [? _]. }
  split.
  - intros po Hpo Hreach.
    destruct (chase_loop_scan self target h so to Hso Hto ns Hexact po
                possible_posn D fD None Hpo) as (fk' & Hloop & _); try done.
    { intros p Hp. by apply player_out_of_reach. }
    change (chase_loop self target possible_posn fD None h =
              (h, Return (fk', (scan dist offers D None).2))) in Hloop.
    assert (∀ mv,
              (scan dist offers D None).2 = mv →
              (∀ p, mv = Some p → p ∈ offers) →
              chase self target h = (step_or_stay self so mv h, Return tt))
      as Hrun.
    { intros mv Hmv Hin. unfold chase.
      rewrite (bind_Return _ _ _ _ _ (getattr_Return any_class _ _ _ _ Hso eq_refl)).
      rewrite (bind_Return _ _ _ _ _ (getattr_Return any_class _ _ _ _ Hto eq_refl)).
      rewrite (bind_Return _ _ _ _ _ (getattr_Return any_class _ _ _ _ Hso eq_refl)).
      rewrite (bind_Return _ _ _ _ _ (getattr_Return any_class _ _ _ _ Hto eq_refl)).
      rewrite (bind_Return _ _ _ _ _ (linear_dist_Return _ _ _ _ fD h HfD)).
      rewrite (bind_Return _ _ _ _ _ Hloop). cbn [snd].
      rewrite Hmv. destruct mv as [p|]; [| done].
      apply (move_free self h so Hso). apply Hfree. by apply Hin. }
    destruct (scan_spec dist offers D None) as [[Hs Hmin] | Himp].
    + exists None. split; [| done]. apply Hrun; [by rewrite Hs | done].
    + destruct Himp as (before & p & after & Hoff & Hs & Hlt & Hb & Ha).
      exists (Some p). split.
      * apply Hrun; [by rewrite Hs |]. intros p' [= <-]. rewrite Hoff.
        apply elem_of_app. right. apply elem_of_cons. by left.
      * by exists before, after.
  - destruct (run_loop_scan self target h so to Hso Hto ns Hexact
                possible_posn D fD None) as (fk' & Hloop & _); try done.
    change (run_loop self target possible_posn fD None h =
              (h, Return (fk', (scan (λ p, - dist p) offers (- D) None).2)))
      in Hloop.
    assert (∀ mv,
              (scan (λ p, - dist p) offers (- D) None).2 = mv →
              (∀ p, mv = Some p → p ∈ offers) →
              run self target h = (step_or_stay self so mv h, Return tt))
      as Hrun.
    { intros mv Hmv Hin. unfold run.
      rewrite (bind_Return _ _ _ _ _ (getattr_Return any_class _ _ _ _ Hso eq_refl)).
      rewrite (bind_Return _ _ _ _ _ (getattr_Return any_class _ _ _ _ Hto eq_refl)).
      rewrite (bind_Return _ _ _ _ _ (getattr_Return any_class _ _ _ _ Hso eq_refl)).
      rewrite (bind_Return _ _ _ _ _ (getattr_Return any_class _ _ _ _ Hto eq_refl)).
      rewrite (bind_Return _ _ _ _ _ (linear_dist_Return _ _ _ _ fD h HfD)).
      rewrite (bind_Return _ _ _ _ _ Hloop). cbn [snd].
      rewrite Hmv. destruct mv as [p|]; [| done].
      apply (move_free self h so Hso). apply Hfree. by apply Hin. }
    destruct (scan_spec (λ p, - dist p) offers (- D) None)
      as [[Hs Hmin] | Himp].
    + exists None. split; [apply Hrun; [by rewrite Hs | done] |].
      intros q Hq. specialize (Hmin q Hq). simpl in Hmin. lia.
    + destruct Himp as (before & p & after & Hoff & Hs & Hlt & Hb & Ha).
      exists (Some p). split.
      * apply Hrun; [by rewrite Hs |]. intros p' [= <-]. rewrite Hoff.
        apply elem_of_app. right. apply elem_of_cons. by left.
      * exists before, after. split_and!; [done | lia | |].
        -- intros q Hq. specialize (Hb q Hq). simpl in Hb. lia.
        -- intros q Hq. specialize (Ha q Hq). simpl in Ha. lia.
Qed.

(** ** The else clause of [move_or_attack] *)

(** The loop of [move_or_attack] has no [break]: whenever the scan comes
    to its end, with or without an attack, the visibility map is marked
    for recomputation and [move] is called. *)
Lemma move_or_attack_after_scan self dx dy h :
  move_or_attack self dx dy h =
    (for_mobs (length (mobs h)) 0 (move_or_attack_body self dx dy);;
     modify (set_fov_refresh true);;
     move self dx dy) h.
Proof.
  unfold move_or_attack. by rewrite (bind_Return _ _ _ _ _ (get_Return h)).
Qed.

Lemma move_or_attack_requests_fov self dx dy h h' :
  move_or_attack self dx dy h = (h', Return tt) → fov_refresh h' = true.
Proof.
  rewrite move_or_attack_after_scan. unfold mbind at 1, M_bind at 1.
  destruct (for_mobs _ _ _ h) as [h1 [[]|e]]; [| done].
  rewrite (bind_Return _ _ _ _ _ (modify_Return _ h1)). intros Hmove.
  assert (preserves (λ h0, fov_refresh h0 = true) (λ _, True)
            (move self dx dy)) as Hp.
  { apply pres_move; [done | |]; by intros v h0 o Ih Ho. }
  destruct (Hp (set_fov_refresh true h1) eq_refl) as [Hfov _].
  by rewrite Hmove in Hfov.
Qed.

(** ** The message log *)

Lemma keep_last_length {A : Type} n (l : list A) :
  (length (keep_last n l) ≤ n)%nat.
Proof. unfold keep_last. rewrite length_drop. lia. Qed.

Lemma keep_last_all {A : Type} n (l : list A) :
  (length l ≤ n)%nat → keep_last n l = l.
Proof.
  intros Hl. unfold keep_last.
  by replace (length l - n)%nat with 0%nat by lia.
Qed.

Lemma keep_last_app {A : Type} n (a b : list A) :
  keep_last n (keep_last n a ++ b) = keep_last n (a ++ b).
Proof.
  destruct (decide (length a ≤ n)%nat) as [Hle|Hgt].
  - by rewrite (keep_last_all n a).
  - unfold keep_last. rewrite !length_app, length_drop.
    replace (length a - (length a - n) + length b - n)%nat with (length b) by lia.
    replace (length a + length b - n)%nat with ((length a - n) + length b)%nat by lia.
    rewrite <- (drop_drop (a ++ b)).
    rewrite (drop_app_le a b) by lia. done.
Qed.

Lemma set_messages_twice a b h :
  set_messages a (set_messages b h) = set_messages a h.
Proof. reflexivity. Qed.

Lemma set_messages_id h : set_messages (messages h) h = h.
Proof. by destruct h. Qed.

Lemma append_line_bounded line colour h :
  1 ≤ max_messages → Z.of_nat (length (messages h)) ≤ max_messages →
  append_line line colour h =
    (set_messages
       (keep_last (Z.to_nat max_messages) (messages h ++ [(line, colour)])) h,
     Return tt).
Proof.
  intros Hmax Hlen. unfold append_line.
  rewrite (bind_Return _ _ _ _ _ (get_Return h)).
  destruct (Z.of_nat (length (messages h)) =? max_messages) eqn:Heq.
  - apply Z.eqb_eq in Heq.
    destruct (messages h) as [|m ms] eqn:Hms; [simpl in Heq; lia |].
    rewrite (bind_Return _ _ _ _ _ (modify_Return _ h)).
    rewrite modify_Return. simpl messages. rewrite set_messages_twice.
    do 2 f_equal. unfold keep_last. rewrite length_app. simpl length in *.
    replace (S (length ms) + 1 - Z.to_nat max_messages)%nat with 1%nat by lia.
    done.
  - apply Z.eqb_neq in Heq.
    rewrite (bind_Return _ _ _ _ _ (eq_refl : (mret tt : M unit) h = (h, Return tt))).
    rewrite modify_Return. do 2 f_equal.
    rewrite keep_last_all; [done |]. rewrite length_app. simpl. lia.
Qed.

(** X1: While the log holds at most [max_messages] entries, [add_msg]
    appends the wrapped lines and keeps the latest [max_messages]
    entries, so the bound holds again afterwards. *)
Theorem add_msg_keeps_latest msg colour h :
  1 ≤ max_messages → Z.of_nat (length (messages h)) ≤ max_messages →
  add_msg msg colour h =
    (set_messages
       (keep_last (Z.to_nat max_messages)
          (messages h ++ log_lines (wrap msg) colour)) h,
     Return tt) ∧
  Z.of_nat (length (messages (exec (add_msg msg colour) h))) ≤ max_messages.
Proof.
  intros Hmax Hlen.
  assert (∀ lines h0,
            Z.of_nat (length (messages h0)) ≤ max_messages →
            add_lines lines colour h0 =
              (set_messages
                 (keep_last (Z.to_nat max_messages)
                    (messages h0 ++ log_lines lines colour)) h0,
               Return tt)) as Hlines.
  { induction lines as [|line rest IH]; intros h0 Hlen0; simpl.
    - rewrite app_nil_r, keep_last_all by lia. by rewrite set_messages_id.
    - rewrite (bind_Return _ _ _ _ _ (append_line_bounded line colour h0 Hmax Hlen0)).
      rewrite IH.
      + simpl messages. rewrite set_messages_twice, keep_last_app.
        by rewrite <- app_assoc.
      + simpl messages.
        pose proof (keep_last_length (Z.to_nat max_messages)
                      (messages h0 ++ [(line, colour)])). lia. }
  unfold exec, add_msg. rewrite (Hlines _ h Hlen). split; [done |].
  simpl.
  pose proof (keep_last_length (Z.to_nat max_messages)
                (messages h ++ log_lines (wrap msg) colour)). lia.
Qed.

(** X2: The bound is kept by an equality test only: a log that is longer
    than [max_messages] is never trimmed. *)
Theorem add_msg_overfull_grows msg colour h :
  max_messages < Z.of_nat (length (messages h)) →
  add_msg msg colour h =
    (set_messages (messages h ++ log_lines (wrap msg) colour) h, Return tt).
Proof.
  intros Hlen. unfold add_msg.
  revert h Hlen. induction (wrap msg) as [|line rest IH]; intros h Hlen; simpl.
  - by rewrite app_nil_r, set_messages_id.
  - unfold append_line at 1.
    rewrite (bind_assoc get), (bind_Return _ _ _ _ _ (get_Return h)).
    assert ((Z.of_nat (length (messages h)) =? max_messages) = false) as ->
      by (apply Z.eqb_neq; lia).
    rewrite (bind_assoc (mret tt)).
    rewrite (bind_Return _ _ _ _ _ (eq_refl : (mret tt : M unit) h = (h, Return tt))).
    rewrite (bind_Return _ _ _ _ _ (modify_Return _ h)).
    rewrite IH.
    + simpl messages. rewrite set_messages_twice. by rewrite <- app_assoc.
    + simpl messages. rewrite length_app. simpl. lia.
Qed.

(** X3: With [max_messages = 0] the first line added to an empty log makes
    [del self.messages[0]] fail. *)
Theorem add_msg_zero_capacity msg colour h line rest :
  max_messages = 0 → messages h = [] → wrap msg = line :: rest →
  add_msg msg colour h = (h, Raise IndexError).
Proof.
  intros Hmax Hms Hwrap. unfold add_msg. rewrite Hwrap. simpl.
  unfold append_line.
  rewrite (bind_assoc get), (bind_Return _ _ _ _ _ (get_Return h)).
  rewrite Hms, Hmax. simpl.
  reflexivity.
Qed.

(** ** Death of a mob outside the registry, and a second death *)

Lemma send_to_back_unregistered self h :
  self ∉ mobs h → send_to_back self h = (h, Raise ValueError).
Proof.
  intros Hnin. unfold send_to_back.
  rewrite (bind_Return _ _ _ _ _ (get_Return h)).
  by rewrite (remove_first_None _ _ Hnin).
Qed.

(** X4: [list.remove] raises [ValueError] for a mob that is not in the
    registry; [Mob.die] has written the glyph, the solidity and the state
    by then, and the registry is as it was. *)
Theorem Mob_die_unregistered self h o d :
  heap h !! self = Some o → Obj.cls o = cMob → self ∉ mobs h →
  Obj.hp o ≤ d →
  Mob_die self h =
    (set_heap (<[self := Obj.set_state DEAD
                  (Obj.set_solid false (Obj.set_char "X" o))]> (heap h)) h,
     Raise ValueError) ∧
  take_damage die self d h =
    (set_heap (<[self := Obj.set_state DEAD
                  (Obj.set_solid false
                     (Obj.set_char "X" (Obj.set_hp 0 o)))]> (heap h)) h,
     Raise ValueError).
Proof.
  intros Ho Hcls Hnin Hd.
  assert (∀ h0 o0, heap h0 !! self = Some o0 → mobs h0 = mobs h →
            Mob_die self h0 =
              (set_heap (<[self := Obj.set_state DEAD
                            (Obj.set_solid false (Obj.set_char "X" o0))]>
                           (heap h0)) h0,
               Raise ValueError)) as Hdie.
  { intros h0 o0 Ho0 Hm. unfold Mob_die.
    rewrite (bind_Return _ _ _ _ _ (setattr_Return _ self h0 o0 Ho0)).
    erewrite bind_Return; last first.
    { apply setattr_Return. simpl. apply lookup_insert_eq. }
    erewrite bind_Return; last first.
    { apply setattr_Return. simpl. apply lookup_insert_eq. }
    rewrite send_to_back_unregistered by (simpl; by rewrite Hm).
    simpl. by rewrite !insert_insert_eq. }
  split; [by apply Hdie |].
  rewrite (take_damage_lethal _ _ _ _ _ Ho); [| by rewrite Hcls | lia].
  erewrite die_Mob; [| simpl; apply lookup_insert_eq | done].
  erewrite Hdie; [| simpl; apply lookup_insert_eq | done].
  simpl. by rewrite insert_insert_eq.
Qed.

Lemma remove_first_head v l : remove_first v (v :: l) = Some l.
Proof. simpl. by rewrite decide_True. Qed.

(** X5: [Mob.die] only reorders the registry, and a second death changes
    nothing: the mob is at the front already and has the attributes of a
    dead mob. *)
Theorem Mob_die_idempotent self h o :
  heap h !! self = Some o → self ∈ mobs h →
  mobs (exec (Mob_die self) h) ≡ₚ mobs h ∧
  mobs (exec (Mob_die self) h) !! 0%nat = Some self ∧
  (∀ r, r ≠ self → heap (exec (Mob_die self) h) !! r = heap h !! r) ∧
  Mob_die self (exec (Mob_die self) h) = (exec (Mob_die self) h, Return tt).
Proof.
  intros Ho Hin.
  destruct (remove_first_split self (mobs h) Hin)
    as (before & after & Hm & Hnb & _).
  unfold exec. rewrite (Mob_die_Return _ _ _ _ _ Ho Hm Hnb). simpl.
  split_and!.
  - rewrite Hm. by rewrite Permutation_middle.
  - done.
  - intros r Hr. by rewrite lookup_insert_ne.
  - erewrite (Mob_die_Return self _ _ [] (before ++ after));
      [| simpl; apply lookup_insert_eq | done | apply not_elem_of_nil].
    simpl. rewrite insert_insert_eq. done.
Qed.

(** ** Attacks *)

(** X6: An attacker with a negative attack strength: [randrange] refuses
    the empty range and nothing has changed. *)
Theorem deal_damage_negative_atk hook self target h so to :
  heap h !! self = Some so → is_CombatEntity (Obj.cls so) = true →
  heap h !! target = Some to → is_CombatEntity (Obj.cls to) = true →
  Obj.atk so < 0 →
  deal_damage hook self target h = (h, Raise ValueError).
Proof.
  intros Hso Hcs Hto Hct Hatk. unfold deal_damage.
  rewrite (bind_Return _ _ _ _ _ (hasattr_hp_Return _ _ _ Hto)), Hct.
  rewrite (bind_Return _ _ _ _ _ (getattr_Return _ _ _ _ _ Hso Hcs)).
  unfold mbind at 1, M_bind at 1, randrange.
  assert ((Obj.atk so + 1 <=? 0) = true) as -> by (apply Z.leb_le; lia).
  done.
Qed.

(** X7: The outcome of an attack on a registered mob: the draw is
    returned, the generator has advanced by one, the target keeps
    [max 0 (hp - dmg)] hit points, and it is dead and first in the
    registry exactly when the draw reaches its hit points.  Flag, log
    and the other objects are untouched. *)
Theorem deal_damage_on_mob self target h so to :
  heap h !! self = Some so → is_CombatEntity (Obj.cls so) = true →
  heap h !! target = Some to → Obj.cls to = cMob → target ∈ mobs h →
  0 ≤ Obj.atk so →
  ∃ h' to',
    deal_damage die self target h =
      (h', Return (Some (draws h (drawn h) `mod` (Obj.atk so + 1)))) ∧
    drawn h' = S (drawn h) ∧
    heap h' = <[target := to']> (heap h) ∧
    Obj.hp to' = Z.max 0 (Obj.hp to - draws h (drawn h) `mod` (Obj.atk so + 1)) ∧
    (draws h (drawn h) `mod` (Obj.atk so + 1) < Obj.hp to →
       to' = Obj.set_hp (Obj.hp to') to ∧ mobs h' = mobs h) ∧
    (Obj.hp to ≤ draws h (drawn h) `mod` (Obj.atk so + 1) →
       Obj.state to' = DEAD ∧ Obj.solid to' = false ∧
       mobs h' !! 0%nat = Some target ∧ mobs h' ≡ₚ mobs h) ∧
    game_state h' = game_state h ∧ messages h' = messages h.
Proof.
  intros Hso Hcs Hto Hct Hin Hatk.
  set (dmg := draws h (drawn h) `mod` (Obj.atk so + 1)).
  assert (is_CombatEntity (Obj.cls to) = true) as Hcc by (by rewrite Hct).
  unfold deal_damage.
  rewrite (bind_Return _ _ _ _ _ (hasattr_hp_Return _ _ _ Hto)), Hcc.
  rewrite (bind_Return _ _ _ _ _ (getattr_Return _ _ _ _ _ Hso Hcs)).
  rewrite (bind_Return _ _ _ _ _
             (randrange_Return (Obj.atk so + 1) h ltac:(lia))).
  fold dmg.
  destruct (decide (dmg < Obj.hp to)) as [Hlt|Hge].
  - erewrite bind_Return; last first.
    { apply (take_damage_wound _ target dmg _ to); [done | done | done]. }
    eexists _, _. split; [reflexivity |]. simpl.
    split_and!; try done; [simpl; lia | intros; lia].
  - destruct (remove_first_split target (mobs h) Hin)
      as (before & after & Hm & Hnb & _).
    erewrite bind_Return; last first.
    { rewrite (take_damage_lethal _ target dmg _ to); [| done | done | lia].
      erewrite die_Mob; [| simpl; apply lookup_insert_eq | done].
      erewrite Mob_die_Return;
        [| simpl; apply lookup_insert_eq | exact Hm | done].
      reflexivity. }
    eexists _, (Obj.set_state DEAD
                  (Obj.set_solid false (Obj.set_char "X" (Obj.set_hp 0 to)))).
    split; [reflexivity |]. simpl.
    split_and!; try done.
    + by rewrite insert_insert_eq.
    + lia.
    + intros _. split_and!; try done. rewrite Hm. by rewrite Permutation_middle.
Qed.

(** ** The scan of the registry *)

Lemma bind_ext {A B : Type} (m : M A) (f g : A → M B) h :
  (∀ h1 a, m h = (h1, Return a) → f a h1 = g a h1) →
  (m ≫= f) h = (m ≫= g) h.
Proof.
  intros Hfg. unfold mbind, M_bind.
  destruct (m h) as [h1 [a|e]]; [by apply Hfg | done].
Qed.

Section StableAt.

Context (I : handler → Prop) (E : exn → Prop).
Hypothesis HE : python_exn E.

Lemma pres_send_to_back_of r :
  stable_front_of I r → preserves I E (send_to_back r).
Proof.
  intros Hfront h Ih. unfold send_to_back.
  rewrite (bind_Return _ _ _ _ _ (get_Return h)).
  destruct (remove_first r (mobs h)) as [l|] eqn:Hr.
  - rewrite (bind_Return _ _ _ _ _ (modify_Return _ h)). simpl.
    split; [| intros e He; discriminate He].
    apply (Hfront h l Ih Hr).
  - rewrite (bind_Raise _ _ _ _ _ (eq_refl : raise ValueError h = _)).
    split; [done | intros e He; simpl in He; simplify_eq; apply HE].
Qed.

Lemma pres_die_of r :
  stable_flag I → stable_front_of I r → stable_death I r →
  preserves I E (die r).
Proof.
  intros Hflag Hfront Hdeath. unfold die.
  apply pres_bind; [apply pres_get_obj, HE |]. intros o.
  destruct (Obj.cls o).
  - apply pres_raise, HE.
  - apply pres_ret.
  - apply pres_Player_die; [done | done | apply Hdeath].
  - destruct Hdeath as (Hchar & Hsolid & Hstate). unfold Mob_die.
    apply pres_bind; [apply pres_setattr; [apply HE | apply Hchar] |].
    intros _.
    apply pres_bind; [apply pres_setattr; [apply HE | apply Hsolid] |].
    intros _.
    apply pres_bind; [apply pres_setattr; [apply HE | apply Hstate] |].
    intros _. by apply pres_send_to_back_of.
Qed.

Lemma pres_deal_damage_of self target :
  stable_rng I → stable_flag I → stable_front_of I target →
  stable_death I target →
  (∀ v, stable_setattr I target (Obj.set_hp v)) →
  preserves I E (deal_damage die self target).
Proof.
  intros Hrng Hflag Hfront Hdeath Hhp. unfold deal_damage.
  apply pres_bind; [apply pres_hasattr_hp, HE |]. intros has.
  destruct has; [| apply pres_ret].
  apply pres_bind; [apply pres_getattr, HE |]. intros atk.
  apply pres_bind.
  { apply pres_randrange; [apply HE | intros h Ih; by apply Hrng]. }
  intros dmg. apply pres_bind; [| intros _; apply pres_ret].
  unfold take_damage.
  apply pres_bind; [apply pres_getattr, HE |]. intros hp.
  destruct (_ <=? _).
  - apply pres_bind; [apply pres_setattr; [apply HE | apply Hhp] |].
    intros _. by apply pres_die_of.
  - apply pres_bind; [apply pres_getattr, HE |]. intros hp0.
    apply pres_setattr; [apply HE | apply Hhp].
Qed.

Lemma pres_move_or_attack_body_of self dx dy mob :
  stable_log I → stable_rng I → stable_flag I → stable_front_of I mob →
  stable_death I mob →
  (∀ v, stable_setattr I mob (Obj.set_hp v)) →
  (∀ v, stable_setattr I mob (Obj.set_name v)) →
  preserves I E (move_or_attack_body self dx dy mob).
Proof.
  intros Hlog Hrng Hflag Hfront Hdeath Hhp Hname.
  unfold move_or_attack_body.
  apply pres_bind; [apply pres_getattr, HE |]. intros mx.
  apply pres_bind; [apply pres_getattr, HE |]. intros sx.
  apply pres_bind.
  { destruct (_ =? _); [| apply pres_ret].
    apply pres_bind; [apply pres_getattr, HE |]. intros my.
    apply pres_bind; [apply pres_getattr, HE |]. intros sy.
    destruct (_ =? _); [apply pres_getattr, HE | apply pres_ret]. }
  intros c. destruct c; [| apply pres_ret].
  apply pres_bind.
  { by apply pres_deal_damage_of. }
  intros dmg. apply pres_bind.
  { destruct (truthy dmg).
    - apply pres_bind; [apply pres_getattr, HE |]. intros nm.
      by apply pres_add_msg.
    - by apply pres_add_msg. }
  intros _. apply pres_bind; [apply pres_getattr, HE |]. intros st.
  destruct (_ =? _); [| apply pres_ret].
  apply pres_bind; [apply pres_getattr, HE |]. intros nm.
  apply pres_bind; [by apply pres_add_msg |]. intros _.
  apply pres_bind; [apply pres_getattr, HE |]. intros nm0.
  apply pres_setattr; [apply HE | apply Hname].
Qed.

End StableAt.

Lemma scan_inv_front i t n mob : stable_front_of (scan_inv i t n mob) mob.
Proof.
  intros h l (Ht & Hn & j & Hj & Hlook) Hr.
  destruct (remove_first_split mob (mobs h)) as (before & after & Hm & Hnb & Hr').
  { by eapply list_elem_of_lookup_2. }
  rewrite Hr in Hr'. simplify_eq.
  assert (length before ≤ j)%nat as Hb.
  { destruct (decide (length before ≤ j)%nat) as [|Hlt]; [done|].
    exfalso. apply Hnb. rewrite Hm in Hlook.
    rewrite lookup_app_l in Hlook by lia. by eapply list_elem_of_lookup_2. }
  unfold scan_inv. simpl. split_and!.
  - rewrite Hm. rewrite !drop_app_ge by lia.
    replace (S i - length before)%nat with (S (i - length before)) by lia.
    done.
  - rewrite Hm. rewrite !length_app. simpl. lia.
  - exists 0%nat. split; [lia | done].
Qed.

Lemma pres_body_scan_inv self dx dy i t n mob :
  preserves (scan_inv i t n mob) (λ _, True)
    (move_or_attack_body self dx dy mob).
Proof.
  apply pres_move_or_attack_body_of.
  - apply python_exn_True.
  - by intros h v Ih.
  - by intros h v Ih.
  - by intros h v Ih.
  - apply scan_inv_front.
  - split_and!; by intros v h o Ih Ho.
  - by intros v h o Ih Ho.
  - by intros v h o Ih Ho.
Qed.

Lemma for_mobs_for_each self dx dy bound i h :
  (length (mobs h) ≤ bound + i)%nat →
  for_mobs bound i (move_or_attack_body self dx dy) h =
    for_each (drop i (mobs h)) (move_or_attack_body self dx dy) h.
Proof.
  revert i h. induction bound as [|bound IH]; intros i h Hn; simpl.
  - rewrite (bind_Return _ _ _ _ _ (get_Return h)).
    rewrite lookup_ge_None_2 by lia. by rewrite drop_ge by lia.
  - rewrite (bind_Return _ _ _ _ _ (get_Return h)).
    destruct (mobs h !! i) as [mob|] eqn:Hi.
    + rewrite (drop_S _ _ _ Hi). simpl.
      destruct (pres_body_scan_inv self dx dy i (drop (S i) (mobs h))
                  (length (mobs h)) mob h) as [(Ht & Hlen & _) _].
      { split_and!; [done | done | by exists i]. }
      apply bind_ext. intros h1 [] Hbody. rewrite Hbody in Ht, Hlen.
      simpl in Ht, Hlen. rewrite IH by lia. by rewrite Ht.
    + apply lookup_ge_None in Hi. by rewrite drop_ge by lia.
Qed.

(** X8: The list iterator of [move_or_attack] reads the registry by index
    while [die] reorders it; it still visits the mobs of the registry as
    it was before the loop, each once and in order, and the bound of
    [for_mobs] is never hit. *)
Theorem move_or_attack_visits_registry self dx dy h :
  move_or_attack self dx dy h =
    (for_each (mobs h) (move_or_attack_body self dx dy);;
     modify (set_fov_refresh true);;
     move self dx dy) h.
Proof.
  rewrite move_or_attack_after_scan.
  unfold mbind at 1 3, M_bind at 1 3.
  rewrite for_mobs_for_each by lia. by rewrite drop_0.
Qed.

Lemma move_or_attack_body_skip self dx dy mob h so :
  heap h !! self = Some so → is_Some (heap h !! mob) →
  blocks h (Obj.x so + dx) (Obj.y so + dy) mob = false →
  move_or_attack_body self dx dy mob h = (h, Return tt).
Proof.
  intros Hso [o Ho] Hb. unfold blocks in Hb. rewrite Ho in Hb.
  unfold move_or_attack_body.
  rewrite (bind_Return _ _ _ _ _ (getattr_Return any_class _ _ _ _ Ho eq_refl)).
  rewrite (bind_Return _ _ _ _ _ (getattr_Return any_class _ _ _ _ Hso eq_refl)).
  destruct (Obj.x o =? Obj.x so + dx) eqn:Hx; [| done].
  rewrite (bind_assoc (getattr any_class Obj.y mob)).
  rewrite (bind_Return _ _ _ _ _ (getattr_Return any_class _ _ _ _ Ho eq_refl)).
  rewrite (bind_assoc (getattr any_class Obj.y self)).
  rewrite (bind_Return _ _ _ _ _ (getattr_Return any_class _ _ _ _ Hso eq_refl)).
  destruct (Obj.y o =? Obj.y so + dy) eqn:Hy; [| done].
  rewrite (bind_Return _ _ _ _ _ (getattr_Return any_class _ _ _ _ Ho eq_refl)).
  simpl in Hb. by rewrite Hb.
Qed.

(** X9: Without a solid mob on the destination tile, [move_or_attack] is a
    request for a new field of view followed by [move]: no attack, no
    message, no draw. *)
Theorem move_or_attack_free self dx dy h so :
  heap h !! self = Some so →
  (∀ mob, mob ∈ mobs h →
          is_Some (heap h !! mob) ∧
          blocks h (Obj.x so + dx) (Obj.y so + dy) mob = false) →
  move_or_attack self dx dy h = move self dx dy (set_fov_refresh true h).
Proof.
  intros Hso Hfree. rewrite move_or_attack_after_scan.
  unfold mbind at 1, M_bind at 1.
  rewrite for_mobs_for_each by lia. rewrite drop_0.
  assert (∀ l, (∀ mob, mob ∈ l →
                  is_Some (heap h !! mob) ∧
                  blocks h (Obj.x so + dx) (Obj.y so + dy) mob = false) →
               for_each l (move_or_attack_body self dx dy) h = (h, Return tt))
    as Hskip.
  { induction l as [|mob l IH]; intros Hl; simpl; [done |].
    destruct (Hl mob) as [Hsome Hb]; [apply elem_of_cons; by left |].
    rewrite (bind_Return _ _ _ _ _
               (move_or_attack_body_skip self dx dy mob h so Hso Hsome Hb)).
    apply IH. intros m Hm. apply Hl. apply elem_of_cons. by right. }
  rewrite (Hskip _ Hfree).
  by rewrite (bind_Return _ _ _ _ _ (modify_Return _ h)).
Qed.

(** ** [healthy] and exact arithmetic *)

Lemma thresholds_exact_at n lo m :
  thresholds_exact n lo = true → lo ≤ m < lo + Z.of_nat n →
  threshold_exact m = true.
Proof.
  revert lo. induction n as [|n IH]; intros lo Hall Hm; [lia |].
  simpl in Hall. apply andb_prop in Hall as [Hlo Hrest].
  destruct (decide (m = lo)) as [->|Hne]; [done |].
  apply (IH (lo + 1)); [done | lia].
Qed.

Lemma int_ge_threshold o t :
  is_CombatEntity (Obj.cls o) = true →
  healthy_threshold (Obj.max_hp o) = Some t →
  healthy_value o = Return (t <=? Obj.hp o).
Proof.
  intros Hc Ht. unfold healthy_value, healthy_threshold in *. rewrite Hc.
  destruct (PyFloat.of_int (Obj.max_hp o)) as [f|]; [| done].
  destruct (PyFloat.mul PyFloat.c0_4 f) as [s|s| |s mm e]; try done.
  - by simplify_eq.
  - destruct s; [done |]. simplify_eq. unfold PyFloat.int_ge. f_equal.
    destruct (0 <=? e) eqn:He; [done |].
    apply Z.leb_gt in He.
    assert (0 < 2 ^ (- e)) as Hpow by (apply Z.pow_pos_nonneg; lia).
    apply eq_true_iff_eq. rewrite !Z.leb_le.
    pose proof (Z.div_mod (Z.pos mm + 2 ^ (- e) - 1) (2 ^ (- e))
                  ltac:(lia)) as Hdm.
    pose proof (Z.mod_pos_bound (Z.pos mm + 2 ^ (- e) - 1) (2 ^ (- e)) Hpow)
      as Hr.
    split; intros Hle; nia.
Qed.

Lemma thresholds_exact_checked :
  thresholds_exact (Z.to_nat 10001) 0 = true.
Proof. vm_cast_no_check (eq_refl true). Qed.

(** X10: For up to 10000 maximal hit points [healthy] decides
    [hp >= 0.4 * max_hp] as exact arithmetic does: neither the literal
    [0.4] nor the rounding of the product moves the threshold. *)
Theorem healthy_exact self h o :
  heap h !! self = Some o → is_CombatEntity (Obj.cls o) = true →
  0 ≤ Obj.max_hp o ≤ 10000 →
  healthy self h = (h, Return (2 * Obj.max_hp o <=? 5 * Obj.hp o)).
Proof.
  intros Ho Hc Hm. rewrite (healthy_run _ _ _ Ho).
  pose proof (thresholds_exact_at _ _ (Obj.max_hp o)
                thresholds_exact_checked ltac:(lia)) as Hex.
  unfold threshold_exact in Hex.
  destruct (healthy_threshold (Obj.max_hp o)) as [t|] eqn:Ht; [| done].
  apply Z.eqb_eq in Hex. rewrite (int_ge_threshold _ _ Hc Ht). do 2 f_equal.
  subst t. apply eq_true_iff_eq. rewrite !Z.leb_le.
  pose proof (Z.div_mod (2 * Obj.max_hp o + 4) 5 ltac:(lia)).
  pose proof (Z.mod_pos_bound (2 * Obj.max_hp o + 4) 5 ltac:(lia)).
  lia.
Qed.

(** ** Square roots of squared distances *)

Lemma ltb_rank f1 f2 r1 r2 :
  rank f1 = Some r1 → rank f2 = Some r2 →
  PyFloat.ltb f1 f2 = rank_lt r1 r2.
Proof.
  destruct f1 as [| | |[] m1 e1], f2 as [| | |[] m2 e2]; try done.
  intros [= <-] [= <-]. unfold PyFloat.ltb, SFltb, SFcompare, rank_lt.
  cbn [fst snd]. unfold Pos.ltb.
  change (PosDef.Pos.compare_cont Eq m1 m2) with (m1 ?= m2)%positive.
  destruct (Z.compare_spec e1 e2) as [->|Hlt|Hgt].
  - rewrite Z.ltb_irrefl, Z.eqb_refl. simpl. by destruct (m1 ?= m2)%positive.
  - by assert ((e1 <? e2) = true) as -> by (apply Z.ltb_lt; lia).
  - assert ((e1 <? e2) = false) as -> by (apply Z.ltb_ge; lia).
    by assert ((e1 =? e2) = false) as -> by (apply Z.eqb_neq; lia).
Qed.

Lemma rank_lt_spec a b :
  rank_lt a b = true ↔ a.1 < b.1 ∨ (a.1 = b.1 ∧ (a.2 < b.2)%positive).
Proof.
  unfold rank_lt.
  rewrite orb_true_iff, andb_true_iff, Z.ltb_lt, Z.eqb_eq, Pos.ltb_lt. done.
Qed.

Lemma rank_lt_trans a b c :
  rank_lt a b = true → rank_lt b c = true → rank_lt a c = true.
Proof. rewrite !rank_lt_spec. lia. Qed.

Lemma rank_lt_asym a b : rank_lt a b = true → rank_lt b a = false.
Proof.
  intros Hab. apply not_true_is_false. revert Hab.
  rewrite !rank_lt_spec. lia.
Qed.

Lemma rank_lt_irrefl a : rank_lt a a = false.
Proof. apply not_true_is_false. rewrite rank_lt_spec. lia. Qed.

Lemma ranks_increase_lt n lo r a b :
  ranks_increase n lo r = true → sqrt_double lo ≫= rank = Some r →
  lo ≤ a → a < b → b ≤ lo + Z.of_nat n →
  ∃ ra rb, sqrt_double a ≫= rank = Some ra ∧
           sqrt_double b ≫= rank = Some rb ∧ rank_lt ra rb = true.
Proof.
  revert lo r a. induction n as [|n IH]; intros lo r a Hinc Hr Ha Hab Hb;
    [lia |].
  simpl in Hinc.
  destruct (sqrt_double (lo + 1) ≫= rank) as [r'|] eqn:Hr'; [| done].
  apply andb_prop in Hinc as [Hlt Hinc].
  destruct (decide (a = lo)) as [->|Hne].
  - destruct (decide (b = lo + 1)) as [->|Hne'].
    + by exists r, r'.
    + destruct (IH (lo + 1) r' (lo + 1) Hinc Hr') as (ra & rb & Hra & Hrb & Hl);
        [lia | lia | lia |].
      rewrite Hr' in Hra. simplify_eq. exists r, rb. split_and!; try done.
      by eapply rank_lt_trans.
  - apply (IH (lo + 1) r'); [done | done | lia | lia | lia].
Qed.

Lemma doubles_increase_checked :
  ∃ r, sqrt_double 1 ≫= rank = Some r ∧
       ranks_increase (Z.to_nat 19999) 1 r = true.
Proof.
  exists (-52, 4503599627370496%positive).
  split; [vm_compute; reflexivity | vm_cast_no_check (eq_refl true)].
Qed.

Lemma sqrt_double_rank a b :
  1 ≤ a → a < b → b ≤ 20000 →
  ∃ fa fb ra rb, sqrt_double a = Some fa ∧ sqrt_double b = Some fb ∧
                 rank fa = Some ra ∧ rank fb = Some rb ∧
                 rank_lt ra rb = true.
Proof.
  intros Ha Hab Hb. destruct doubles_increase_checked as (r & Hr & Hinc).
  destruct (ranks_increase_lt _ 1 r a b Hinc Hr) as (ra & rb & Hra & Hrb & Hlt);
    [lia | lia | lia |].
  destruct (sqrt_double a) as [fa|]; [| done].
  destruct (sqrt_double b) as [fb|]; [| done].
  by exists fa, fb, ra, rb.
Qed.

Lemma exact_pair_checked a b :
  0 ≤ a ≤ 20000 → 0 ≤ b ≤ 20000 → exact_pair a b = true.
Proof.
  intros Ha Hb. unfold exact_pair.
  assert (sqrt_double 0 = Some (S754_zero false)) as H0
    by (vm_compute; reflexivity).
  assert (∀ n, 1 ≤ n ≤ 20000 →
            ∃ f r, sqrt_double n = Some f ∧ rank f = Some r) as Hpos.
  { intros n Hn. destruct (decide (n = 1)) as [->|Hne].
    - destruct (sqrt_double_rank 1 2) as (fa & _ & ra & _ & Hfa & _ & Hra & _);
        [lia | lia | lia |]. by exists fa, ra.
    - destruct (sqrt_double_rank 1 n) as (_ & fb & _ & rb & _ & Hfb & _ & Hrb & _);
        [lia | lia | lia |]. by exists fb, rb. }
  destruct (decide (a = 0)) as [->|Hane], (decide (b = 0)) as [->|Hbne].
  - by rewrite H0.
  - destruct (Hpos b) as (f & r & -> & Hr); [lia |]. rewrite H0.
    destruct f as [| | |[] m e]; try done.
    by assert ((0 <? b) = true) as -> by (apply Z.ltb_lt; lia).
  - destruct (Hpos a) as (f & r & -> & Hr); [lia |]. rewrite H0.
    destruct f as [| | |[] m e]; try done.
    by assert ((a <? 0) = false) as -> by (apply Z.ltb_ge; lia).
  - destruct (Z.lt_total a b) as [Hlt|[->|Hgt]].
    + destruct (sqrt_double_rank a b) as (fa & fb & ra & rb & -> & -> & Hra & Hrb & Hl);
        [lia | lia | lia |].
      rewrite (ltb_rank _ _ _ _ Hra Hrb), Hl.
      by assert ((a <? b) = true) as -> by (apply Z.ltb_lt; lia).
    + destruct (Hpos b) as (f & r & -> & Hr); [lia |].
      rewrite (ltb_rank _ _ _ _ Hr Hr), rank_lt_irrefl, Z.ltb_irrefl. done.
    + destruct (sqrt_double_rank b a) as (fb & fa & rb & ra & -> & -> & Hrb & Hra & Hl);
        [lia | lia | lia |].
      rewrite (ltb_rank _ _ _ _ Hra Hrb), (rank_lt_asym _ _ Hl).
      by assert ((a <? b) = false) as -> by (apply Z.ltb_ge; lia).
Qed.

(** X11: Squared distances up to 20000, those of a map of 100 by 100 tiles:
    every square root is a finite double and the doubles are ordered as
    the distances are, so that [chase] and [run] compare distances as
    exact arithmetic does. *)
Theorem linear_dist_order_exact ns :
  (∀ n, n ∈ ns → 0 ≤ n ≤ 20000) → doubles_exact ns = true.
Proof.
  intros Hns. unfold doubles_exact.
  apply forallb_forall. intros a Ha%list_elem_of_In.
  apply forallb_forall. intros b Hb%list_elem_of_In.
  apply exact_pair_checked; by apply Hns.
Qed.

(** ** The state machine of a mob *)

Lemma action_handler_live self h o :
  heap h !! self = Some o → Obj.cls o = cMob → Obj.state o ≠ DEAD →
  action_handler self h =
    (row ← getitem (state_chart self) (Obj.state o);
     transitions self row 0;; behave self) h.
Proof.
  intros Ho Hc Hlive.
  assert (is_Mob (Obj.cls o) = true) as HM by (by rewrite Hc).
  assert ((Obj.state o =? DEAD) = false) as Hlive' by (by apply Z.eqb_neq).
  unfold action_handler.
  rewrite (bind_Return _ _ _ _ _ (getattr_Return _ _ _ _ _ Ho HM)), Hlive'.
  by rewrite (bind_Return _ _ _ _ _ (getattr_Return _ _ _ _ _ Ho HM)).
Qed.

Lemma at_rest_healthy o o' :
  at_rest o' = at_rest o → healthy_value o' = healthy_value o.
Proof.
  intros Heq. unfold healthy_value.
  change (Obj.cls o') with (Obj.cls (at_rest o')).
  change (Obj.max_hp o') with (Obj.max_hp (at_rest o')).
  change (Obj.hp o') with (Obj.hp (at_rest o')).
  by rewrite Heq.
Qed.

Lemma pres_behave_moved self s o :
  preserves (mob_inv self (moved_in_state s o)) (λ _, True) (behave self).
Proof. apply pres_dispatch; by intros m o1 v [Hs Hr]. Qed.

(** The loop is over and the mob is in state [s]. *)
Lemma behave_in_state self s o h1 o1 :
  heap h1 !! self = Some o1 → player h1 ≠ self →
  Obj.state o1 = s → at_rest o1 = at_rest o →
  mob_inv self (moved_in_state s o) (exec (behave self) h1).
Proof.
  intros Ho1 Hp Hs Hr. apply (preserves_exec _ (λ _, True)).
  - apply pres_behave_moved.
  - split; [done |]. by exists o1.
Qed.

(** The check of a column has answered true: the mob enters state [x];
    what follows keeps [I]. *)
Lemma enter_then self x F h o (rest : M unit) :
  heap h !! self = Some o → player h ≠ self →
  F (fov_map h) (Obj.set_state x o) →
  preserves (mob_inv self F) (λ _, True) rest →
  mob_inv self F (exec (enter_state self x;; rest) h).
Proof.
  intros Ho Hp HF Hrest. apply (exec_bind_inv _ (λ _, True)).
  - by apply (enter_state_establishes self _ _ h o).
  - by intros _.
Qed.

Lemma in_sight_and_healthy_Return self h o fit :
  heap h !! self = Some o → healthy_value o = Return fit →
  in_sight_and_healthy self h =
    (h, Return (map_is_in_fov (fov_map h) (Obj.x o) (Obj.y o) && fit)).
Proof.
  intros Ho Hfit. rewrite (in_sight_and_healthy_run _ _ _ Ho). unfold answer.
  rewrite Hfit. by destruct (map_is_in_fov _ _ _).
Qed.

Lemma in_sight_and_not_healthy_Return self h o fit :
  heap h !! self = Some o → Obj.cls o = cMob →
  healthy_value o = Return fit →
  in_sight_and_not_healthy self h =
    (set_drawn (S (drawn h)) h,
     Return ((Obj.morale o <? next_roll h)
             && map_is_in_fov (fov_map h) (Obj.x o) (Obj.y o) && negb fit)).
Proof.
  intros Ho Hc Hfit. rewrite (in_sight_and_not_healthy_run _ _ _ Ho).
  unfold answer. rewrite Hc, Hfit. cbn [is_Mob].
  destruct (_ <? _); [| done]. by destruct (map_is_in_fov _ _ _).
Qed.

Lemma moved_in_state_calm s o m o' :
  healthy_value o = Return true → Obj.cls o = cMob →
  moved_in_state s o m o' →
  Obj.cls o' = cMob ∧
  (map_is_in_fov m (Obj.x o') (Obj.y o') = false ∨
   healthy_value o' = Return true).
Proof.
  intros Hfit Hc [Hs Hr]. split.
  - change (Obj.cls o') with (Obj.cls (at_rest o')). by rewrite Hr.
  - right. by rewrite (at_rest_healthy _ _ Hr).
Qed.

Lemma mret_bind {B : Type} (f : unit → M B) h : (mret tt ≫= f) h = f tt h.
Proof. reflexivity. Qed.

(** The check of the last column that holds a predicate answers [b]:
    the mob enters state [x] or stays in its state, and behaves. *)
Lemma last_check self (check : M bool) rest x h h1 b o1 s o :
  check h = (h1, Return b) → heap h1 !! self = Some o1 → player h1 ≠ self →
  at_rest o1 = at_rest o → s = (if b then x else Obj.state o1) →
  (∀ y, transitions self rest y = mret tt) →
  mob_inv self (moved_in_state s o)
    (exec (transitions self (Some check :: rest) x;; behave self) h).
Proof.
  intros Hcheck Ho1 Hp Hr -> Hrest. unfold exec.
  rewrite transitions_Some, bind_assoc.
  rewrite (bind_Return _ _ _ _ _ Hcheck), Hrest.
  destruct b.
  - rewrite bind_assoc.
    apply (enter_then self _ _ h1 o1); [done | done | done |].
    apply pres_bind; [apply pres_ret | intros _; apply pres_behave_moved].
  - rewrite bind_assoc, !mret_bind. by apply (behave_in_state _ _ _ _ o1).
Qed.

(** A mob that has gone back to HOLD out of sight: no check that asks
    for sight answers true, and HOLD has no behaviour. *)
Lemma unseen_as_calm s o m o' :
  Obj.cls o = cMob → unseen_as s o m o' →
  Obj.cls o' = cMob ∧
  (map_is_in_fov m (Obj.x o') (Obj.y o') = false ∨
   healthy_value o' = Return true).
Proof. intros Hc [-> Hm]. split; [done | by left]. Qed.

Lemma pres_unseen_healthy_column self s o x :
  preserves (mob_inv self (unseen_as s o)) (λ _, True)
    (transitions self [Some (in_sight_and_healthy self); None] x).
Proof.
  assert (python_exn (λ _ : exn, True)) as HE by done.
  rewrite transitions_Some.
  apply pres_bind_returns with (Q := λ b, b = false).
  - intros h h' b [_ (o' & Ho' & -> & Hm)] Hrun.
    rewrite (in_sight_and_healthy_run _ _ _ Ho') in Hrun.
    unfold answer in Hrun. simpl in Hrun. rewrite Hm in Hrun. by simplify_eq.
  - by apply pres_in_sight_and_healthy.
  - intros b ->. apply pres_bind; [apply pres_ret | intros _; apply pres_ret].
Qed.

Lemma pres_behave_hold self o :
  Obj.cls o = cMob →
  preserves (mob_inv self (unseen_as data.HOLD o)) (λ _, True) (behave self).
Proof.
  intros Hc. assert (python_exn (λ _ : exn, True)) as HE by done.
  apply pres_bind_returns with (Q := λ st, st = data.HOLD).
  - apply returns_getattr.
    intros h1 o1 [_ (o2 & Ho2 & -> & _)] Ho1. by simplify_eq.
  - apply pres_getattr, HE.
  - intros st ->. apply pres_ret.
Qed.

(** X12: The state machine of a live mob, complete: whatever [chase], [run]
    and the message log do, and whether the call returns or raises,
    [action_handler] leaves the mob in the state [next_state] computes
    from the visibility of its tile, its health and the morale roll, and
    changes nothing of the mob but its state and its position. *)
Theorem action_handler_next_state self h o fit :
  heap h !! self = Some o → Obj.cls o = cMob → player h ≠ self →
  Obj.state o ≠ DEAD → 0 ≤ Obj.state o ≤ 2 →
  healthy_value o = Return fit →
  ∃ o', heap (exec (action_handler self) h) !! self = Some o' ∧
        Obj.state o' =
          next_state (Obj.state o)
            (map_is_in_fov (fov_map h) (Obj.x o) (Obj.y o)) fit
            (Obj.morale o <? next_roll h) ∧
        at_rest o' = at_rest o.
Proof.
  intros Ho Hc Hp Hlive Hs Hfit.
  assert (python_exn (λ _ : exn, True)) as HE by done.
  set (seen := map_is_in_fov (fov_map h) (Obj.x o) (Obj.y o)).
  set (wavers := Obj.morale o <? next_roll h).
  assert (∀ s h', mob_inv self (moved_in_state s o) h' →
               s = next_state (Obj.state o) seen fit wavers →
               ∃ o', heap h' !! self = Some o' ∧
                     Obj.state o' = next_state (Obj.state o) seen fit wavers ∧
                     at_rest o' = at_rest o) as Hmoved.
  { intros s h' [_ (o' & Ho' & Hs' & Hr')] ->. by exists o'. }
  unfold exec. rewrite (action_handler_live _ _ _ Ho Hc Hlive).
  assert (Obj.state o = 0 ∨ Obj.state o = 1 ∨ Obj.state o = 2)
    as [Hst|[Hst|Hst]] by lia.
  - (* HOLD *)
    rewrite Hst in Hmoved |- *. unfold state_chart.
    rewrite (bind_Return _ _ _ _ _ (getitem_0 _ _ h)).
    rewrite transitions_None, transitions_Some, bind_assoc.
    rewrite (bind_Return _ _ _ _ _
               (in_sight_and_healthy_Return _ _ _ _ Ho Hfit)).
    fold seen.
    destruct (seen && fit) eqn:Hb1.
    + apply (Hmoved data.CHASE); [| unfold next_state; simpl; by rewrite Hb1].
      rewrite bind_assoc.
      apply (enter_then self _ _ h o); [done | done | done |].
      apply pres_bind; [| intros _; apply pres_behave_moved].
      apply pres_last_column. intros m o1 Hm.
      apply (moved_in_state_calm data.CHASE o m o1); [| done | done].
      apply andb_prop in Hb1 as [_ ->]. done.
    + rewrite bind_assoc, mret_bind.
      apply (Hmoved (if wavers && seen && negb fit then data.RUN else data.HOLD));
        [| unfold next_state; simpl; by rewrite Hb1].
      apply (last_check self _ [] _ h (set_drawn (S (drawn h)) h)
               (wavers && seen && negb fit) o);
        [ by apply in_sight_and_not_healthy_Return
        | done | done | done | by rewrite Hst | done].
  - (* CHASE *)
    rewrite Hst in Hmoved |- *. unfold state_chart.
    rewrite (bind_Return _ _ _ _ _ (getitem_1 _ _ _ h)).
    rewrite transitions_Some, bind_assoc.
    rewrite (bind_Return _ _ _ _ _ (not_in_sight_Return _ _ _ Ho)).
    fold seen. destruct seen eqn:Hseen; cbn [negb].
    + rewrite bind_assoc, mret_bind, transitions_None.
      apply (Hmoved (if wavers && negb fit then data.RUN else data.CHASE));
        [| done].
      apply (last_check self _ [] _ h (set_drawn (S (drawn h)) h)
               (wavers && negb fit) o);
        [ | done | done | done | by rewrite Hst | done].
      rewrite (in_sight_and_not_healthy_Return _ _ _ _ Ho Hc Hfit).
      fold seen wavers. rewrite Hseen. by rewrite andb_true_r.
    + rewrite bind_assoc.
      assert (mob_inv self (unseen_as data.HOLD o)
                ((enter_state self 0
                  ≫= λ _, transitions self
                            [None; Some (in_sight_and_not_healthy self)]
                            (0 + 1) ≫= λ _, behave self) h).1)
        as [_ (o' & Ho' & -> & _)]; [| by exists (Obj.set_state data.HOLD o)].
      apply (enter_then self _ _ h o); [done | done | done |].
      apply pres_bind; [| intros _; by apply pres_behave_hold].
      rewrite transitions_None. apply pres_last_column.
      intros m o1 Hm. by apply (unseen_as_calm data.HOLD o).
  - (* RUN *)
    rewrite Hst in Hmoved |- *. unfold state_chart.
    rewrite (bind_Return _ _ _ _ _ (getitem_2 _ _ _ _ h)).
    rewrite transitions_Some, bind_assoc.
    rewrite (bind_Return _ _ _ _ _ (not_in_sight_Return _ _ _ Ho)).
    fold seen. destruct seen eqn:Hseen; cbn [negb].
    + rewrite bind_assoc, mret_bind.
      apply (Hmoved (if fit then data.CHASE else data.RUN)); [| done].
      apply (last_check self _ [None] _ h h fit o);
        [ | done | done | done | by rewrite Hst | done].
      rewrite (in_sight_and_healthy_Return _ _ _ _ Ho Hfit).
      fold seen. by rewrite Hseen.
    + rewrite bind_assoc.
      assert (mob_inv self (unseen_as data.HOLD o)
                ((enter_state self 0
                  ≫= λ _, transitions self
                            [Some (in_sight_and_healthy self); None]
                            (0 + 1) ≫= λ _, behave self) h).1)
        as [_ (o' & Ho' & -> & _)]; [| by exists (Obj.set_state data.HOLD o)].
      apply (enter_then self _ _ h o); [done | done | done |].
      apply pres_bind; [| intros _; by apply pres_behave_hold].
      apply pres_unseen_healthy_column.
Qed.

(** X13: A mob on HOLD whose checks both answer false: the call returns and
    its one effect is the morale roll it has drawn. *)
Theorem action_handler_idle self h o fit :
  heap h !! self = Some o → Obj.cls o = cMob →
  Obj.state o = data.HOLD → data.HOLD ≠ DEAD →
  healthy_value o = Return fit →
  next_state data.HOLD (map_is_in_fov (fov_map h) (Obj.x o) (Obj.y o)) fit
    (Obj.morale o <? next_roll h) = data.HOLD →
  action_handler self h = (set_drawn (S (drawn h)) h, Return tt).
Proof.
  intros Ho Hc Hst Hlive Hfit Hnext.
  assert (is_Mob (Obj.cls o) = true) as HM by (by rewrite Hc).
  rewrite (action_handler_live _ _ _ Ho Hc ltac:(by rewrite Hst)).
  rewrite Hst. unfold state_chart, data.HOLD.
  rewrite (bind_Return _ _ _ _ _ (getitem_0 _ _ h)).
  rewrite transitions_None, transitions_Some, bind_assoc.
  rewrite (bind_Return _ _ _ _ _
             (in_sight_and_healthy_Return _ _ _ _ Ho Hfit)).
  unfold next_state in Hnext. simpl in Hnext.
  destruct (map_is_in_fov _ _ _ && fit) eqn:Hb1; [done |].
  rewrite bind_assoc, mret_bind, transitions_Some, bind_assoc.
  rewrite (bind_Return _ _ _ _ _
             (in_sight_and_not_healthy_Return _ _ _ _ Ho Hc Hfit)).
  destruct (_ && negb fit) eqn:Hb2; [done |].
  rewrite bind_assoc, mret_bind. cbn [transitions]. rewrite mret_bind.
  unfold behave.
  erewrite bind_Return; last first.
  { apply (getattr_Return is_Mob Obj.state self _ o); [done | done]. }
  by rewrite Hst.
Qed.

(** X14: With a morale of 100 or more no roll of [randrange(101)] exceeds
    the morale: the check for RUN draws its roll and answers false. *)
Theorem in_sight_and_not_healthy_brave self h o :
  heap h !! self = Some o → Obj.cls o = cMob → 100 ≤ Obj.morale o →
  in_sight_and_not_healthy self h =
    (set_drawn (S (drawn h)) h, Return false).
Proof.
  intros Ho Hc Hm. rewrite (in_sight_and_not_healthy_run _ _ _ Ho).
  unfold answer. rewrite Hc. cbn [is_Mob].
  assert ((Obj.morale o <? next_roll h) = false) as ->; [| done].
  apply Z.ltb_ge. unfold next_roll.
  pose proof (Z.mod_pos_bound (draws h (drawn h)) 101 ltac:(lia)). lia.
Qed.

(** X15: A state that is neither [DEAD] nor an index of the table: the
    lookup of the row raises [IndexError] and nothing has changed.
    The states [-3 .. -1] are indices: Python counts them from the
    end. *)
Theorem action_handler_bad_state self h o :
  heap h !! self = Some o → Obj.cls o = cMob → Obj.state o ≠ DEAD →
  Obj.state o < -3 ∨ 3 ≤ Obj.state o →
  action_handler self h = (h, Raise IndexError).
Proof.
  intros Ho Hc Hlive Hst.
  rewrite (action_handler_live _ _ _ Ho Hc Hlive).
  apply bind_Raise. unfold getitem, state_chart. cbn [length].
  destruct (Obj.state o <? 0) eqn:Hneg.
  - apply Z.ltb_lt in Hneg.
    assert ((0 <=? Obj.state o + Z.of_nat 3) = false) as ->
      by (apply Z.leb_gt; lia).
    done.
  - apply Z.ltb_ge in Hneg.
    assert ((Obj.state o <? Z.of_nat 3) = false) as ->
      by (apply Z.ltb_ge; lia).
    by rewrite andb_false_r.
Qed.

(** ** After the death of the player *)

Section GameOver.

Context (self : ref) (I : handler → Prop).
Hypothesis I_over : ∀ h, I h → game_state h = DEAD.
Hypothesis I_log : stable_log I.
Hypothesis I_rng : stable_rng I.
Hypothesis I_self : ∀ f, stable_setattr I self f.

Let E : exn → Prop := λ _, True.

Lemma returns_chase_condition_over posn :
  returns I (λ c, c = false) (chase_condition self posn).
Proof.
  intros h h' c Ih Hrun. pose proof (I_over h Ih) as Hover.
  destruct (heap h !! self) as [so|] eqn:Hso.
  - destruct (heap h !! player h) as [po|] eqn:Hpo.
    + rewrite (chase_condition_Return _ _ _ _ _ Hso Hpo) in Hrun.
      rewrite Hover, Z.eqb_refl, andb_false_r in Hrun. by simplify_eq.
    + unfold chase_condition in Hrun.
      rewrite (bind_Return _ _ _ _ _
                 (getattr_Return any_class _ _ _ _ Hso eq_refl)) in Hrun.
      rewrite (bind_Return _ _ _ _ _ (get_Return h)) in Hrun.
      unfold getattr, get_obj, mbind, M_bind in Hrun.
      rewrite Hpo in Hrun. by simplify_eq.
  - unfold chase_condition, getattr, get_obj, mbind, M_bind in Hrun.
    rewrite Hso in Hrun. by simplify_eq.
Qed.

Lemma pres_move_over dx dy : preserves I E (move self dx dy).
Proof. apply pres_move; [done | |]; intros v; apply I_self. Qed.

Lemma pres_chase_loop_over target posns d mv :
  preserves I E (chase_loop self target posns d mv).
Proof.
  assert (python_exn E) as HE by done.
  revert d mv. induction posns as [|posn rest IH]; intros d mv; simpl.
  { apply pres_ret. }
  apply pres_bind_returns with (Q := λ c, c = false).
  { apply returns_chase_condition_over. }
  { unfold chase_condition. repeat pres_step HE. }
  intros c ->.
  apply pres_bind; [pres_step HE |]. intros sx0.
  apply pres_bind; [pres_step HE |]. intros sy0.
  apply pres_get_bind. intros h4 Ih4.
  destruct (negb _); [| apply IH].
  apply pres_bind; [pres_step HE |]. intros sx1.
  apply pres_bind; [pres_step HE |]. intros tx.
  apply pres_bind; [pres_step HE |]. intros sy1.
  apply pres_bind; [pres_step HE |]. intros ty.
  apply pres_bind; [pres_step HE |]. intros new_dist.
  destruct (PyFloat.ltb _ _); apply IH.
Qed.

Lemma pres_chase_over target : preserves I E (chase self target).
Proof.
  assert (python_exn E) as HE by done.
  unfold chase.
  apply pres_bind; [pres_step HE |]. intros sx.
  apply pres_bind; [pres_step HE |]. intros tx.
  apply pres_bind; [pres_step HE |]. intros sy.
  apply pres_bind; [pres_step HE |]. intros ty.
  apply pres_bind; [pres_step HE |]. intros d.
  apply pres_bind; [apply pres_chase_loop_over |]. intros r.
  destruct (r.2); [apply pres_move_over | apply pres_ret].
Qed.

Lemma pres_run_loop_over target posns d mv :
  preserves I E (run_loop self target posns d mv).
Proof.
  assert (python_exn E) as HE by done.
  revert d mv. induction posns as [|posn rest IH]; intros d mv; simpl.
  { apply pres_ret. }
  apply pres_bind; [pres_step HE |]. intros sx0.
  apply pres_bind; [pres_step HE |]. intros sy0.
  apply pres_get_bind. intros h4 Ih4.
  destruct (negb _); [| apply IH].
  apply pres_bind; [pres_step HE |]. intros sx1.
  apply pres_bind; [pres_step HE |]. intros tx.
  apply pres_bind; [pres_step HE |]. intros sy1.
  apply pres_bind; [pres_step HE |]. intros ty.
  apply pres_bind; [pres_step HE |]. intros new_dist.
  destruct (PyFloat.ltb _ _); apply IH.
Qed.

Lemma pres_run_over target : preserves I E (run self target).
Proof.
  assert (python_exn E) as HE by done.
  unfold run.
  apply pres_bind; [pres_step HE |]. intros sx.
  apply pres_bind; [pres_step HE |]. intros tx.
  apply pres_bind; [pres_step HE |]. intros sy.
  apply pres_bind; [pres_step HE |]. intros ty.
  apply pres_bind; [pres_step HE |]. intros d.
  apply pres_bind; [apply pres_run_loop_over |]. intros r.
  destruct (r.2); [apply pres_move_over | apply pres_ret].
Qed.

Lemma pres_transitions_over row x :
  Forall (λ cell, ∀ check, cell = Some check → preserves I E check) row →
  preserves I E (transitions self row x).
Proof.
  assert (python_exn E) as HE by done.
  intros Hrow. revert x. induction Hrow as [|cell row Hcell _ IH]; intros x.
  { apply pres_ret. }
  destruct cell as [check|]; [| apply IH].
  rewrite transitions_Some.
  apply pres_bind; [by apply Hcell |]. intros b.
  apply pres_bind; [| intros _; apply IH].
  destruct b; [| apply pres_ret].
  apply pres_enter_state; [done | done | apply I_self].
Qed.

Lemma pres_action_handler_over : preserves I E (action_handler self).
Proof.
  assert (python_exn E) as HE by done.
  unfold action_handler.
  apply pres_bind; [pres_step HE |]. intros st.
  destruct (_ =? _); [apply pres_ret |].
  apply pres_bind; [pres_step HE |]. intros st0.
  apply pres_bind_returns with
    (Q := λ row, Forall (λ cell, ∀ check, cell = Some check →
                                 preserves I E check) row).
  { intros h h' row _. unfold getitem.
    destruct (_ && _); [| done].
    destruct (state_chart self !! _) as [row'|] eqn:Hrow; [| done].
    intros [= _ <-]. apply list_elem_of_lookup_2 in Hrow.
    unfold state_chart in Hrow.
    assert (preserves I E (not_in_sight self)) as H1
      by (by apply pres_not_in_sight).
    assert (preserves I E (in_sight_and_healthy self)) as H2
      by (by apply pres_in_sight_and_healthy).
    assert (preserves I E (in_sight_and_not_healthy self)) as H3
      by (by apply pres_in_sight_and_not_healthy).
    apply elem_of_cons in Hrow as [->|Hrow];
      [| apply elem_of_cons in Hrow as [->|Hrow];
         [| apply elem_of_cons in Hrow as [->|Hrow];
            [| by apply elem_of_nil in Hrow]]];
      repeat (apply Forall_cons_2; [intros check [=]; by subst |]);
      apply Forall_nil_2. }
  { pres_step HE. }
  intros row Hrow.
  apply pres_bind; [by apply pres_transitions_over |]. intros _.
  apply pres_bind; [pres_step HE |]. intros st1.
  destruct (_ =? _); [apply pres_ret |].
  apply pres_bind; [pres_step HE |]. intros st2.
  destruct (_ =? _).
  { apply pres_get_bind. intros h0 _. apply pres_chase_over. }
  apply pres_bind; [pres_step HE |]. intros st3.
  destruct (_ =? _); [| apply pres_ret].
  apply pres_get_bind. intros h0 _. apply pres_run_over.
Qed.

End GameOver.

(** X16: Once the player is dead, a mob attacks no more: whatever its state,
    [action_handler] changes nothing but the mob itself, the message log
    and the generator, and the game stays over. *)
Theorem action_handler_after_game_over self h :
  game_state h = DEAD →
  game_over_since self h (exec (action_handler self) h).
Proof.
  intros Hover.
  apply (preserves_exec (game_over_since self h) (λ _, True)).
  - apply (pres_action_handler_over self).
    + by intros h1 [H1 _].
    + by intros h1 v H1.
    + by intros h1 v H1.
    + intros f h1 o (H1 & H2 & H3 & H4 & H5 & H6) Ho. split_and!; try done.
      intros r Hr. simpl. rewrite lookup_insert_ne by done. by apply H6.
  - by split_and!.
Qed.

(** ** The selection cursor of the menus *)

Lemma window_ok_init options max_options :
  options ≠ [] → 1 ≤ max_options →
  window_ok (SelectMenu.init options max_options).
Proof.
  intros Hne Hmax. destruct options as [|a l]; [done |].
  unfold window_ok, SelectMenu.init. cbn -[Z.min Z.of_nat].
  rewrite Nat2Z.inj_succ. lia.
Qed.

Lemma window_ok_press m k : window_ok m → window_ok (press m k).
Proof.
  intros (Hmax & Hhead & Hsel & Htail & Hsize).
  destruct k; unfold press, SelectMenu.key_up, SelectMenu.key_down, window_ok.
  - destruct (_ <? _) eqn:H1; [apply Z.ltb_lt in H1; simpl; lia |].
    destruct (0 <? _) eqn:H2; [apply Z.ltb_lt in H2; simpl; lia |].
    done.
  - destruct (_ <? _) eqn:H1; [apply Z.ltb_lt in H1; simpl; lia |].
    destruct (_ <? _ + 1) eqn:H2; [apply Z.ltb_lt in H2; simpl; lia |].
    done.
Qed.

Lemma options_press m k :
  SelectMenu.options (press m k) = SelectMenu.options m ∧
  SelectMenu.max_options (press m k) = SelectMenu.max_options m.
Proof.
  destruct k; unfold press, SelectMenu.key_up, SelectMenu.key_down;
    repeat case_match; done.
Qed.

Lemma slice_lookup {A : Type} (l : list A) a b i :
  0 ≤ a → a ≤ i → i < b → b ≤ Z.of_nat (length l) →
  SelectMenu.slice l a b !! Z.to_nat (i - a) = l !! Z.to_nat i.
Proof.
  intros Ha Hi Hb Hlen. unfold SelectMenu.slice.
  assert ((a <? 0) = false) as -> by (apply Z.ltb_ge; lia).
  assert ((b <? 0) = false) as -> by (apply Z.ltb_ge; lia).
  rewrite lookup_take_lt by lia. rewrite lookup_drop. f_equal. lia.
Qed.

(** X18: A menu with options that shows at least one of them: whatever
    arrows are pressed, the window has its size, lies within the
    options, contains the selection, and the row that [draw] highlights
    shows the selected option. *)
Theorem select_keeps_window options max_options ks :
  options ≠ [] → 1 ≤ max_options →
  window_ok (foldl press (SelectMenu.init options max_options) ks) ∧
  SelectMenu.drawn_options
    (foldl press (SelectMenu.init options max_options) ks)
    !! Z.to_nat (SelectMenu.highlighted_row
                   (foldl press (SelectMenu.init options max_options) ks))
  = options !! Z.to_nat (SelectMenu.selection_index
                           (foldl press (SelectMenu.init options max_options) ks)).
Proof.
  intros Hne Hmax.
  assert (window_ok (foldl press (SelectMenu.init options max_options) ks) ∧
          SelectMenu.options
            (foldl press (SelectMenu.init options max_options) ks) = options)
    as [Hok Hopt].
  { induction ks as [|k ks IH] using rev_ind.
    - split; [by apply window_ok_init | done].
    - rewrite foldl_snoc. destruct IH as [IH1 IH2]. split.
      + by apply window_ok_press.
      + by rewrite (proj1 (options_press _ k)). }
  split; [done |].
  destruct Hok as (Hms & Hhead & Hsel & Htail & Hsize).
  unfold SelectMenu.drawn_options, SelectMenu.highlighted_row.
  rewrite Hopt in *. by apply slice_lookup; lia.
Qed.

(** X19: From a fresh menu, [k] presses of the down arrow select option
    [min k (n - 1)]: every option can be reached and the selection stops
    at the last one. *)
Theorem select_down_reaches options max_options k :
  options ≠ [] → 1 ≤ max_options →
  SelectMenu.selection_index
    (foldl press (SelectMenu.init options max_options)
       (replicate k KEY_DOWN))
  = Z.min (Z.of_nat k) (Z.of_nat (length options) - 1).
Proof.
  intros Hne Hmax.
  assert (window_ok
            (foldl press (SelectMenu.init options max_options)
               (replicate k KEY_DOWN)) ∧
          SelectMenu.options
            (foldl press (SelectMenu.init options max_options)
               (replicate k KEY_DOWN)) = options ∧
          SelectMenu.selection_index
            (foldl press (SelectMenu.init options max_options)
               (replicate k KEY_DOWN))
          = Z.min (Z.of_nat k) (Z.of_nat (length options) - 1)) as (_ & _ & H);
    [| done].
  induction k as [|k IH].
  - split_and!; [by apply window_ok_init | done |].
    destruct options; [done |]. simpl length. cbn [replicate foldl].
    unfold SelectMenu.init. cbn [SelectMenu.selection_index]. lia.
  - replace (replicate (S k) KEY_DOWN) with (replicate k KEY_DOWN ++ [KEY_DOWN])
      by (by rewrite <- replicate_S_end).
    rewrite foldl_snoc.
    set (m := foldl press (SelectMenu.init options max_options)
                (replicate k KEY_DOWN)) in *.
    destruct IH as (Hok & Hopt & Hsel).
    split_and!.
    + by apply window_ok_press.
    + by rewrite (proj1 (options_press _ KEY_DOWN)).
    + destruct Hok as (Hms & Hhead & Hs & Htail & Hsize).
      rewrite Hopt in *. unfold press, SelectMenu.key_down.
      destruct (_ <? _ - 1) eqn:H1;
        [apply Z.ltb_lt in H1; cbn [SelectMenu.selection_index]; lia |].
      apply Z.ltb_ge in H1.
      destruct (_ <? _ + 1) eqn:H2;
        [apply Z.ltb_lt in H2; cbn [SelectMenu.selection_index]; lia |].
      apply Z.ltb_ge in H2. lia.
Qed.

(** ** A mob next to the player *)

Lemma bind_ext_pres {A B : Type} I E (m : M A) (f g : A → M B) h :
  preserves I E m → I h → (∀ h1 a, I h1 → f a h1 = g a h1) →
  (m ≫= f) h = (m ≫= g) h.
Proof.
  intros Hm Ih Hfg. apply bind_ext. intros h1 a Hrun. apply Hfg.
  destruct (Hm h Ih) as [I1 _]. by rewrite Hrun in I1.
Qed.

Lemma bind_rewrite {A B : Type} (m m' : M A) (k : A → M B) h :
  m h = m' h → (m ≫= k) h = (m' ≫= k) h.
Proof. intros Hm. unfold mbind, M_bind. by rewrite Hm. Qed.

Lemma pres_chase_attack_standing self pr sx sy px py :
  pr ≠ self →
  preserves (standing self pr sx sy px py) (λ _, True) (chase_attack self).
Proof.
  intros Hne. assert (python_exn (λ _ : exn, True)) as HE by done.
  assert (stable_log (standing self pr sx sy px py)) as Hlog
    by (by intros h v Ih).
  assert (∀ f, (∀ o, Obj.x (f o) = Obj.x o ∧ Obj.y (f o) = Obj.y o) →
               stable_setattr (standing self pr sx sy px py) pr f) as Hset.
  { intros f Hf h o (Hp & Hs & Hpo) Ho. split_and!; [done | |].
    - apply obj_inv_setattr; [done | done | by intros ->].
    - apply obj_inv_setattr; [done | done |].
      intros _ [Hx Hy]. destruct (Hf o) as [-> ->]. done. }
  unfold chase_attack. apply pres_get_bind. intros h2 Ih2.
  apply pres_bind.
  { destruct Ih2 as [-> _]. apply pres_deal_damage; [done | | | | |].
    - by intros h v Ih.
    - by intros h v Ih.
    - by intros h r l Ih Hr.
    - split_and!; intros v; by apply Hset.
    - intros v. by apply Hset. }
  intros dmg. apply pres_bind.
  { destruct (truthy dmg);
      (apply pres_bind; [pres_step HE | intros nm; by apply pres_add_msg]). }
  intros _. apply pres_get_bind. intros h3 Ih3.
  destruct (_ =? _); [| apply pres_ret].
  apply pres_bind; [pres_step HE | intros nm; by apply pres_add_msg].
Qed.

Lemma linear_dist_neighbour sx sy q h :
  q ∈ possible_posn →
  linear_dist sx (sx + q.1) sy (sy + q.2) h = (h, Return one_tile).
Proof.
  intros Hq. unfold linear_dist.
  replace (sx - (sx + q.1)) with (- q.1) by lia.
  replace (sy - (sy + q.2)) with (- q.2) by lia.
  unfold possible_posn in Hq.
  repeat (apply elem_of_cons in Hq as [->|Hq]); try done.
  by apply elem_of_nil in Hq.
Qed.

Lemma linear_dist_not_closer sx sy p q h :
  p ∈ possible_posn → q ∈ possible_posn → p ≠ q →
  ∃ f, linear_dist (sx + p.1) (sx + q.1) (sy + p.2) (sy + q.2) h
         = (h, Return f) ∧
       PyFloat.ltb f one_tile = false.
Proof.
  intros Hp Hq Hne. unfold linear_dist.
  replace (sx + p.1 - (sx + q.1)) with (p.1 - q.1) by lia.
  replace (sy + p.2 - (sy + q.2)) with (p.2 - q.2) by lia.
  unfold possible_posn in Hp, Hq.
  repeat (apply elem_of_cons in Hp as [->|Hp]);
    [| | | | by apply elem_of_nil in Hp];
    repeat (apply elem_of_cons in Hq as [->|Hq]);
    try done; try (by apply elem_of_nil in Hq);
    (eexists; split; [reflexivity | vm_compute; reflexivity]).
Qed.

Section Near.

Context (self pr : ref) (sx sy : Z) (q : Z * Z).
Hypothesis Hq : q ∈ possible_posn.

Let I := standing self pr sx sy (sx + q.1) (sy + q.2).

Lemma chase_loop_skip p rest mv h :
  I h → p ∈ possible_posn → p ≠ q →
  chase_loop self pr (p :: rest) one_tile mv h = chase_loop self pr rest one_tile mv h.
Proof.
  intros (Hpr & (so & Hso & Hsx & Hsy) & (po & Hpo & Hpx & Hpy)) Hp Hne.
  cbn [chase_loop].
  rewrite (bind_Return _ _ _ _ _
             (chase_condition_Return self so po h p Hso
                ltac:(by rewrite Hpr))).
  assert ((Obj.x so + p.1 =? Obj.x po) && (Obj.y so + p.2 =? Obj.y po) = false)
    as ->.
  { apply not_true_is_false. intros [H1 H2]%andb_prop.
    apply Z.eqb_eq in H1, H2. apply Hne. destruct p, q. simpl in *.
    f_equal; lia. }
  cbn [andb].
  rewrite (bind_Return _ _ _ _ _ (getattr_Return any_class _ _ _ _ Hso eq_refl)).
  rewrite (bind_Return _ _ _ _ _ (getattr_Return any_class _ _ _ _ Hso eq_refl)).
  rewrite (bind_Return _ _ _ _ _ (get_Return h)).
  destruct (negb _); [| done].
  rewrite (bind_Return _ _ _ _ _ (getattr_Return any_class _ _ _ _ Hso eq_refl)).
  rewrite (bind_Return _ _ _ _ _ (getattr_Return any_class _ _ _ _ Hpo eq_refl)).
  rewrite (bind_Return _ _ _ _ _ (getattr_Return any_class _ _ _ _ Hso eq_refl)).
  rewrite (bind_Return _ _ _ _ _ (getattr_Return any_class _ _ _ _ Hpo eq_refl)).
  rewrite Hsx, Hsy, Hpx, Hpy.
  destruct (linear_dist_not_closer sx sy p q h Hp Hq Hne) as (f & Hf & Hlt).
  rewrite (bind_Return _ _ _ _ _ Hf). by rewrite Hlt.
Qed.

Lemma chase_loop_hit rest mv h :
  I h → game_state h ≠ DEAD →
  chase_loop self pr (q :: rest) one_tile mv h =
    (chase_attack self;; chase_loop self pr rest one_tile mv) h.
Proof.
  intros (Hpr & (so & Hso & Hsx & Hsy) & (po & Hpo & Hpx & Hpy)) Hlive.
  cbn [chase_loop].
  rewrite (bind_Return _ _ _ _ _
             (chase_condition_Return self so po h q Hso
                ltac:(by rewrite Hpr))).
  rewrite Hsx, Hsy, Hpx, Hpy, !Z.eqb_refl.
  apply Z.eqb_neq in Hlive. by rewrite Hlive.
Qed.

End Near.

(** X17: A mob next to the living player: [chase] is one attack on the
    player and nothing else; the mob stays on its tile, whatever the
    world lets it walk on. *)
Theorem chase_next_to_player self h so po q :
  heap h !! self = Some so → heap h !! player h = Some po →
  player h ≠ self → game_state h ≠ DEAD → q ∈ possible_posn →
  Obj.x po = Obj.x so + q.1 → Obj.y po = Obj.y so + q.2 →
  chase self (player h) h = (chase_attack self;; mret tt) h ∧
  standing self (player h) (Obj.x so) (Obj.y so) (Obj.x po) (Obj.y po)
    (exec (chase self (player h)) h).
Proof.
  intros Hso Hpo Hne Hlive Hq Hx Hy.
  cut (chase self (player h) h = (chase_attack self;; mret tt) h).
  { intros Heq. split; [done |]. unfold exec. rewrite Heq.
    apply (preserves_exec _ (λ _, True)).
    - apply pres_bind; [| intros _; apply pres_ret].
      by apply pres_chase_attack_standing.
    - split_and!; [done | by exists so | by exists po]. }
  set (I := standing self (player h) (Obj.x so) (Obj.y so)
              (Obj.x so + q.1) (Obj.y so + q.2)).
  assert (I h) as Ih.
  { split_and!; [done | by exists so | exists po; by rewrite Hx, Hy]. }
  pose proof (pres_chase_attack_standing self (player h) (Obj.x so) (Obj.y so)
                (Obj.x so + q.1) (Obj.y so + q.2) Hne) as Hatt.
  unfold chase.
  rewrite (bind_Return _ _ _ _ _ (getattr_Return any_class _ _ _ _ Hso eq_refl)).
  rewrite (bind_Return _ _ _ _ _ (getattr_Return any_class _ _ _ _ Hpo eq_refl)).
  rewrite (bind_Return _ _ _ _ _ (getattr_Return any_class _ _ _ _ Hso eq_refl)).
  rewrite (bind_Return _ _ _ _ _ (getattr_Return any_class _ _ _ _ Hpo eq_refl)).
  rewrite Hx, Hy.
  rewrite (bind_Return _ _ _ _ _ (linear_dist_neighbour _ _ q h Hq)).
  assert (∀ p rest mv h1, I h1 → p ∈ possible_posn → p ≠ q →
            chase_loop self (player h) (p :: rest) one_tile mv h1 =
            chase_loop self (player h) rest one_tile mv h1) as Hskip.
  { intros p rest mv h1.
    by apply (chase_loop_skip self (player h) (Obj.x so) (Obj.y so) q Hq). }
  assert (∀ rest mv,
            chase_loop self (player h) (q :: rest) one_tile mv h =
            (chase_attack self;; chase_loop self (player h) rest one_tile mv) h)
    as Hhit.
  { intros rest mv.
    by apply (chase_loop_hit self (player h) (Obj.x so) (Obj.y so) q). }
  assert (∀ p, p ∈ possible_posn ↔
               p = (1, 0) ∨ p = (-1, 0) ∨ p = (0, 1) ∨ p = (0, -1)) as Hposn.
  { intros p. unfold possible_posn. rewrite !elem_of_cons, elem_of_nil.
    tauto. }
  assert (∀ mv h1, chase_loop self (player h) [] one_tile mv h1 =
                    (h1, Return (one_tile, mv))) as Hnil by done.
  assert (∀ rest,
            (∀ h1, I h1 →
               (chase_loop self (player h) rest one_tile None
                ≫= λ r, match r.2 with
                        | Some move_to_make =>
                            move self move_to_make.1 move_to_make.2
                        | None => mret tt
                        end) h1 = (h1, Return tt)) →
            (chase_loop self (player h) (q :: rest) one_tile None
             ≫= λ r, match r.2 with
                     | Some move_to_make =>
                         move self move_to_make.1 move_to_make.2
                     | None => mret tt
                     end) h = (chase_attack self;; mret tt) h) as Hrest.
  { intros rest Hafter. rewrite (bind_rewrite _ _ _ _ (Hhit rest None)).
    rewrite bind_assoc.
    apply (bind_ext_pres I (λ _, True)); [done | done |].
    intros h1 [] Ih1. by rewrite Hafter. }
  unfold possible_posn.
  apply Hposn in Hq as Hcase.
  destruct Hcase as [-> | [-> | [-> | ->]]].
  - apply Hrest. intros h1 Ih1.
    do 3 (erewrite bind_rewrite;
          [| apply Hskip; [exact Ih1 | apply Hposn; tauto | done]]).
    by rewrite (bind_Return _ _ _ _ _ (Hnil None h1)).
  - erewrite bind_rewrite;
      [| apply Hskip; [exact Ih | apply Hposn; tauto | done]].
    apply Hrest. intros h1 Ih1.
    do 2 (erewrite bind_rewrite;
          [| apply Hskip; [exact Ih1 | apply Hposn; tauto | done]]).
    by rewrite (bind_Return _ _ _ _ _ (Hnil None h1)).
  - do 2 (erewrite bind_rewrite;
          [| apply Hskip; [exact Ih | apply Hposn; tauto | done]]).
    apply Hrest. intros h1 Ih1.
    do 1 (erewrite bind_rewrite;
          [| apply Hskip; [exact Ih1 | apply Hposn; tauto | done]]).
    by rewrite (bind_Return _ _ _ _ _ (Hnil None h1)).
  - do 3 (erewrite bind_rewrite;
          [| apply Hskip; [exact Ih | apply Hposn; tauto | done]]).
    apply Hrest. intros h1 Ih1.
    by rewrite (bind_Return _ _ _ _ _ (Hnil None h1)).
Qed.

(** ** What a turn never changes *)

Section Turn.

Context (I : handler → Prop).
Hypothesis I_log : stable_log I.
Hypothesis I_rng : stable_rng I.
Hypothesis I_flag : stable_flag I.
Hypothesis I_front : stable_front I.
Hypothesis I_fov : ∀ h b, I h → I (set_fov_refresh b h).
Hypothesis I_set : ∀ r f, keeps_kind f → stable_setattr I r f.

Let E : exn → Prop := λ _, True.

Lemma pres_move_turn self dx dy : preserves I E (move self dx dy).
Proof. apply pres_move; [done | |]; intros v; by apply I_set. Qed.

Lemma pres_deal_damage_turn self target :
  preserves I E (deal_damage die self target).
Proof.
  apply pres_deal_damage; [done | done | done | done | |].
  - split_and!; intros v; by apply I_set.
  - intros v. by apply I_set.
Qed.

Lemma pres_chase_attack_turn self : preserves I E (chase_attack self).
Proof.
  assert (python_exn E) as HE by done.
  unfold chase_attack. apply pres_get_bind. intros h2 Ih2.
  apply pres_bind; [apply pres_deal_damage_turn |].
  intros dmg. apply pres_bind.
  { destruct (truthy dmg);
      (apply pres_bind; [pres_step HE | intros nm; by apply pres_add_msg]). }
  intros _. apply pres_get_bind. intros h3 Ih3.
  destruct (_ =? _); [| apply pres_ret].
  apply pres_bind; [pres_step HE | intros nm; by apply pres_add_msg].
Qed.

Lemma pres_chase_loop_turn self target posns d mv :
  preserves I E (chase_loop self target posns d mv).
Proof.
  assert (python_exn E) as HE by done.
  revert d mv. induction posns as [|posn rest IH]; intros d mv; simpl.
  { apply pres_ret. }
  apply pres_bind; [unfold chase_condition; repeat pres_step HE |].
  intros c. destruct c.
  { apply pres_bind; [apply pres_chase_attack_turn | intros _; apply IH]. }
  apply pres_bind; [pres_step HE |]. intros sx0.
  apply pres_bind; [pres_step HE |]. intros sy0.
  apply pres_get_bind. intros h4 Ih4.
  destruct (negb _); [| apply IH].
  apply pres_bind; [pres_step HE |]. intros sx1.
  apply pres_bind; [pres_step HE |]. intros tx.
  apply pres_bind; [pres_step HE |]. intros sy1.
  apply pres_bind; [pres_step HE |]. intros ty.
  apply pres_bind; [pres_step HE |]. intros new_dist.
  destruct (PyFloat.ltb _ _); apply IH.
Qed.

Lemma pres_run_loop_turn self target posns d mv :
  preserves I E (run_loop self target posns d mv).
Proof.
  assert (python_exn E) as HE by done.
  revert d mv. induction posns as [|posn rest IH]; intros d mv; simpl.
  { apply pres_ret. }
  apply pres_bind; [pres_step HE |]. intros sx0.
  apply pres_bind; [pres_step HE |]. intros sy0.
  apply pres_get_bind. intros h4 Ih4.
  destruct (negb _); [| apply IH].
  apply pres_bind; [pres_step HE |]. intros sx1.
  apply pres_bind; [pres_step HE |]. intros tx.
  apply pres_bind; [pres_step HE |]. intros sy1.
  apply pres_bind; [pres_step HE |]. intros ty.
  apply pres_bind; [pres_step HE |]. intros new_dist.
  destruct (PyFloat.ltb _ _); apply IH.
Qed.

Lemma pres_behave_turn self : preserves I E (behave self).
Proof.
  assert (python_exn E) as HE by done.
  unfold behave.
  apply pres_bind; [pres_step HE |]. intros st1.
  destruct (_ =? _); [apply pres_ret |].
  apply pres_bind; [pres_step HE |]. intros st2.
  destruct (_ =? _).
  { apply pres_get_bind. intros h0 _. unfold chase.
    apply pres_bind; [pres_step HE |]. intros sx.
    apply pres_bind; [pres_step HE |]. intros tx.
    apply pres_bind; [pres_step HE |]. intros sy.
    apply pres_bind; [pres_step HE |]. intros ty.
    apply pres_bind; [pres_step HE |]. intros d.
    apply pres_bind; [apply pres_chase_loop_turn |]. intros r.
    destruct (r.2); [apply pres_move_turn | apply pres_ret]. }
  apply pres_bind; [pres_step HE |]. intros st3.
  destruct (_ =? _); [| apply pres_ret].
  apply pres_get_bind. intros h0 _. unfold run.
  apply pres_bind; [pres_step HE |]. intros sx.
  apply pres_bind; [pres_step HE |]. intros tx.
  apply pres_bind; [pres_step HE |]. intros sy.
  apply pres_bind; [pres_step HE |]. intros ty.
  apply pres_bind; [pres_step HE |]. intros d.
  apply pres_bind; [apply pres_run_loop_turn |]. intros r.
  destruct (r.2); [apply pres_move_turn | apply pres_ret].
Qed.

Lemma pres_transitions_turn self row x :
  Forall (λ cell, ∀ check, cell = Some check → preserves I E check) row →
  preserves I E (transitions self row x).
Proof.
  assert (python_exn E) as HE by done.
  intros Hrow. revert x. induction Hrow as [|cell row Hcell _ IH]; intros x.
  { apply pres_ret. }
  destruct cell as [check|]; [| apply IH].
  rewrite transitions_Some.
  apply pres_bind; [by apply Hcell |]. intros b.
  apply pres_bind; [| intros _; apply IH].
  destruct b; [| apply pres_ret].
  apply pres_enter_state; [done | done | by apply I_set].
Qed.

Lemma pres_action_handler_turn self : preserves I E (action_handler self).
Proof.
  assert (python_exn E) as HE by done.
  unfold action_handler.
  apply pres_bind; [pres_step HE |]. intros st.
  destruct (_ =? _); [apply pres_ret |].
  apply pres_bind; [pres_step HE |]. intros st0.
  apply pres_bind_returns with
    (Q := λ row, Forall (λ cell, ∀ check, cell = Some check →
                                 preserves I E check) row).
  { intros h h' row _. unfold getitem.
    destruct (_ && _); [| done].
    destruct (state_chart self !! _) as [row'|] eqn:Hrow; [| done].
    intros [= _ <-]. apply list_elem_of_lookup_2 in Hrow.
    unfold state_chart in Hrow.
    assert (preserves I E (not_in_sight self)) as H1
      by (by apply pres_not_in_sight).
    assert (preserves I E (in_sight_and_healthy self)) as H2
      by (by apply pres_in_sight_and_healthy).
    assert (preserves I E (in_sight_and_not_healthy self)) as H3
      by (by apply pres_in_sight_and_not_healthy).
    apply elem_of_cons in Hrow as [->|Hrow];
      [| apply elem_of_cons in Hrow as [->|Hrow];
         [| apply elem_of_cons in Hrow as [->|Hrow];
            [| by apply elem_of_nil in Hrow]]];
      repeat (apply Forall_cons_2; [intros check [=]; by subst |]);
      apply Forall_nil_2. }
  { pres_step HE. }
  intros row Hrow.
  apply pres_bind; [by apply pres_transitions_turn |]. intros _.
  apply pres_behave_turn.
Qed.

Lemma pres_for_each_turn l body :
  (∀ mob, preserves I E (body mob)) → preserves I E (for_each l body).
Proof.
  intros Hbody. induction l as [|mob l IH]; simpl; [apply pres_ret |].
  apply pres_bind; [apply Hbody | intros _; apply IH].
Qed.

Lemma pres_move_or_attack_turn self dx dy :
  preserves I E (move_or_attack self dx dy).
Proof.
  assert (python_exn E) as HE by done.
  intros h Ih. rewrite move_or_attack_after_scan.
  assert (preserves I E
            (for_each (mobs h) (move_or_attack_body self dx dy);;
             modify (set_fov_refresh true);; move self dx dy)) as Hp.
  { apply pres_bind.
    - apply pres_for_each_turn. intros mob.
      apply pres_move_or_attack_body_of; try done.
      + intros h1 l I1 Hr. by apply I_front.
      + split_and!; intros v; by apply I_set.
      + intros v. by apply I_set.
      + intros v. by apply I_set.
    - intros _. apply pres_bind; [apply pres_modify; intros h1; apply I_fov |].
      intros _. apply pres_move_turn. }
  erewrite bind_rewrite; [| apply for_mobs_for_each; lia].
  rewrite drop_0. exact (Hp h Ih).
Qed.

End Turn.

Lemma same_entities_turn h0 (m : M unit) :
  (∀ I : handler → Prop,
     stable_log I → stable_rng I → stable_flag I → stable_front I →
     (∀ h b, I h → I (set_fov_refresh b h)) →
     (∀ r f, keeps_kind f → stable_setattr I r f) →
     preserves I (λ _, True) m) →
  same_entities h0 (exec m h0).
Proof.
  intros Hm. apply (preserves_exec (same_entities h0) (λ _, True)).
  - apply Hm.
    + by intros h v Ih.
    + by intros h v Ih.
    + by intros h v Ih.
    + intros h r l (Hp & Hf & Hmobs & Hk) Hr. split_and!; try done.
      simpl. rewrite <- Hmobs.
      destruct (remove_first_split r (mobs h)) as (before & after & Hm' & _ & Hr').
      { destruct (decide (r ∈ mobs h)) as [|Hnin]; [done |].
        by rewrite (remove_first_None _ _ Hnin) in Hr. }
      rewrite Hr in Hr'. simplify_eq. rewrite Hm'.
      by rewrite Permutation_middle.
    + by intros h b Ih.
    + intros r f Hf h o (Hp & Hfov & Hmobs & Hk) Ho. split_and!; try done.
      intros r'. simpl. destruct (decide (r' = r)) as [->|Hne].
      * rewrite lookup_insert_eq, <- Hk, Ho. simpl. by rewrite Hf.
      * by rewrite lookup_insert_ne.
  - by split_and!.
Qed.

(** X20: Neither a turn of the player nor a turn of a mob creates or deletes
    an object or changes its class, colour, maximal hit points, attack
    strength or morale; the registry is only reordered, and the player
    and the field of view are those of before.  This holds whether the
    call returns or raises. *)
Theorem turn_keeps_entities self dx dy h :
  same_entities h (exec (move_or_attack self dx dy) h) ∧
  same_entities h (exec (action_handler self) h).
Proof.
  split; apply same_entities_turn; intros I H1 H2 H3 H4 H5 H6.
  - by apply pres_move_or_attack_turn.
  - by apply pres_action_handler_turn.
Qed.

End Properties.

(** * The claims on sample worlds *)

#[local] Existing Instance sample_env.

Lemma C9_witness :
  heap sample_handler !! 0%nat = Some (Player_init 5 5 "Hero") ∧
  game_state sample_handler ≠ 3 ∧
  game_state (exec (Player_die (env := sample_env) 0%nat) sample_handler) = 3 ∧
  Player_die (env := sample_env) 0%nat
    (exec (Player_die (env := sample_env) 0%nat) sample_handler) =
    (exec (Player_die (env := sample_env) 0%nat) sample_handler, Return tt).
Proof.
  assert (heap sample_handler !! 0%nat = Some (Player_init 5 5 "Hero")) as Ho
    by (vm_compute; reflexivity).
  split; [exact Ho |]. split; [simpl; lia |].
  exact (proj2 (proj2 (C9_Player_die_idempotent (env := sample_env)
                         0%nat sample_handler _ Ho))).
Defined.

Lemma C8_witness :
  heap sample_handler !! 1%nat = Some (Spider 6 5) ∧
  1%nat ∈ mobs sample_handler ∧
  ∃ before after o',
    mobs sample_handler = before ++ (1%nat :: after) ∧
    take_damage (die (env := sample_env)) 1%nat 250 sample_handler =
      (set_mobs (1%nat :: before ++ after)
         (set_heap (<[1%nat := o']> (heap sample_handler)) sample_handler),
       Return tt) ∧
    Obj.hp o' = 0 ∧ Obj.state o' = 3 ∧ Obj.char o' = "X" ∧
    Obj.solid o' = false.
Proof.
  assert (heap sample_handler !! 1%nat = Some (Spider 6 5)) as Ho
    by (vm_compute; reflexivity).
  assert (1%nat ∈ mobs sample_handler) as Hin.
  { replace (mobs sample_handler) with [2%nat; 1%nat]
      by (vm_compute; reflexivity).
    apply elem_of_cons. right. apply elem_of_cons. by left. }
  split; [exact Ho |]. split; [exact Hin |].
  destruct (C8_Mob_die_moves_to_front (env := sample_env) 1%nat
              sample_handler _ Ho Hin)
    as (before & after & Hm & _ & _ & Hspider).
  destruct (Hspider 6 5 eq_refl) as (o' & Hrun & Hhp & Hst & Hch & _ & Hso).
  exists before, after, o'. repeat split; assumption.
Defined.

Lemma C3_witness :
  heap sample_handler !! 1%nat = Some (Spider 6 5) ∧
  is_CombatEntity (Obj.cls (Spider 6 5)) = true ∧
  Obj.hp (Spider 6 5) = Obj.max_hp (Spider 6 5) ∧
  0 ≤ Obj.max_hp (Spider 6 5) ∧
  Forall (λ d, 0 ≤ d) [50; 0; 200] ∧
  ∃ o', heap (take_damages (H := sample_env) 1%nat [50; 0; 200]
                sample_handler) !! 1%nat = Some o' ∧
        0 ≤ Obj.hp o' ≤ Obj.max_hp o' ∧
        Obj.max_hp o' = Obj.max_hp (Spider 6 5).
Proof.
  assert (heap sample_handler !! 1%nat = Some (Spider 6 5)) as Ho
    by (vm_compute; reflexivity).
  assert (Forall (λ d, 0 ≤ d) [50; 0; 200]) as Hds
    by (repeat constructor; lia).
  split; [exact Ho |]. split; [reflexivity |]. split; [reflexivity |].
  split; [simpl; lia |]. split; [exact Hds |].
  apply (proj1 (C3_take_damage_hp_bounds (env := sample_env) 1%nat
                  sample_handler _ Ho eq_refl) eq_refl).
  - simpl. lia.
  - exact Hds.
Defined.

Lemma C2_witness :
  heap grave_handler !! 1%nat = Some dead_spider ∧
  is_CombatEntity (Obj.cls dead_spider) = true ∧
  Obj.hp dead_spider = 0 ∧ 0 ≤ 5 ∧
  (∀ hook, take_damage hook 1%nat 5 grave_handler = hook 1%nat grave_handler) ∧
  ∃ o', heap (exec (take_damage (die (env := sample_env)) 1%nat 5)
                grave_handler) !! 1%nat = Some o' ∧ Obj.hp o' = 0.
Proof.
  assert (heap grave_handler !! 1%nat = Some dead_spider) as Ho
    by (vm_compute; reflexivity).
  split; [exact Ho |]. split; [reflexivity |]. split; [reflexivity |].
  split; [lia |].
  apply (C2_take_damage_on_dead_reinvokes_die (env := sample_env) 1%nat
           grave_handler dead_spider 5 Ho eq_refl eq_refl).
  lia.
Defined.

(** C2 as stated fails: the spider is dead, [die] has run for it, it is
    second in the registry; a further [take_damage(5)] runs [die] again,
    which moves the spider back to the front of the registry. *)
Lemma C2_counterexample :
  heap grave_handler !! 1%nat = Some dead_spider ∧
  Obj.hp dead_spider = 0 ∧ Obj.state dead_spider = 3 ∧
  mobs grave_handler = [2%nat; 1%nat] ∧
  mobs (exec (take_damage (die (env := sample_env)) 1%nat 5) grave_handler)
    = [1%nat; 2%nat] ∧
  ¬ die_not_invoked 1%nat 5 grave_handler.
Proof.
  split; [vm_compute; reflexivity |]. split; [reflexivity |].
  split; [reflexivity |]. split; [vm_compute; reflexivity |].
  split; [vm_compute; reflexivity |].
  intros Hnot. specialize (Hnot (die (env := sample_env))).
  apply (f_equal (λ r, mobs r.1)) in Hnot. vm_compute in Hnot.
  discriminate Hnot.
Qed.

Lemma C4_witness :
  heap grave_handler !! 1%nat = Some dead_spider ∧
  Obj.cls dead_spider = cMob ∧ Obj.state dead_spider = 3 ∧
  Obj.hp dead_spider = 0 ∧ 1%nat ∈ mobs grave_handler ∧
  Forall nonneg_call
    [Call_action_handler; Call_take_damage 5; Call_action_handler] ∧
  ∃ h' o',
    do_calls (H := sample_env) 1%nat
      [Call_action_handler; Call_take_damage 5; Call_action_handler]
      grave_handler = (h', Return tt) ∧
    heap h' !! 1%nat = Some o' ∧
    Obj.x o' = 6 ∧ Obj.y o' = 5 ∧ Obj.hp o' = 0 ∧ Obj.state o' = 3.
Proof.
  assert (heap grave_handler !! 1%nat = Some dead_spider) as Ho
    by (vm_compute; reflexivity).
  assert (1%nat ∈ mobs grave_handler) as Hin.
  { replace (mobs grave_handler) with [2%nat; 1%nat]
      by (vm_compute; reflexivity).
    apply elem_of_cons. right. apply elem_of_cons. by left. }
  assert (Forall nonneg_call
            [Call_action_handler; Call_take_damage 5; Call_action_handler])
    as Hcs by (repeat constructor; simpl; lia).
  split; [exact Ho |]. split; [reflexivity |]. split; [reflexivity |].
  split; [reflexivity |]. split; [exact Hin |]. split; [exact Hcs |].
  exact (proj2 (C4_dead_mob_stays_dead (env := sample_env) 1%nat
                  grave_handler dead_spider _ Ho eq_refl eq_refl eq_refl
                  Hin Hcs)).
Defined.


Lemma C7_witness :
  (heap sample_handler !! 1%nat = Some (Spider 6 5) ∧
   Obj.cls (Spider 6 5) = cMob ∧ Obj.state (Spider 6 5) ≠ 3 ∧
   player sample_handler ≠ 1%nat ∧
   Obj.state (Spider 6 5) = data.HOLD ∧
   eval (in_sight 1%nat) sample_handler = Return true ∧
   eval (healthy 1%nat) sample_handler = Return true ∧
   ∃ o', heap (exec (action_handler 1%nat) sample_handler) !! 1%nat
           = Some o' ∧
         Obj.state o' = data.CHASE) ∧
  (heap hidden_handler !! 1%nat
     = Some (Obj.set_state data.CHASE (Spider 8 5)) ∧
   Obj.state (Obj.set_state data.CHASE (Spider 8 5)) ≠ 3 ∧
   player hidden_handler ≠ 1%nat ∧
   eval (not_in_sight 1%nat) hidden_handler = Return true ∧
   ∃ o', heap (exec (action_handler 1%nat) hidden_handler) !! 1%nat
           = Some o' ∧
         Obj.state o' = data.HOLD).
Proof.
  assert (heap sample_handler !! 1%nat = Some (Spider 6 5)) as Ho
    by (vm_compute; reflexivity).
  assert (Obj.state (Spider 6 5) ≠ 3) as Hlive by (vm_compute; lia).
  assert (player sample_handler ≠ 1%nat) as Hp by (vm_compute; lia).
  assert (eval (in_sight 1%nat) sample_handler = Return true) as Hs
    by (vm_compute; reflexivity).
  assert (eval (healthy 1%nat) sample_handler = Return true) as Hh
    by (vm_compute; reflexivity).
  assert (heap hidden_handler !! 1%nat
            = Some (Obj.set_state data.CHASE (Spider 8 5))) as Ho'
    by (vm_compute; reflexivity).
  assert (Obj.state (Obj.set_state data.CHASE (Spider 8 5)) ≠ 3) as Hlive'
    by (vm_compute; lia).
  assert (player hidden_handler ≠ 1%nat) as Hp' by (vm_compute; lia).
  assert (eval (not_in_sight 1%nat) hidden_handler = Return true) as Hs'
    by (vm_compute; reflexivity).
  split.
  - split; [exact Ho |]. split; [reflexivity |]. split; [exact Hlive |].
    split; [exact Hp |]. split; [reflexivity |]. split; [exact Hs |].
    split; [exact Hh |].
    exact (proj1 (C7_action_handler_transitions 1%nat sample_handler _ Ho
                    eq_refl Hlive Hp) eq_refl Hs Hh).
  - split; [exact Ho' |]. split; [exact Hlive' |]. split; [exact Hp' |].
    split; [exact Hs' |].
    exact (proj2 (C7_action_handler_transitions 1%nat hidden_handler _ Ho'
                    eq_refl Hlive' Hp') eq_refl Hs').
Defined.

Lemma C10_witness :
  chart !! 0%nat
    = Some [None; Some In_sight_and_healthy; Some In_sight_and_not_healthy] ∧
  ∀ h,
    transitions (env := sample_env) 1%nat
      (bound_row 1%nat
         [None; Some In_sight_and_healthy; Some In_sight_and_not_healthy])
      0 h =
      (in_sight_and_healthy 1%nat;; in_sight_and_not_healthy 1%nat;;
       mret tt) h ∨
    transitions (env := sample_env) 1%nat
      (bound_row 1%nat
         [None; Some In_sight_and_healthy; Some In_sight_and_not_healthy])
      0 h =
      (in_sight_and_healthy 1%nat;; enter_state 1%nat 1;;
       in_sight_and_not_healthy 1%nat;; mret tt) h ∨
    transitions (env := sample_env) 1%nat
      (bound_row 1%nat
         [None; Some In_sight_and_healthy; Some In_sight_and_not_healthy])
      0 h =
      (in_sight_and_healthy 1%nat;; in_sight_and_not_healthy 1%nat;;
       enter_state 1%nat 2) h.
Proof.
  split; [reflexivity |].
  destruct (C10_at_most_one_transition (env := sample_env) 1%nat 0%nat
              [None; Some In_sight_and_healthy; Some In_sight_and_not_healthy]
              eq_refl)
    as (x1 & p1 & x2 & p2 & Hcells & _ & _ & _ & _ & Hrun & _).
  simpl in Hcells. injection Hcells as <- <- <- <-. exact Hrun.
Defined.

Lemma C5_witness :
  heap far_handler !! 1%nat = Some (Spider 8 5) ∧
  heap far_handler !! 0%nat = Some (Player_init 5 5 "Hero") ∧
  heap far_handler !! player far_handler = Some (Player_init 5 5 "Hero") ∧
  player_in_reach (H := sample_env) far_handler (Spider 8 5)
    (Player_init 5 5 "Hero") = false ∧
  doubles_exact [9; 16; 4; 10; 10] = true ∧
  (∃ mv,
     chase (env := sample_env) 1%nat 0%nat far_handler =
       (step_or_stay 1%nat (Spider 8 5) mv far_handler, Return tt) ∧
     match mv with
     | Some p =>
         closest
           (filter (unblocked (H := sample_env) far_handler 8 5) possible_posn)
           (λ p, dist2 (8 + p.1) (5 + p.2) 5 5) 9 p
     | None =>
         ∀ q, q ∈ filter (unblocked (H := sample_env) far_handler 8 5)
                    possible_posn →
              9 ≤ dist2 (8 + q.1) (5 + q.2) 5 5
     end) ∧
  (∃ mv,
     run (env := sample_env) 1%nat 0%nat far_handler =
       (step_or_stay 1%nat (Spider 8 5) mv far_handler, Return tt) ∧
     match mv with
     | Some p =>
         farthest
           (filter (unblocked (H := sample_env) far_handler 8 5) possible_posn)
           (λ p, dist2 (8 + p.1) (5 + p.2) 5 5) 9 p
     | None =>
         ∀ q, q ∈ filter (unblocked (H := sample_env) far_handler 8 5)
                    possible_posn →
              dist2 (8 + q.1) (5 + q.2) 5 5 ≤ 9
     end).
Proof.
  assert (heap far_handler !! 1%nat = Some (Spider 8 5)) as Hso
    by (vm_compute; reflexivity).
  assert (heap far_handler !! 0%nat = Some (Player_init 5 5 "Hero")) as Hto
    by (vm_compute; reflexivity).
  assert (player_in_reach (H := sample_env) far_handler (Spider 8 5)
            (Player_init 5 5 "Hero") = false) as Hreach
    by (vm_compute; reflexivity).
  assert (doubles_exact [9; 16; 4; 10; 10] = true) as Hexact
    by (vm_compute; reflexivity).
  split; [exact Hso |]. split; [exact Hto |]. split; [exact Hto |].
  split; [exact Hreach |]. split; [exact Hexact |].
  destruct (C5_chase_and_run (env := sample_env) 1%nat 0%nat far_handler
              _ _ Hso Hto Hexact) as [Hchase Hrun].
  split; [exact (Hchase _ Hto Hreach) | exact Hrun].
Defined.

(** C1 at the failing input.  The player at (5, 5) steps east, where a
    solid spider stands.  On a floor that ignores entities the player
    attacks the spider, which survives, and then also moves onto the tile
    of the spider, and the visibility map is marked for recomputation.
    Where solid entities block, the same happens as soon as the blow
    kills the spider: the player attacks and moves onto the remains. *)
Theorem C1_move_or_attack_attacks_and_moves :
  (let r := move_or_attack (env := floor_env) 0%nat 1 0 sample_handler in
   r.2 = Return tt ∧
   messages r.1 =
     [("You attack Spider for 7 damage!", data.COLOURS "player_atk_text")] ∧
   fov_refresh r.1 = true ∧
   heap r.1 !! 0%nat = Some (Player_init 6 5 "Hero") ∧
   heap r.1 !! 1%nat = Some (Obj.set_hp 193 (Spider 6 5))) ∧
  (let r := move_or_attack (env := sample_env) 0%nat 1 0 wounded_handler in
   r.2 = Return tt ∧
   messages r.1 =
     [("You attack Spider for 7 damage!", data.COLOURS "player_atk_text");
      ("You killed Spider!", data.COLOURS "player_kill_text")] ∧
   fov_refresh r.1 = true ∧
   heap r.1 !! 0%nat = Some (Player_init 6 5 "Hero") ∧
   (Obj.x <$> heap r.1 !! 1%nat) = Some 6 ∧
   (Obj.y <$> heap r.1 !! 1%nat) = Some 5).
Proof. vm_compute. repeat split; reflexivity. Qed.

(** * Further properties on sample worlds *)

Lemma add_msg_keeps_latest_witness :
  1 ≤ max_messages (Env := sample_env) ∧
  Z.of_nat (length (messages sample_handler))
    ≤ max_messages (Env := sample_env) ∧
  Z.of_nat (length (messages
                      (exec (add_msg (env := sample_env) "You missed!"
                               (data.COLOURS "player_atk_text"))
                         sample_handler)))
    ≤ max_messages (Env := sample_env).
Proof.
  split; [simpl; lia |]. split; [simpl; lia |].
  apply (add_msg_keeps_latest (env := sample_env)); simpl; lia.
Defined.

Lemma add_msg_overfull_grows_witness :
  max_messages (Env := log_env (-1))
    < Z.of_nat (length (messages sample_handler)) ∧
  add_msg (env := log_env (-1)) "You missed!" (data.COLOURS "text")
    sample_handler =
    (set_messages
       (messages sample_handler ++
        log_lines (wrap (Env := log_env (-1)) "You missed!")
          (data.COLOURS "text"))
       sample_handler, Return tt).
Proof.
  split; [simpl; lia |].
  apply (add_msg_overfull_grows (env := log_env (-1))). simpl. lia.
Defined.

Lemma add_msg_zero_capacity_witness :
  max_messages (Env := log_env 0) = 0 ∧
  messages sample_handler = [] ∧
  add_msg (env := log_env 0) "You missed!" (data.COLOURS "text")
    sample_handler = (sample_handler, Raise IndexError).
Proof.
  split; [reflexivity |]. split; [reflexivity |].
  by apply (add_msg_zero_capacity (env := log_env 0) _ _ _ "You missed!" []).
Defined.

Lemma Mob_die_unregistered_witness :
  heap stray_handler !! 1%nat = Some (Spider 6 5) ∧
  (1%nat ∉ mobs stray_handler) ∧
  take_damage (die (env := sample_env)) 1%nat 200 stray_handler =
    (set_heap (<[1%nat := Obj.set_state 3
                   (Obj.set_solid false
                      (Obj.set_char "X" (Obj.set_hp 0 (Spider 6 5))))]>
                 (heap stray_handler)) stray_handler,
     Raise ValueError).
Proof.
  assert (heap stray_handler !! 1%nat = Some (Spider 6 5)) as Ho
    by (vm_compute; reflexivity).
  assert (1%nat ∉ mobs stray_handler) as Hnin.
  { replace (mobs stray_handler) with [2%nat] by reflexivity.
    intros [H|H]%elem_of_cons; [discriminate H | by apply elem_of_nil in H]. }
  split; [exact Ho |]. split; [exact Hnin |].
  apply (proj2 (Mob_die_unregistered (env := sample_env) 1%nat stray_handler
                  _ 200 Ho eq_refl Hnin ltac:(simpl; lia))).
Defined.

Lemma Mob_die_idempotent_witness :
  heap sample_handler !! 1%nat = Some (Spider 6 5) ∧
  1%nat ∈ mobs sample_handler ∧
  Mob_die (env := sample_env) 1%nat
    (exec (Mob_die (env := sample_env) 1%nat) sample_handler) =
    (exec (Mob_die (env := sample_env) 1%nat) sample_handler, Return tt).
Proof.
  assert (heap sample_handler !! 1%nat = Some (Spider 6 5)) as Ho
    by (vm_compute; reflexivity).
  assert (1%nat ∈ mobs sample_handler) as Hin.
  { replace (mobs sample_handler) with [2%nat; 1%nat] by reflexivity.
    apply elem_of_cons. right. apply elem_of_cons. by left. }
  split; [exact Ho |]. split; [exact Hin |].
  apply (Mob_die_idempotent (env := sample_env) 1%nat sample_handler _ Ho Hin).
Defined.

Lemma deal_damage_negative_atk_witness :
  heap imp_handler !! 1%nat
    = Some (Mob_init 6 5 "Imp" "i" 10 (-1) 50 data.HOLD) ∧
  Obj.atk (Mob_init 6 5 "Imp" "i" 10 (-1) 50 data.HOLD) < 0 ∧
  deal_damage (die (env := sample_env)) 1%nat 0%nat imp_handler =
    (imp_handler, Raise ValueError).
Proof.
  assert (heap imp_handler !! 1%nat
          = Some (Mob_init 6 5 "Imp" "i" 10 (-1) 50 data.HOLD)) as Hs
    by (vm_compute; reflexivity).
  assert (heap imp_handler !! 0%nat = Some (Player_init 5 5 "Hero")) as Ht
    by (vm_compute; reflexivity).
  split; [exact Hs |]. split; [simpl; lia |].
  apply (deal_damage_negative_atk (die (env := sample_env)) 1%nat 0%nat
           imp_handler _ _ Hs eq_refl Ht eq_refl).
  simpl. lia.
Defined.

Lemma deal_damage_on_mob_witness :
  heap sample_handler !! 0%nat = Some (Player_init 5 5 "Hero") ∧
  heap sample_handler !! 1%nat = Some (Spider 6 5) ∧
  1%nat ∈ mobs sample_handler ∧
  ∃ h' to',
    deal_damage (die (env := sample_env)) 0%nat 1%nat sample_handler =
      (h', Return (Some (draws sample_handler (drawn sample_handler)
                           `mod` (Obj.atk (Player_init 5 5 "Hero") + 1)))) ∧
    heap h' = <[1%nat := to']> (heap sample_handler) ∧
    Obj.hp to' =
      Z.max 0 (Obj.hp (Spider 6 5)
               - draws sample_handler (drawn sample_handler)
                   `mod` (Obj.atk (Player_init 5 5 "Hero") + 1)).
Proof.
  assert (heap sample_handler !! 0%nat = Some (Player_init 5 5 "Hero")) as Hs
    by (vm_compute; reflexivity).
  assert (heap sample_handler !! 1%nat = Some (Spider 6 5)) as Ht
    by (vm_compute; reflexivity).
  assert (1%nat ∈ mobs sample_handler) as Hin.
  { replace (mobs sample_handler) with [2%nat; 1%nat] by reflexivity.
    apply elem_of_cons. right. apply elem_of_cons. by left. }
  split; [exact Hs |]. split; [exact Ht |]. split; [exact Hin |].
  destruct (deal_damage_on_mob (env := sample_env) 0%nat 1%nat sample_handler
              _ _ Hs eq_refl Ht eq_refl Hin ltac:(simpl; lia))
    as (h' & to' & Hrun & _ & Hheap & Hhp & _).
  by exists h', to'.
Defined.

Lemma move_or_attack_free_witness :
  heap far_handler !! 0%nat = Some (Player_init 5 5 "Hero") ∧
  move_or_attack (env := sample_env) 0%nat 1 0 far_handler =
    move (env := sample_env) 0%nat 1 0 (set_fov_refresh true far_handler).
Proof.
  assert (heap far_handler !! 0%nat = Some (Player_init 5 5 "Hero")) as Hs
    by (vm_compute; reflexivity).
  split; [exact Hs |].
  apply (move_or_attack_free (env := sample_env) 0%nat 1 0 far_handler _ Hs).
  intros mob Hmob.
  replace (mobs far_handler) with [2%nat; 1%nat] in Hmob by reflexivity.
  apply elem_of_cons in Hmob as [->|Hmob];
    [split; [by eexists | vm_compute; reflexivity] |].
  apply elem_of_cons in Hmob as [->|Hmob];
    [split; [by eexists | vm_compute; reflexivity] |].
  by apply elem_of_nil in Hmob.
Defined.

Lemma healthy_exact_witness :
  heap wounded_handler !! 1%nat = Some (Obj.set_hp 5 (Spider 6 5)) ∧
  0 ≤ Obj.max_hp (Obj.set_hp 5 (Spider 6 5)) ≤ 10000 ∧
  healthy 1%nat wounded_handler = (wounded_handler, Return false).
Proof.
  assert (heap wounded_handler !! 1%nat = Some (Obj.set_hp 5 (Spider 6 5)))
    as Ho by (vm_compute; reflexivity).
  split; [exact Ho |]. split; [simpl; lia |].
  apply (healthy_exact 1%nat wounded_handler _ Ho eq_refl). simpl. lia.
Defined.

Lemma linear_dist_order_exact_witness :
  (∀ n, n ∈ [1; 2; 4] → 0 ≤ n ≤ 20000) ∧ doubles_exact [1; 2; 4] = true.
Proof.
  assert (∀ n, n ∈ [1; 2; 4] → 0 ≤ n ≤ 20000) as Hns.
  { intros n Hn. repeat (apply elem_of_cons in Hn as [->|Hn]); try lia.
    by apply elem_of_nil in Hn. }
  split; [exact Hns |]. apply (linear_dist_order_exact _ Hns).
Defined.

Lemma action_handler_next_state_witness :
  heap hidden_handler !! 1%nat
    = Some (Obj.set_state data.CHASE (Spider 8 5)) ∧
  player hidden_handler ≠ 1%nat ∧
  healthy_value (Obj.set_state data.CHASE (Spider 8 5)) = Return true ∧
  ∃ o', heap (exec (action_handler (env := sample_env) 1%nat) hidden_handler)
          !! 1%nat = Some o' ∧
        Obj.state o' = data.HOLD.
Proof.
  assert (heap hidden_handler !! 1%nat
          = Some (Obj.set_state data.CHASE (Spider 8 5))) as Ho
    by (vm_compute; reflexivity).
  assert (healthy_value (Obj.set_state data.CHASE (Spider 8 5)) = Return true)
    as Hfit by (vm_compute; reflexivity).
  split; [exact Ho |]. split; [simpl; lia |]. split; [exact Hfit |].
  destruct (action_handler_next_state (env := sample_env) 1%nat hidden_handler
              _ true Ho eq_refl ltac:(simpl; lia) ltac:(vm_compute; lia)
              ltac:(vm_compute; split; discriminate) Hfit)
    as (o' & Ho' & Hst & _).
  exists o'. split; [exact Ho' |]. rewrite Hst. reflexivity.
Defined.

Lemma action_handler_idle_witness :
  heap wounded_handler !! 1%nat = Some (Obj.set_hp 5 (Spider 6 5)) ∧
  healthy_value (Obj.set_hp 5 (Spider 6 5)) = Return false ∧
  action_handler (env := sample_env) 1%nat wounded_handler =
    (set_drawn (S (drawn wounded_handler)) wounded_handler, Return tt).
Proof.
  assert (heap wounded_handler !! 1%nat = Some (Obj.set_hp 5 (Spider 6 5)))
    as Ho by (vm_compute; reflexivity).
  assert (healthy_value (Obj.set_hp 5 (Spider 6 5)) = Return false) as Hfit
    by (vm_compute; reflexivity).
  split; [exact Ho |]. split; [exact Hfit |].
  apply (action_handler_idle (env := sample_env) 1%nat wounded_handler _ false
           Ho eq_refl eq_refl ltac:(vm_compute; lia) Hfit).
  vm_compute. reflexivity.
Defined.

Lemma in_sight_and_not_healthy_brave_witness :
  heap sample_handler !! 2%nat = Some (Skeleton 9 9) ∧
  100 ≤ Obj.morale (Skeleton 9 9) ∧
  in_sight_and_not_healthy 2%nat sample_handler =
    (set_drawn (S (drawn sample_handler)) sample_handler, Return false).
Proof.
  assert (heap sample_handler !! 2%nat = Some (Skeleton 9 9)) as Ho
    by (vm_compute; reflexivity).
  split; [exact Ho |]. split; [simpl; lia |].
  apply (in_sight_and_not_healthy_brave 2%nat sample_handler _ Ho eq_refl).
  simpl. lia.
Defined.

Lemma action_handler_bad_state_witness :
  heap lost_handler !! 1%nat = Some (Obj.set_state 7 (Spider 6 5)) ∧
  Obj.state (Obj.set_state 7 (Spider 6 5)) ≠ DEAD (Env := sample_env) ∧
  action_handler (env := sample_env) 1%nat lost_handler =
    (lost_handler, Raise IndexError).
Proof.
  assert (heap lost_handler !! 1%nat = Some (Obj.set_state 7 (Spider 6 5)))
    as Ho by (vm_compute; reflexivity).
  assert (Obj.state (Obj.set_state 7 (Spider 6 5)) ≠ DEAD (Env := sample_env))
    as Hlive by (vm_compute; lia).
  split; [exact Ho |]. split; [exact Hlive |].
  apply (action_handler_bad_state (env := sample_env) 1%nat lost_handler _
           Ho eq_refl Hlive).
  right. simpl. lia.
Defined.

Lemma action_handler_after_game_over_witness :
  game_state over_handler = DEAD (Env := sample_env) ∧
  game_over_since (H := sample_env) 1%nat over_handler
    (exec (action_handler (env := sample_env) 1%nat) over_handler).
Proof.
  split; [reflexivity |].
  apply (action_handler_after_game_over (env := sample_env)). reflexivity.
Defined.

Lemma select_keeps_window_witness :
  ["Resume"; "Main Menu"] ≠ [] ∧ 1 ≤ 2 ∧
  window_ok (foldl press (SelectMenu.init ["Resume"; "Main Menu"] 2)
               [KEY_DOWN; KEY_DOWN; KEY_UP]).
Proof.
  split; [discriminate |]. split; [lia |].
  apply (select_keeps_window ["Resume"; "Main Menu"] 2
           [KEY_DOWN; KEY_DOWN; KEY_UP]); [discriminate | lia].
Defined.

Lemma select_down_reaches_witness :
  ["Resume"; "Main Menu"] ≠ [] ∧ 1 ≤ 2 ∧
  SelectMenu.selection_index
    (foldl press (SelectMenu.init ["Resume"; "Main Menu"] 2)
       (replicate 3 KEY_DOWN))
  = Z.min (Z.of_nat 3) (Z.of_nat (length ["Resume"; "Main Menu"]) - 1).
Proof.
  split; [discriminate |]. split; [lia |].
  apply (select_down_reaches ["Resume"; "Main Menu"] 2 3); [discriminate | lia].
Defined.

Lemma chase_next_to_player_witness :
  heap sample_handler !! 1%nat = Some (Spider 6 5) ∧
  heap sample_handler !! player sample_handler
    = Some (Player_init 5 5 "Hero") ∧
  player sample_handler ≠ 1%nat ∧
  game_state sample_handler ≠ DEAD (Env := sample_env) ∧
  chase (env := sample_env) 1%nat (player sample_handler) sample_handler =
    (chase_attack (env := sample_env) 1%nat;; mret tt) sample_handler.
Proof.
  assert (heap sample_handler !! 1%nat = Some (Spider 6 5)) as Hs
    by (vm_compute; reflexivity).
  assert (heap sample_handler !! player sample_handler
          = Some (Player_init 5 5 "Hero")) as Hp
    by (vm_compute; reflexivity).
  assert (player sample_handler ≠ 1%nat) as Hne by (simpl; lia).
  assert (game_state sample_handler ≠ DEAD (Env := sample_env)) as Hlive
    by (vm_compute; lia).
  split; [exact Hs |]. split; [exact Hp |]. split; [exact Hne |].
  split; [exact Hlive |].
  apply (proj1 (chase_next_to_player (env := sample_env) 1%nat sample_handler
                  _ _ (-1, 0) Hs Hp Hne Hlive
                  ltac:(apply elem_of_cons; right; apply elem_of_cons; by left)
                  eq_refl eq_refl)).
Defined.
